(** * Chunked video upload: a shallow embedding of the upload service

    The development follows the JavaScript module that implements the
    chunked upload (initialisation, the chunk transfer worker with its
    retry loop, completion, cleanup, progress reports and the batch
    scheduler) and the storage configuration of
    [supabaseStorage.aws.js] (bucket selection, file validation, the
    chunking threshold and the initialisation of the buckets).

    Conventions of the embedding:
    - JavaScript numbers that hold sizes, counts, indices and
      millisecond timestamps are integers of [Z]; the values that come
      from [Math.random] and the quantities derived from them
      (jitter, waiting times, percentages) are exact rationals of [Q]
      (the rounding of IEEE doubles is not represented);
    - strings are [string]; a buffer is a [list byte];
    - the ChunkedVideo collection is a finite map from [videoId] to the
      stored document; a document obtained with [findOne] is a copy, and
      only [save] writes it back;
    - asynchronous functions are computations of the monad [M]: they
      thread a [World] (the collection, the call counters and the list of
      requests sent to the storage service and of timers waited for) and
      finish with a value, a thrown error, or the exhaustion of the
      fuel given to an unbounded loop;
    - what the outside decides (storage replies, persistence faults, the
      clock, random numbers) is read from an [Oracle]: its n-th entry of
      each kind answers the n-th call of that kind;
    - [console.log] and the like are not represented. *)

From stdpp Require Import base gmap strings list pretty.
From Stdlib Require Import ZArith QArith Qminmax Lia Ascii String List.
Import ListNotations.

Local Open Scope string_scope.
Local Open Scope list_scope.
Local Open Scope Z_scope.

(** ** JavaScript helpers on strings and values *)

Module Js.

Definition toLowerAscii (c : ascii) : ascii :=
  let n := nat_of_ascii c in
  if ((65 <=? n) && (n <=? 90))%nat then ascii_of_nat (n + 32)%nat else c.

Fixpoint toLower (s : string) : string :=
  match s with
  | EmptyString => EmptyString
  | String c r => String (toLowerAscii c) (toLower r)
  end.

(** [s.startsWith(p)] *)
Definition startsWith (p s : string) : bool := String.prefix p s.

(** [s.endsWith(p)], used for a regular expression anchored with [$] *)
Definition endsWith (p s : string) : bool :=
  let n := String.length s in
  let k := String.length p in
  (k <=? n)%nat && String.eqb (substring (n - k)%nat k s) p.

(** [s.includes(p)] *)
Fixpoint includes (p s : string) : bool :=
  String.prefix p s ||
  match s with
  | EmptyString => false
  | String _ r => includes p r
  end.

(** Truthiness of a string: the empty string is falsy. *)
Definition truthy (s : string) : bool := negb (String.eqb s "").

(** The values of the flags computed from a file name: a boolean, or
    the empty string (the value of [name && test(name)] for an empty
    [name]). *)
Inductive Flag :=
| FBool (b : bool)
| FEmpty.

Definition truthyF (f : Flag) : bool :=
  match f with
  | FBool b => b
  | FEmpty => false
  end.

(** [a || b] and [a && b] on such values. *)
Definition orF (a b : Flag) : Flag := if truthyF a then a else b.
Definition andF (a b : Flag) : Flag := if truthyF a then b else a.

(** [name && b], for a string [name] and a boolean [b]. *)
Definition nameAnd (name : string) (b : bool) : Flag :=
  if truthy name then FBool b else FEmpty.

(** [a || b] on numbers: [0] is falsy. *)
Definition orZ (a b : Z) : Z := if a =? 0 then b else a.

(** [parseInt(v) || d], where [None] stands for [NaN]. *)
Definition parseIntOr (v : option Z) (d : Z) : Z :=
  match v with
  | Some n => orZ n d
  | None => d
  end.

(** [Math.ceil(a / b)] for integers [a] and [b], [b] not [0] (the
    division of [Z] rounds down, whatever the sign of the divisor; for
    [b = 0] the language gives an infinity or [NaN], which are not
    represented). *)
Definition ceilDiv (a b : Z) : Z := - ((- a) / b).

(** [n.toString()] *)
Definition toString (n : Z) : string := pretty n.

(** [s.padStart(len, '0')] *)
Definition padStart0 (len : nat) (s : string) : string :=
  String.concat "" (repeat "0" (len - String.length s)%nat) +:+ s.

(** [buf.slice(start, end)]: negative positions count from the end,
    positions are clamped to the buffer, an empty range gives an empty
    buffer. *)
Definition clampPos (x len : Z) : Z :=
  if x <? 0 then Z.max (x + len) 0 else Z.min x len.

Definition slice {A} (s e : Z) (buf : list A) : list A :=
  let len := Z.of_nat (length buf) in
  let s' := clampPos s len in
  let e' := clampPos e len in
  if e' <=? s' then [] else firstn (Z.to_nat (e' - s')) (skipn (Z.to_nat s') buf).

End Js.

(** ** Configuration ([supabaseStorage.aws.js]) *)

Module STORAGE_BUCKETS.
Definition IMAGES := "images".
Definition VIDEOS := "videos".
Definition DOCUMENTS := "documents".
Definition PROFILES := "profiles".
Definition COURSES := "courses".
Definition CHAT := "chat-files".
End STORAGE_BUCKETS.

Module ALLOWED_FILE_TYPES.
Definition IMAGES : list string :=
  ["image/jpeg"; "image/jpg"; "image/png"; "image/gif"; "image/webp"].
Definition VIDEOS : list string :=
  ["video/mp4"; "video/mpeg"; "video/quicktime"; "video/x-msvideo";
   "video/webm"; "video/x-matroska"; "video/x-flv"; "video/x-ms-wmv";
   "application/octet-stream"].
Definition DOCUMENTS : list string :=
  ["application/pdf"; "application/msword";
   "application/vnd.openxmlformats-officedocument.wordprocessingml.document"].
End ALLOWED_FILE_TYPES.

(** The values of the environment variables after [parseInt]
    ([None] is [NaN]: the variable is unset or not a number). *)
Record ProcessEnv := {
  env_CHUNK_SIZE : option Z;
  env_MAX_CONCURRENT_CHUNKS : option Z;
  env_CHUNK_TIMEOUT : option Z;
  env_SUPABASE_TIMEOUT : option Z
}.

Definition CHUNK_SIZE (pe : ProcessEnv) : Z :=
  Js.parseIntOr (env_CHUNK_SIZE pe) (10 * 1024 * 1024).
Definition MAX_RETRIES : Z := 5.
Definition RETRY_DELAY_BASE : Z := 2000.
Definition MAX_CONCURRENT_CHUNKS (pe : ProcessEnv) : Z :=
  Js.parseIntOr (env_MAX_CONCURRENT_CHUNKS pe) 2.
Definition CHUNK_TIMEOUT (pe : ProcessEnv) : Z :=
  Js.parseIntOr (env_CHUNK_TIMEOUT pe) 300000.
Definition SUPABASE_TIMEOUT (pe : ProcessEnv) : Z :=
  Js.parseIntOr (env_SUPABASE_TIMEOUT pe) 600000.

(** [/\.(mp4|mov|avi|wmv|mkv|flv|webm)$/i.test(name)] *)
Definition videoExtensions : list string :=
  ["mp4"; "mov"; "avi"; "wmv"; "mkv"; "flv"; "webm"].

Definition hasVideoExtension (name : string) : bool :=
  existsb (fun e => Js.endsWith ("." +:+ e) (Js.toLower name)) videoExtensions.

(** [/\.mkv$/i.test(name)] *)
Definition hasMkvExtension (name : string) : bool :=
  Js.endsWith ".mkv" (Js.toLower name).

Definition inList (s : string) (l : list string) : bool :=
  existsb (String.eqb s) l.

(** [getBucketForFileType(mimetype, folder = '', originalname = '')] *)
Definition getBucketForFileType (mimetype folder originalname : string) : string :=
  let isVideoByMimetype := inList mimetype ALLOWED_FILE_TYPES.VIDEOS in
  let isVideoByExtension := Js.truthy originalname && hasVideoExtension originalname in
  let isMkvFile := Js.truthy originalname && hasMkvExtension originalname in
  let isOctetStreamMkv := String.eqb mimetype "application/octet-stream" && isMkvFile in
  if isVideoByMimetype || isVideoByExtension || isOctetStreamMkv then
    STORAGE_BUCKETS.VIDEOS
  else if inList mimetype ALLOWED_FILE_TYPES.DOCUMENTS then
    STORAGE_BUCKETS.DOCUMENTS
  else if inList mimetype ALLOWED_FILE_TYPES.IMAGES then
    if Js.truthy folder && Js.includes "profile" folder then STORAGE_BUCKETS.PROFILES
    else if Js.truthy folder && (Js.includes "course" folder || String.eqb folder "courses")
    then STORAGE_BUCKETS.COURSES
    else if Js.truthy folder && Js.includes "chat" folder then STORAGE_BUCKETS.CHAT
    else STORAGE_BUCKETS.IMAGES
  else STORAGE_BUCKETS.IMAGES.

(** ** Error messages

    An error is thrown with a message built by a template literal. The
    message is kept as the list of its parts, in order: literal text,
    interpolated numbers, and the JSON rendering of the details object
    of a permanent transfer failure. Interpolating the message of a
    caught error appends its parts. *)

#[local] Set Warnings "-register-all".
Inductive Part :=
| PStr (s : string)
| PNum (n : Z)
| PFixed (digits : nat) (q : Q)
| PDetails (chunkIndex totalAttempts : Z) (lastError : list Part)
           (chunkSize : Z) (chunkSizeMB : Q) (bucket : string)
           (awsOptimized : bool) (timestamp : Z).

Definition Message := list Part.

(** ** The stored documents *)

Record ChunkRecord := mkChunkRecord {
  chunkIndex : Z;
  chunkPath : string;
  rec_chunkSize : Z;
  uploadedAt : Z;
  uploadAttempts : Z;
  rec_awsOptimized : bool
}.

Record ChunkedVideo := mkChunkedVideo {
  videoId : string;
  originalFilename : string;
  totalSize : Z;
  totalChunks : Z;
  chunkSize : Z;
  mimetype : string;
  bucket : string;
  folder : string;
  uploadedChunks : list ChunkRecord;
  awsOptimized : bool;
  maxConcurrentChunks : Z;
  chunkTimeout : Z;
  uploadProgress : Q;
  isComplete : bool;
  finalVideoUrl : option string;
  completedAt : option Z;
  createdAt : option Z
}.

Definition with_uploadedChunks (l : list ChunkRecord) (cv : ChunkedVideo) :=
  mkChunkedVideo (videoId cv) (originalFilename cv) (totalSize cv) (totalChunks cv)
    (chunkSize cv) (mimetype cv) (bucket cv) (folder cv) l (awsOptimized cv)
    (maxConcurrentChunks cv) (chunkTimeout cv) (uploadProgress cv) (isComplete cv)
    (finalVideoUrl cv) (completedAt cv) (createdAt cv).

Definition with_progress (p : Q) (cv : ChunkedVideo) :=
  mkChunkedVideo (videoId cv) (originalFilename cv) (totalSize cv) (totalChunks cv)
    (chunkSize cv) (mimetype cv) (bucket cv) (folder cv) (uploadedChunks cv)
    (awsOptimized cv) (maxConcurrentChunks cv) (chunkTimeout cv) p (isComplete cv)
    (finalVideoUrl cv) (completedAt cv) (createdAt cv).

Definition with_isComplete (b : bool) (cv : ChunkedVideo) :=
  mkChunkedVideo (videoId cv) (originalFilename cv) (totalSize cv) (totalChunks cv)
    (chunkSize cv) (mimetype cv) (bucket cv) (folder cv) (uploadedChunks cv)
    (awsOptimized cv) (maxConcurrentChunks cv) (chunkTimeout cv) (uploadProgress cv) b
    (finalVideoUrl cv) (completedAt cv) (createdAt cv).

Definition with_completion (url : string) (at_ : Z) (cv : ChunkedVideo) :=
  mkChunkedVideo (videoId cv) (originalFilename cv) (totalSize cv) (totalChunks cv)
    (chunkSize cv) (mimetype cv) (bucket cv) (folder cv) (uploadedChunks cv)
    true (maxConcurrentChunks cv) (chunkTimeout cv) (uploadProgress cv) (isComplete cv)
    (Some url) (Some at_) (createdAt cv).

Definition lengthZ {A} (l : list A) : Z := Z.of_nat (length l).

(** Modelled from the spec: the method [calculateProgress] of the
    ChunkedVideo model, whose file is not among the sources. The data
    model gives [progressPercent == uploadedChunks.size/totalChunks*100]
    (a division by [0] gives [0] here). *)
Definition calculateProgress (cv : ChunkedVideo) : ChunkedVideo :=
  with_progress
    ((inject_Z (lengthZ (uploadedChunks cv)) / inject_Z (totalChunks cv)) * 100)%Q cv.

(** Modelled from the spec: the method [checkCompletion] of the
    ChunkedVideo model, whose file is not among the sources. The data
    model gives [isComplete <=> uploadedChunks.size == totalChunks]; the
    method sets the field and returns it. *)
Definition checkCompletion (cv : ChunkedVideo) : ChunkedVideo * bool :=
  let b := lengthZ (uploadedChunks cv) =? totalChunks cv in
  (with_isComplete b cv, b).

(** ** The manifest and the results returned to callers *)

Record ChunkUrl := mkChunkUrl {
  cu_index : Z;
  cu_url : string;
  cu_size : Z;
  cu_uploadAttempts : Z
}.

Record Manifest := mkManifest {
  mf_videoId : string;
  mf_originalFilename : string;
  mf_totalSize : Z;
  mf_totalSizeMB : Q;
  mf_totalChunks : Z;
  mf_chunkSize : Z;
  mf_chunkSizeMB : Q;
  mf_mimetype : string;
  mf_chunks : list ChunkUrl;
  mf_createdAt : option Z;
  mf_completedAt : Z;
  mf_awsOptimized : bool;
  mf_maxConcurrentChunks : Z;
  mf_totalUploadAttempts : Z;
  mf_averageUploadAttempts : Q
}.

Record InitResult := mkInitResult {
  ir_videoId : string;
  ir_totalChunks : Z;
  ir_chunkSize : Z;
  ir_maxConcurrentChunks : Z
}.

Inductive ChunkResult :=
| AlreadyUploaded (chunkIndex : Z) (chunkPath : string)
| Uploaded (chunkIndex : Z) (chunkPath : string) (progress : Q)
           (isComplete : bool) (uploadAttempts : Z).

Record UploadStats := mkUploadStats {
  us_totalAttempts : Z;
  us_averageAttempts : Q;
  us_maxConcurrentChunks : Z
}.

Record CompletedInfo := mkCompletedInfo {
  ci_videoId : string;
  ci_secure_url : string;
  ci_public_id : string;
  ci_format : string;
  ci_bucket : string;
  ci_path : string;
  ci_size : Z;
  ci_original_filename : string;
  ci_chunks : list ChunkUrl;
  ci_manifestUrl : string;
  ci_uploadStats : UploadStats;
  ci_duration : option Q
}.

Inductive CompleteResult :=
| AlreadyCompleted (videoId secure_url : string) (chunks : list ChunkRecord)
| Completed (info : CompletedInfo).

(** ** The world and the oracle *)

Inductive Payload :=
| Bytes (b : list Byte.byte)
| ManifestJson (m : Manifest).

(** What the module asks of the outside, in the order it is asked. *)
Inductive Event :=
| EvUpload (bucket path : string) (body : Payload) (contentType : string)
           (upsert : bool) (timeoutMs : Z)
| EvRemove (bucket : string) (paths : list string) (timeoutMs : Z)
| EvSleep (ms : Q).

(** The value a storage request settles to, raced against its timer:
    the [{data, error}] object of the client, a rejection, or the timer
    winning the race. *)
Inductive StorageReply :=
| Resolved (data : option string) (error : option string)
| Rejected (message : string)
| TimedOut.

Record Oracle := {
  clock : nat -> Z;
  random : nat -> Q;
  randomBytesHex : nat -> string;
  db_fault : nat -> option string;
  upload_reply : nat -> StorageReply;
  remove_reply : nat -> StorageReply;
  metadata_duration : nat -> option Q
}.

(** The collection, the requests made so far, and how many times each
    kind of outside call has been made (the position in the oracle). *)
Record World := mkWorld {
  db : gmap string ChunkedVideo;
  events : list Event;
  clockReads : nat;
  randomDraws : nat;
  idDraws : nat;
  dbCalls : nat;
  uploadCalls : nat;
  removeCalls : nat;
  metadataCalls : nat
}.

Definition emit (e : Event) (w : World) : World :=
  mkWorld (db w) (events w ++ [e]) (clockReads w) (randomDraws w) (idDraws w)
    (dbCalls w) (uploadCalls w) (removeCalls w) (metadataCalls w).
Definition set_db (d : gmap string ChunkedVideo) (w : World) : World :=
  mkWorld d (events w) (clockReads w) (randomDraws w) (idDraws w)
    (dbCalls w) (uploadCalls w) (removeCalls w) (metadataCalls w).
Definition nextClock (w : World) : World :=
  mkWorld (db w) (events w) (S (clockReads w)) (randomDraws w) (idDraws w)
    (dbCalls w) (uploadCalls w) (removeCalls w) (metadataCalls w).
Definition nextRandom (w : World) : World :=
  mkWorld (db w) (events w) (clockReads w) (S (randomDraws w)) (idDraws w)
    (dbCalls w) (uploadCalls w) (removeCalls w) (metadataCalls w).
Definition nextId (w : World) : World :=
  mkWorld (db w) (events w) (clockReads w) (randomDraws w) (S (idDraws w))
    (dbCalls w) (uploadCalls w) (removeCalls w) (metadataCalls w).
Definition nextDb (w : World) : World :=
  mkWorld (db w) (events w) (clockReads w) (randomDraws w) (idDraws w)
    (S (dbCalls w)) (uploadCalls w) (removeCalls w) (metadataCalls w).
Definition nextUpload (w : World) : World :=
  mkWorld (db w) (events w) (clockReads w) (randomDraws w) (idDraws w)
    (dbCalls w) (S (uploadCalls w)) (removeCalls w) (metadataCalls w).
Definition nextRemove (w : World) : World :=
  mkWorld (db w) (events w) (clockReads w) (randomDraws w) (idDraws w)
    (dbCalls w) (uploadCalls w) (S (removeCalls w)) (metadataCalls w).
Definition nextMetadata (w : World) : World :=
  mkWorld (db w) (events w) (clockReads w) (randomDraws w) (idDraws w)
    (dbCalls w) (uploadCalls w) (removeCalls w) (S (metadataCalls w)).

Inductive Outcome (A : Type) :=
| Ok (a : A)
| Throw (m : Message)
| OutOfFuel.
Arguments Ok {A} a.
Arguments Throw {A} m.
Arguments OutOfFuel {A}.

Definition M (A : Type) : Type := World -> Outcome A * World.

Definition ret {A} (a : A) : M A := fun w => (Ok a, w).
Definition throw {A} (m : Message) : M A := fun w => (Throw m, w).
Definition outOfFuel {A} : M A := fun w => (OutOfFuel, w).

Definition bind {A B} (c : M A) (k : A -> M B) : M B :=
  fun w =>
    match c w with
    | (Ok a, w') => k a w'
    | (Throw m, w') => (Throw m, w')
    | (OutOfFuel, w') => (OutOfFuel, w')
    end.

(** [try { body } catch (e) { handler(e.message) }] *)
Definition tryCatch {A} (body : M A) (handler : Message -> M A) : M A :=
  fun w =>
    match body w with
    | (Throw m, w') => handler m w'
    | r => r
    end.

Notation "'do' x <- c ; k" := (bind c (fun x => k))
  (at level 10, x pattern, c at level 100, k at level 200).
Notation "'run' c ; k" := (bind c (fun _ => k))
  (at level 10, c at level 100, k at level 200).

(** ** Computations that run side by side

    An asynchronous function runs until it awaits a call to the
    outside, and goes on when the call is answered. A function that
    has been started is kept as a [Thread]: it has settled, with a
    value or a thrown error, or it awaits a call, and [resume]
    completes that call in the world of that instant and runs the
    function up to its next [await]. What lies between two awaits
    runs without interruption. A call to the outside takes effect at
    the instant it is answered, and the requests are listed in the
    order of these instants. *)
Inductive Thread (A : Type) : Type :=
| Settled (o : Outcome A)
| Awaiting (resume : World -> Thread A * World).
Arguments Settled {A} o.
Arguments Awaiting {A} resume.

(** Code that runs from a world to its next await. *)
Definition Segment (A : Type) : Type := World -> Thread A * World.

Definition settle {A} (o : Outcome A) : Segment A := fun w => (Settled o, w).

(** [await c]: the call [c] is awaited, and [k] goes on with what it
    gave (a value, or a throw for the enclosing [try]). *)
Definition awaiting {X A} (c : M X) (k : Outcome X -> Segment A) : Thread A :=
  Awaiting (fun w => let (o, w') := c w in k o w').
Definition await {X A} (c : M X) (k : Outcome X -> Segment A) : Segment A :=
  fun w => (awaiting c k, w).

(** Code without await, then [k]; a throw settles the thread. *)
Definition sync {X A} (c : M X) (k : X -> Segment A) : Segment A :=
  fun w =>
    match c w with
    | (Ok x, w') => k x w'
    | (Throw m, w') => (Settled (Throw m), w')
    | (OutOfFuel, w') => (Settled OutOfFuel, w')
    end.

(** What a thread settles to when nothing else runs in between. *)
Fixpoint finish {A} (t : Thread A) (w : World) : Outcome A * World :=
  match t with
  | Settled o => (o, w)
  | Awaiting resume => let (t', w') := resume w in finish t' w'
  end.

(** An enclosing [try { ... } catch] whose handler awaits nothing: it
    acts on what the thread settles to. *)
Fixpoint mapSettled {A B} (f : Outcome A -> Outcome B) (t : Thread A) : Thread B :=
  match t with
  | Settled o => Settled (f o)
  | Awaiting resume =>
    Awaiting (fun w => let (t', w') := resume w in (mapSettled f t', w'))
  end.

(** The values of the members when all have settled with one. *)
Fixpoint settledValues {A} (pool : list (Thread A)) : option (list A) :=
  match pool with
  | [] => Some []
  | Settled (Ok a) :: rest =>
    match settledValues rest with
    | Some l => Some (a :: l)
    | None => None
    end
  | _ :: _ => None
  end.

(** What awaiting several threads gives: the outcome, the threads as
    they are at that instant (those still awaiting go on running), the
    world, and what is left of the schedule. *)
Record Joined (A B : Type) := mkJoined {
  joined : Outcome B;
  members : list (Thread A);
  world_then : World;
  schedule_left : list nat
}.
Arguments mkJoined {A B} joined members world_then schedule_left.
Arguments joined {A B} j.
Arguments members {A B} j.
Arguments world_then {A B} j.
Arguments schedule_left {A B} j.

(** [await Promise.all(pool)]. The schedule names, instant after
    instant, the member whose awaited call is answered next (a number
    that names no awaiting member passes). The promise resolves with
    the values, in the order of the members, once all have settled,
    and rejects with the error of the first member that throws. The
    schedule running out stands for a wait without end. *)
Fixpoint promiseAll {A} (schedule : list nat) (pool : list (Thread A)) (w : World)
  : Joined A (list A) :=
  match settledValues pool with
  | Some values => mkJoined (Ok values) pool w schedule
  | None =>
    match schedule with
    | [] => mkJoined OutOfFuel pool w []
    | k :: schedule' =>
      match pool !! k with
      | Some (Awaiting resume) =>
        let (t', w') := resume w in
        let pool' := <[k := t']> pool in
        match t' with
        | Settled (Throw m) => mkJoined (Throw m) pool' w' schedule'
        | Settled OutOfFuel => mkJoined OutOfFuel pool' w' schedule'
        | _ => promiseAll schedule' pool' w'
        end
      | _ => promiseAll schedule' pool w
      end
    end
  end.

(** [await main] while the threads of [pool] go on: a number of the
    schedule that names an awaiting member of the pool resumes it, any
    other number resumes [main]. *)
Fixpoint alongside {A B} (schedule : list nat) (main : Thread B) (pool : list (Thread A))
    (w : World) : Joined A B :=
  match main with
  | Settled o => mkJoined o pool w schedule
  | Awaiting resume =>
    match schedule with
    | [] => mkJoined OutOfFuel pool w []
    | k :: schedule' =>
      match pool !! k with
      | Some (Awaiting member) =>
        let (t', w') := member w in
        alongside schedule' main (<[k := t']> pool) w'
      | _ =>
        let (main', w') := resume w in
        alongside schedule' main' pool w'
      end
    end
  end.

(** ** The upload module *)

Section Upload.

(** The process environment, the oracle, and the two library functions
    the module calls: [path.extname] and the storage client's
    [getPublicUrl(bucket, path)]. *)
Variable pe : ProcessEnv.
Variable E : Oracle.
Variable extname : string -> string.
Variable getPublicUrl : string -> string -> string.

(** *** Calls to the outside *)

(** [Date.now()], [new Date()] *)
Definition Date_now : M Z := fun w => (Ok (clock E (clockReads w)), nextClock w).

(** [Math.random()] *)
Definition Math_random : M Q := fun w => (Ok (random E (randomDraws w)), nextRandom w).

(** [crypto.randomBytes(16).toString('hex')] *)
Definition generateVideoId : M string :=
  fun w => (Ok (randomBytesHex E (idDraws w)), nextId w).

(** [ChunkedVideo.findOne({ videoId })] *)
Definition findOne (id : string) : M (option ChunkedVideo) :=
  fun w =>
    match db_fault E (dbCalls w) with
    | Some msg => (Throw [PStr msg], nextDb w)
    | None => (Ok (db w !! id), nextDb w)
    end.

(** [chunkedVideo.save()] *)
Definition save (cv : ChunkedVideo) : M unit :=
  fun w =>
    match db_fault E (dbCalls w) with
    | Some msg => (Throw [PStr msg], nextDb w)
    | None => (Ok tt, nextDb (set_db (<[videoId cv := cv]> (db w)) w))
    end.

(** [ChunkedVideo.deleteOne({ videoId })] *)
Definition deleteOne (id : string) : M unit :=
  fun w =>
    match db_fault E (dbCalls w) with
    | Some msg => (Throw [PStr msg], nextDb w)
    | None => (Ok tt, nextDb (set_db (delete id (db w)) w))
    end.

(** [await Promise.race([storage.from(bucket).upload(path, body, opts),
    timeoutPromise])]: the awaited [{data, error}], or a throw. *)
Definition storageUpload (bkt path : string) (body : Payload) (contentType : string)
    (upsert : bool) (timeoutMs : Z) (timeoutMessage : string)
  : M (option string * option string) :=
  fun w =>
    let w' := nextUpload (emit (EvUpload bkt path body contentType upsert timeoutMs) w) in
    match upload_reply E (uploadCalls w) with
    | Resolved data error => (Ok (data, error), w')
    | Rejected msg => (Throw [PStr msg], w')
    | TimedOut => (Throw [PStr timeoutMessage], w')
    end.

(** [await Promise.race([storage.from(bucket).remove(paths), timeoutPromise])] *)
Definition storageRemove (bkt : string) (paths : list string) (timeoutMs : Z)
    (timeoutMessage : string) : M (option string * option string) :=
  fun w =>
    let w' := nextRemove (emit (EvRemove bkt paths timeoutMs) w) in
    match remove_reply E (removeCalls w) with
    | Resolved data error => (Ok (data, error), w')
    | Rejected msg => (Throw [PStr msg], w')
    | TimedOut => (Throw [PStr timeoutMessage], w')
    end.

(** [await new Promise(resolve => setTimeout(resolve, ms))] *)
Definition sleep (ms : Q) : M unit := fun w => (Ok tt, emit (EvSleep ms) w).

(** [extractVideoMetadata(...)] of [./videoMetadata]: an outside
    service that gives a duration or throws. *)
Definition extractVideoMetadata : M Q :=
  fun w =>
    match metadata_duration E (metadataCalls w) with
    | Some d => (Ok d, nextMetadata w)
    | None => (Throw [PStr "metadata extraction failed"], nextMetadata w)
    end.

(** *** initializeChunkedUpload *)

Record File := mkFile {
  buffer : option (list Byte.byte);   (* [None]: absent, or not a Buffer *)
  file_mimetype : string;
  originalname : string;
  size : Z
}.

Definition isVideoByMimetype (file : File) : bool :=
  Js.startsWith "video/" (file_mimetype file).
Definition isVideoByExtension (file : File) : bool :=
  Js.truthy (originalname file) && hasVideoExtension (originalname file).
Definition isMkvFile (file : File) : bool :=
  Js.truthy (originalname file) && hasMkvExtension (originalname file).
Definition isOctetStreamMkv (file : File) : bool :=
  String.eqb (file_mimetype file) "application/octet-stream" && isMkvFile file.
Definition isVideo (file : File) : bool :=
  isVideoByMimetype file || isVideoByExtension file || isOctetStreamMkv file.

(** Modelled from the spec: the defaults of a new ChunkedVideo document
    (the schema is not among the sources): no chunk, progress [0], not
    complete, no manifest URL, no completion date. *)
Definition newChunkedVideo (vid name : string) (tsize tchunks csize : Z)
    (mime bkt fld : string) (maxc tmo : Z) : ChunkedVideo :=
  mkChunkedVideo vid name tsize tchunks csize mime bkt fld [] true maxc tmo
    0%Q false None None None.

Definition initializeChunkedUpload (file : File) (fld : string) : M InitResult :=
  tryCatch
    (match buffer file with
     | None => throw [PStr "Invalid file buffer"]
     | Some _ =>
       if negb (isVideo file) then throw [PStr "File must be a video"]
       else
         do vid <- generateVideoId;
         let tsize := size file in
         let tchunks := Js.ceilDiv tsize (CHUNK_SIZE pe) in
         let bkt := getBucketForFileType (file_mimetype file) fld "" in
         let chunkedVideo :=
           newChunkedVideo vid (originalname file) tsize tchunks (CHUNK_SIZE pe)
             (file_mimetype file) bkt fld (MAX_CONCURRENT_CHUNKS pe) (CHUNK_TIMEOUT pe) in
         run save chunkedVideo;
         ret (mkInitResult vid tchunks (CHUNK_SIZE pe) (MAX_CONCURRENT_CHUNKS pe))
     end)
    (fun error =>
       throw (PStr "Failed to initialize AWS-optimized chunked upload: " :: error)).

(** *** uploadChunk *)

Definition chunkFilenameOf (cv : ChunkedVideo) (vid : string) (timestamp idx : Z) : string :=
  folder cv +:+ "/chunks/" +:+ vid +:+ "/" +:+ Js.toString timestamp +:+ "_chunk_"
    +:+ Js.padStart0 4 (Js.toString idx) +:+ extname (originalFilename cv).

Definition MB (n : Z) : Q := (inject_Z n / 1024 / 1024)%Q.

(** One pass through the [try] block of the retry loop: the transfer
    raced against the chunk timer, and the checks on its reply. *)
Definition attemptUpload (cv : ChunkedVideo) (chunkFilename : string)
    (chunkBuffer : list Byte.byte) : M string :=
  do reply <- storageUpload (bucket cv) chunkFilename (Bytes chunkBuffer)
                "application/octet-stream" false (CHUNK_TIMEOUT pe)
                "AWS chunk upload timeout";
  match reply with
  | (_, Some msg) =>
    if Js.includes "network" msg || Js.includes "timeout" msg
       || Js.includes "ECONNRESET" msg
    then throw [PStr "AWS network error: "; PStr msg]
    else if Js.includes "413" msg || Js.includes "too large" msg
    then throw [PStr "Chunk too large for AWS: "; PStr msg]
    else throw [PStr "AWS Supabase upload error: "; PStr msg]
  | (data, None) =>
    match data with
    | Some p =>
      if Js.truthy p then ret p
      else throw [PStr "Invalid response from Supabase storage - no path returned"]
    | None => throw [PStr "Invalid response from Supabase storage - no path returned"]
    end
  end.

(** The waiting time before the next attempt, after failed attempt
    number [attempts], with [rnd] the value of [Math.random()]. *)
Definition retryWaitTime (attempts : Z) (rnd : Q) : Q :=
  let baseDelay := inject_Z (RETRY_DELAY_BASE * 2 ^ (attempts - 1)) in
  let jitter := (rnd * 2000)%Q in
  Qmin (baseDelay + jitter) 30000.

(** The state of the retry loop: [uploadAttempts], [uploadSuccess],
    [chunkPath]. *)
Definition RetryState : Type := Z * bool * string.

(** [while (uploadAttempts < MAX_RETRIES && !uploadSuccess) { ... }] *)
Fixpoint retryLoop (fuel : nat) (cv : ChunkedVideo) (idx : Z)
    (chunkFilename : string) (chunkBuffer : list Byte.byte) (st : RetryState)
  : M RetryState :=
  let '(attempts, success, path) := st in
  match fuel with
  | O => outOfFuel
  | S fuel' =>
    if (attempts <? MAX_RETRIES) && negb success then
      let attempts := attempts + 1 in
      do st' <-
        tryCatch
          (do p <- attemptUpload cv chunkFilename chunkBuffer;
           ret (attempts, true, p))
          (fun uploadError =>
             if attempts <? MAX_RETRIES then
               do rnd <- Math_random;
               run sleep (retryWaitTime attempts rnd);
               ret (attempts, success, path)
             else
               do timestamp <- Date_now;
               throw [PStr "AWS failed to upload chunk "; PNum idx; PStr " after ";
                      PNum MAX_RETRIES; PStr " attempts. Details: ";
                      PDetails idx attempts uploadError (lengthZ chunkBuffer)
                        (MB (lengthZ chunkBuffer)) (bucket cv) true timestamp]);
      retryLoop fuel' cv idx chunkFilename chunkBuffer st'
    else ret st
  end.

Definition uploadChunk (vid : string) (idx : Z) (chunkBuffer : list Byte.byte)
  : M ChunkResult :=
  tryCatch
    (do found <- findOne vid;
     match found with
     | None => throw [PStr "Chunked video record not found"]
     | Some chunkedVideo =>
       match find (fun chunk => chunkIndex chunk =? idx) (uploadedChunks chunkedVideo) with
       | Some existingChunk => ret (AlreadyUploaded idx (chunkPath existingChunk))
       | None =>
         do timestamp <- Date_now;
         let chunkFilename := chunkFilenameOf chunkedVideo vid timestamp idx in
         do st <- retryLoop (S (Z.to_nat MAX_RETRIES)) chunkedVideo idx chunkFilename
                    chunkBuffer (0, false, "");
         let '(attempts, _, path) := st in
         do now <- Date_now;
         let pushed :=
           with_uploadedChunks
             (uploadedChunks chunkedVideo ++
                [mkChunkRecord idx path (lengthZ chunkBuffer) now attempts true])
             chunkedVideo in
         let '(checked, complete) := checkCompletion (calculateProgress pushed) in
         run save checked;
         ret (Uploaded idx path (uploadProgress checked) complete attempts)
       end
     end)
    (fun error =>
       throw ([PStr "AWS failed to upload chunk "; PNum idx; PStr ": "] ++ error)).

(** *** completeChunkedUpload *)

(** [chunks.sort((a, b) => a.chunkIndex - b.chunkIndex)]: the sort of
    the language is stable. *)
Fixpoint insertByIndex (c : ChunkRecord) (l : list ChunkRecord) : list ChunkRecord :=
  match l with
  | [] => [c]
  | d :: r => if chunkIndex c <? chunkIndex d then c :: d :: r
              else d :: insertByIndex c r
  end.

Definition sortByIndex (l : list ChunkRecord) : list ChunkRecord :=
  fold_left (fun acc c => insertByIndex c acc) l [].

Definition sumAttempts (l : list ChunkRecord) : Z :=
  fold_left (fun sum chunk => sum + Js.orZ (uploadAttempts chunk) 1) l 0.

Definition manifestFilenameOf (cv : ChunkedVideo) (vid : string) : string :=
  folder cv +:+ "/manifests/aws_" +:+ vid +:+ "_manifest.json".

Definition chunkUrlOf (cv : ChunkedVideo) (chunk : ChunkRecord) : ChunkUrl :=
  mkChunkUrl (chunkIndex chunk) (getPublicUrl (bucket cv) (chunkPath chunk))
    (rec_chunkSize chunk) (Js.orZ (uploadAttempts chunk) 1).

(** [if (chunkedVideo.finalVideoUrl)]: set, and not the empty string. *)
Definition finalVideoUrlSet (cv : ChunkedVideo) : option string :=
  match finalVideoUrl cv with
  | Some url => if Js.truthy url then Some url else None
  | None => None
  end.

Definition buildManifest (cv : ChunkedVideo) (vid : string)
    (sortedChunks : list ChunkRecord) (chunkUrls : list ChunkUrl) (now : Z) : Manifest :=
  mkManifest vid (originalFilename cv) (totalSize cv) (MB (totalSize cv))
    (totalChunks cv) (chunkSize cv) (MB (chunkSize cv)) (mimetype cv) chunkUrls
    (createdAt cv) now true
    (Js.orZ (maxConcurrentChunks cv) (MAX_CONCURRENT_CHUNKS pe))
    (sumAttempts sortedChunks)
    (inject_Z (sumAttempts sortedChunks) / inject_Z (lengthZ sortedChunks))%Q.

Definition completeChunkedUpload (vid : string) : M CompleteResult :=
  tryCatch
    (do found <- findOne vid;
     match found with
     | None => throw [PStr "Chunked video record not found"]
     | Some chunkedVideo =>
       if negb (isComplete chunkedVideo) then
         throw [PStr "Not all chunks have been uploaded. Progress: ";
                PFixed 2 (uploadProgress chunkedVideo); PStr "% (";
                PNum (lengthZ (uploadedChunks chunkedVideo)); PStr "/";
                PNum (totalChunks chunkedVideo); PStr ")"]
       else
         match finalVideoUrlSet chunkedVideo with
         | Some url =>
           ret (AlreadyCompleted vid url (sortByIndex (uploadedChunks chunkedVideo)))
         | None =>
           (* the array is sorted in place: the document now holds it sorted *)
           let sortedChunks := sortByIndex (uploadedChunks chunkedVideo) in
           let chunkedVideo := with_uploadedChunks sortedChunks chunkedVideo in
           let chunkUrls := map (chunkUrlOf chunkedVideo) sortedChunks in
           do now <- Date_now;
           let manifestData := buildManifest chunkedVideo vid sortedChunks chunkUrls now in
           let manifestFilename := manifestFilenameOf chunkedVideo vid in
           run tryCatch
                 (do reply <- storageUpload (bucket chunkedVideo) manifestFilename
                                (ManifestJson manifestData) "application/json" true 30000
                                "Manifest upload timeout";
                  ret tt)
                 (fun manifestUploadError => ret tt);
           let manifestUrl := getPublicUrl (bucket chunkedVideo) manifestFilename in
           do completed <- Date_now;
           run save (with_completion manifestUrl completed chunkedVideo);
           ret (Completed
                  (mkCompletedInfo vid manifestUrl manifestFilename
                     (substring 1 (String.length (extname (originalFilename chunkedVideo)) - 1)
                        (extname (originalFilename chunkedVideo)))
                     (bucket chunkedVideo) manifestFilename (totalSize chunkedVideo)
                     (originalFilename chunkedVideo) chunkUrls manifestUrl
                     (mkUploadStats (mf_totalUploadAttempts manifestData)
                        (mf_averageUploadAttempts manifestData)
                        (mf_maxConcurrentChunks manifestData))
                     None))
         end
     end)
    (fun error =>
       throw (PStr "AWS failed to complete chunked upload: " :: error)).

(** *** cleanupChunks *)

Definition cleanupChunks (vid : string) (force : bool) : M unit :=
  tryCatch
    (do found <- findOne vid;
     match found with
     | None => ret tt
     | Some chunkedVideo =>
       if negb force && isComplete chunkedVideo then ret tt
       else
         let chunkPaths := map chunkPath (uploadedChunks chunkedVideo) in
         run (if lengthZ chunkPaths >? 0 then
                tryCatch
                  (do reply <- storageRemove (bucket chunkedVideo) chunkPaths 60000
                                 "AWS cleanup timeout";
                   ret tt)
                  (fun deleteError => ret tt)
              else ret tt);
         if force then deleteOne vid else ret tt
     end)
    (fun error => ret tt).

(** *** getUploadProgress *)

Record ProgressReport := mkProgressReport {
  pr_videoId : string;
  pr_progress : Q;
  pr_uploadedChunks : Z;
  pr_totalChunks : Z;
  pr_isComplete : bool;
  pr_finalVideoUrl : option string;
  pr_awsOptimized : bool;
  pr_totalAttempts : Z;
  pr_averageAttempts : Q
}.

Definition getUploadProgress (vid : string) : M ProgressReport :=
  tryCatch
    (do found <- findOne vid;
     match found with
     | None => throw [PStr "Chunked video record not found"]
     | Some cv =>
       ret (mkProgressReport vid (uploadProgress cv) (lengthZ (uploadedChunks cv))
              (totalChunks cv) (isComplete cv) (finalVideoUrl cv) (awsOptimized cv)
              (sumAttempts (uploadedChunks cv))
              (if lengthZ (uploadedChunks cv) >? 0
               then (inject_Z (sumAttempts (uploadedChunks cv))
                     / inject_Z (lengthZ (uploadedChunks cv)))%Q
               else 0%Q))
     end)
    (fun error => throw (PStr "AWS failed to get upload progress: " :: error)).

(** *** uploadVideoInChunks *)

(** The bytes of chunk [i]: [fileBuffer.slice(start, end)] with
    [start = i * CHUNK_SIZE] and
    [end = Math.min(start + CHUNK_SIZE, fileBuffer.length)]. *)
Definition chunkStart (i : Z) : Z := i * CHUNK_SIZE pe.
Definition chunkEnd (fileBuffer : list Byte.byte) (i : Z) : Z :=
  Z.min (chunkStart i + CHUNK_SIZE pe) (lengthZ fileBuffer).
Definition chunkBufferOf (fileBuffer : list Byte.byte) (i : Z) : list Byte.byte :=
  Js.slice (chunkStart i) (chunkEnd fileBuffer i) fileBuffer.

(** The retry loop of [uploadChunk], from its head: the transfer of an
    attempt and the wait before the next one are awaited; [after] is
    the code behind the loop. *)
Fixpoint retrySegment (fuel : nat) (cv : ChunkedVideo) (idx : Z)
    (chunkFilename : string) (chunkBuffer : list Byte.byte) (st : RetryState)
    (after : RetryState -> Segment ChunkResult) : Segment ChunkResult :=
  let '(attempts, success, path) := st in
  match fuel with
  | O => settle OutOfFuel
  | S fuel' =>
    if (attempts <? MAX_RETRIES) && negb success then
      let attempts := attempts + 1 in
      await (attemptUpload cv chunkFilename chunkBuffer)
        (fun attempt =>
           match attempt with
           | Ok p =>
             retrySegment fuel' cv idx chunkFilename chunkBuffer (attempts, true, p) after
           | Throw uploadError =>
             if attempts <? MAX_RETRIES then
               sync Math_random (fun rnd =>
               await (sleep (retryWaitTime attempts rnd)) (fun _ =>
               retrySegment fuel' cv idx chunkFilename chunkBuffer
                 (attempts, success, path) after))
             else
               sync Date_now (fun timestamp =>
               settle (Throw [PStr "AWS failed to upload chunk "; PNum idx;
                              PStr " after "; PNum MAX_RETRIES;
                              PStr " attempts. Details: ";
                              PDetails idx attempts uploadError (lengthZ chunkBuffer)
                                (MB (lengthZ chunkBuffer)) (bucket cv) true timestamp]))
           | OutOfFuel => settle OutOfFuel
           end)
    else after st
  end.

(** [uploadChunk(videoId, chunkIndex, chunkBuffer)], started: it awaits
    the lookup of the session, each transfer, each wait, and the save. *)
Definition uploadChunkT (vid : string) (idx : Z) (chunkBuffer : list Byte.byte)
  : Thread ChunkResult :=
  mapSettled
    (fun o =>
       match o with
       | Throw error =>
         Throw ([PStr "AWS failed to upload chunk "; PNum idx; PStr ": "] ++ error)
       | _ => o
       end)
    (awaiting (findOne vid)
       (fun found =>
          match found with
          | Ok None => settle (Throw [PStr "Chunked video record not found"])
          | Ok (Some chunkedVideo) =>
            match find (fun chunk => chunkIndex chunk =? idx)
                    (uploadedChunks chunkedVideo) with
            | Some existingChunk =>
              settle (Ok (AlreadyUploaded idx (chunkPath existingChunk)))
            | None =>
              sync Date_now (fun timestamp =>
              let chunkFilename := chunkFilenameOf chunkedVideo vid timestamp idx in
              retrySegment (S (Z.to_nat MAX_RETRIES)) chunkedVideo idx chunkFilename
                chunkBuffer (0, false, "")
                (fun st =>
                   let '(attempts, _, path) := st in
                   sync Date_now (fun now =>
                   let pushed :=
                     with_uploadedChunks
                       (uploadedChunks chunkedVideo ++
                          [mkChunkRecord idx path (lengthZ chunkBuffer) now attempts true])
                       chunkedVideo in
                   let '(checked, complete) :=
                     checkCompletion (calculateProgress pushed) in
                   await (save checked)
                     (fun saved =>
                        match saved with
                        | Ok _ =>
                          settle (Ok (Uploaded idx path (uploadProgress checked)
                                        complete attempts))
                        | Throw m => settle (Throw m)
                        | OutOfFuel => settle OutOfFuel
                        end))))
            end
          | Throw m => settle (Throw m)
          | OutOfFuel => settle OutOfFuel
          end)).

(** [cleanupChunks(videoId, force)], started: it awaits the lookup, the
    batched delete and the removal of the record. *)
Definition cleanupChunksT (vid : string) (force : bool) : Thread unit :=
  mapSettled
    (fun o => match o with Throw error => Ok tt | _ => o end)
    (awaiting (findOne vid)
       (fun found =>
          match found with
          | Ok None => settle (Ok tt)
          | Ok (Some chunkedVideo) =>
            if negb force && isComplete chunkedVideo then settle (Ok tt)
            else
              let chunkPaths := map chunkPath (uploadedChunks chunkedVideo) in
              let removeRecord : Segment unit :=
                if force then await (deleteOne vid) settle else settle (Ok tt) in
              if lengthZ chunkPaths >? 0 then
                await (storageRemove (bucket chunkedVideo) chunkPaths 60000
                         "AWS cleanup timeout")
                  (fun deleted => removeRecord)
              else removeRecord
          | Throw m => settle (Throw m)
          | OutOfFuel => settle OutOfFuel
          end)).

(** The members of a batch: the uploads of the chunks [i, i+1, ...],
    [n] of them, each started with its slice of the buffer. *)
Definition batchMembers (n : nat) (vid : string) (fileBuffer : list Byte.byte) (i : Z)
  : list (Thread ChunkResult) :=
  map (fun k => uploadChunkT vid (i + Z.of_nat k)
                  (chunkBufferOf fileBuffer (i + Z.of_nat k)))
    (seq 0 n).

Definition batchError (batchStart : Z) (cause : Message) : Message :=
  [PStr "AWS failed to upload batch starting at chunk "; PNum (batchStart + 1);
   PStr ": "] ++ cause.

(** [for (let batchStart = 0; batchStart < totalChunks;
         batchStart += maxConcurrentChunks) { ... }]: the members of a
    batch are started together and awaited with [Promise.all]; when
    the batch fails, the forced cleanup is awaited while the members
    that have not settled go on, and the batch error is thrown. The
    result keeps the members as they are at that instant. *)
Fixpoint batchLoop (fuel : nat) (schedule : list nat) (vid : string)
    (fileBuffer : list Byte.byte) (tchunks maxc : Z) (batchStart : Z)
    (chunkResults : list ChunkResult) (w : World)
  : Joined ChunkResult (list ChunkResult) :=
  match fuel with
  | O => mkJoined OutOfFuel [] w schedule
  | S fuel' =>
    if batchStart <? tchunks then
      let batchEnd := Z.min (batchStart + maxc) tchunks in
      let batch :=
        promiseAll schedule
          (batchMembers (Z.to_nat (batchEnd - batchStart)) vid fileBuffer batchStart) w in
      match joined batch with
      | Ok batchResults =>
        batchLoop fuel' (schedule_left batch) vid fileBuffer tchunks maxc
          (batchStart + maxc) (chunkResults ++ batchResults)
          (if batchEnd <? tchunks then snd (sleep 1000 (world_then batch))
           else world_then batch)
      | Throw batchErr =>
        let cleanup :=
          alongside (schedule_left batch) (cleanupChunksT vid true) (members batch)
            (world_then batch) in
        match joined cleanup with
        | OutOfFuel =>
          mkJoined OutOfFuel (members cleanup) (world_then cleanup)
            (schedule_left cleanup)
        | _ =>
          mkJoined (Throw (batchError batchStart batchErr)) (members cleanup)
            (world_then cleanup) (schedule_left cleanup)
        end
      | OutOfFuel =>
        mkJoined OutOfFuel (members batch) (world_then batch) (schedule_left batch)
      end
    else mkJoined (Ok chunkResults) [] w schedule
  end.

Definition bufferOf (file : File) : list Byte.byte :=
  match buffer file with Some b => b | None => [] end.

(** [uploadVideoInChunks(file, folder)] under a schedule of the batch
    members. The members of a failed batch that have not settled when
    the function throws go on afterwards; they are the [members] of the
    batch loop and are not followed further here. *)
Definition uploadVideoInChunks (schedule : list nat) (fuel : nat) (file : File)
    (fld : string) : M CompleteResult :=
  tryCatch
    (do initResult <- initializeChunkedUpload file fld;
     let vid := ir_videoId initResult in
     let tchunks := ir_totalChunks initResult in
     let maxc := ir_maxConcurrentChunks initResult in
     let fileBuffer := bufferOf file in
     do chunkResults <-
       (fun w =>
          let batches := batchLoop fuel schedule vid fileBuffer tchunks maxc 0 [] w in
          (joined batches, world_then batches));
     do found <- findOne vid;
     match found with
     | None => throw [PStr "AWS chunked video record not found after upload"]
     | Some chunkedVideo =>
       if negb (lengthZ (uploadedChunks chunkedVideo) =? tchunks) then
         throw [PStr "AWS upload incomplete: ";
                PNum (lengthZ (uploadedChunks chunkedVideo)); PStr "/"; PNum tchunks;
                PStr " chunks uploaded"]
       else
         let '(checked, complete) := checkCompletion (calculateProgress chunkedVideo) in
         run save checked;
         if negb complete then
           throw [PStr "AWS upload verification failed: not all chunks are marked as uploaded"]
         else
           do videoDuration <- tryCatch extractVideoMetadata (fun durationError => ret 0%Q);
           do finalResult <- completeChunkedUpload vid;
           match finalResult with
           | Completed info =>
             ret (Completed
                    (mkCompletedInfo (ci_videoId info) (ci_secure_url info)
                       (ci_public_id info) (ci_format info) (ci_bucket info)
                       (ci_path info) (ci_size info) (ci_original_filename info)
                       (ci_chunks info) (ci_manifestUrl info) (ci_uploadStats info)
                       (Some videoDuration)))
           | AlreadyCompleted _ _ _ =>
             (* [finalResult.uploadStats.totalAttempts] on a result without
                [uploadStats] *)
             throw [PStr "Cannot read properties of undefined (reading 'totalAttempts')"]
           end
     end)
    (fun error => throw (PStr "AWS chunked video upload failed: " :: error)).

End Upload.

(** * The rest of the storage configuration ([supabaseStorage.aws.js]) *)

Module FILE_SIZE_LIMITS.
Definition IMAGE : Z := 10 * 1024 * 1024.
Definition VIDEO : Z := 2 * 1024 * 1024 * 1024.
Definition DOCUMENT : Z := 50 * 1024 * 1024.
Definition PROFILE : Z := 5 * 1024 * 1024.
End FILE_SIZE_LIMITS.

(** [CHUNKED_UPLOAD_CONFIG.CHUNK_THRESHOLD] *)
Definition CHUNK_THRESHOLD : Z := 100 * 1024 * 1024.

(** [getAllowedMimeTypes(bucketName)] *)
Definition getAllowedMimeTypes (bucketName : string) : list string :=
  if String.eqb bucketName STORAGE_BUCKETS.IMAGES
     || String.eqb bucketName STORAGE_BUCKETS.PROFILES
     || String.eqb bucketName STORAGE_BUCKETS.COURSES
     || String.eqb bucketName STORAGE_BUCKETS.CHAT
  then ALLOWED_FILE_TYPES.IMAGES
  else if String.eqb bucketName STORAGE_BUCKETS.VIDEOS then ALLOWED_FILE_TYPES.VIDEOS
  else if String.eqb bucketName STORAGE_BUCKETS.DOCUMENTS then ALLOWED_FILE_TYPES.DOCUMENTS
  else ALLOWED_FILE_TYPES.IMAGES ++ ALLOWED_FILE_TYPES.VIDEOS ++ ALLOWED_FILE_TYPES.DOCUMENTS.

(** [getFileSizeLimit(bucketName)] *)
Definition getFileSizeLimit (bucketName : string) : Z :=
  if String.eqb bucketName STORAGE_BUCKETS.VIDEOS then FILE_SIZE_LIMITS.VIDEO
  else if String.eqb bucketName STORAGE_BUCKETS.DOCUMENTS then FILE_SIZE_LIMITS.DOCUMENT
  else if String.eqb bucketName STORAGE_BUCKETS.PROFILES then FILE_SIZE_LIMITS.PROFILE
  else FILE_SIZE_LIMITS.IMAGE.

(** The object [validateFile] returns. The three flags computed from
    the file name are kept as the values the source gives them: for an
    empty name they can be the empty string. *)
Record ValidationResult := mkValidationResult {
  isValid : bool;
  errors : list Message;
  willUseChunkedUpload : Js.Flag;
  vr_isVideo : Js.Flag;
  detectedAsVideo : Js.Flag;
  vr_awsOptimized : bool
}.

(** [validateFile(file, bucket)] *)
Definition validateFile (file : File) (bkt : string) : ValidationResult :=
  let isVideoByMimetype := Js.startsWith "video/" (file_mimetype file) in
  let isVideoByExtension :=
    Js.nameAnd (originalname file) (hasVideoExtension (originalname file)) in
  let isVideo := Js.orF (Js.FBool isVideoByMimetype) isVideoByExtension in
  let isMkvFile := Js.nameAnd (originalname file) (hasMkvExtension (originalname file)) in
  let isOctetStreamMkv :=
    Js.andF (Js.FBool (String.eqb (file_mimetype file) "application/octet-stream"))
      isMkvFile in
  let sizeLimit := getFileSizeLimit bkt in
  let errors1 : list Message :=
    if negb (Js.truthyF isVideo) && (size file >? sizeLimit) then
      [[PStr "File size ("; PFixed 2 (MB (size file)); PStr "MB) exceeds limit (";
        PFixed 2 (MB sizeLimit); PStr "MB)"]]
    else if Js.truthyF isVideo && (size file >? sizeLimit) then
      [[PStr "Video file size ("; PFixed 2 (MB (size file));
        PStr "MB) exceeds maximum limit ("; PFixed 2 (MB sizeLimit); PStr "MB)"]]
    else [] in
  let allowedTypes := getAllowedMimeTypes bkt in
  let isTypeAllowed :=
    Js.orF (Js.FBool (inList (file_mimetype file) allowedTypes)) isOctetStreamMkv in
  let errors2 : list Message :=
    if negb (Js.truthyF isTypeAllowed) then
      if Js.truthyF isVideoByExtension && negb isVideoByMimetype then
        [[PStr "Video file type not properly detected. File extension suggests video but mimetype is ";
          PStr (file_mimetype file);
          PStr ". Please ensure the file is a valid video format."]]
      else
        [[PStr "File type "; PStr (file_mimetype file);
          PStr " is not allowed. Allowed types: ";
          PStr (String.concat ", " allowedTypes)]]
    else [] in
  let errors := errors1 ++ errors2 in
  mkValidationResult (lengthZ errors =? 0) errors
    (Js.andF isVideo (Js.FBool (size file >? CHUNK_THRESHOLD))) isVideo isVideo true.

(** [shouldUseChunkedUpload(file)]: the value of [shouldChunk]. *)
Definition shouldUseChunkedUpload (file : File) : Js.Flag :=
  let isVideoByMimetype := Js.startsWith "video/" (file_mimetype file) in
  let isVideoByExtension :=
    Js.nameAnd (originalname file) (hasVideoExtension (originalname file)) in
  let isMkvFile := Js.nameAnd (originalname file) (hasMkvExtension (originalname file)) in
  let isOctetStreamMkv :=
    Js.andF (Js.FBool (String.eqb (file_mimetype file) "application/octet-stream"))
      isMkvFile in
  let isVideo :=
    Js.orF (Js.orF (Js.FBool isVideoByMimetype) isVideoByExtension) isOctetStreamMkv in
  Js.andF isVideo (Js.FBool (size file >? CHUNK_THRESHOLD)).

(** The validation of a profile image in the controller, as the test
    script [test-profile-upload.js] runs it: [None] when the file
    passes, or the error code. *)
Definition profileImageValidation (profileImage : File) : option string :=
  let MAX_PROFILE_SIZE := 5 * 1024 * 1024 in
  let allowedTypes := ["image/jpeg"; "image/jpg"; "image/png"; "image/gif"; "image/webp"] in
  if size profileImage >? MAX_PROFILE_SIZE then Some "FILE_SIZE_EXCEEDED"
  else if negb (inList (file_mimetype profileImage) allowedTypes) then Some "INVALID_FILE_TYPE"
  else None.

(** ** Bucket initialisation ([initializeStorageBuckets]) *)

(** What the storage client answers to [listBuckets] and to
    [createBucket], raced against a timer: the awaited [{data, error}]
    (an error is kept by its message), a rejection, or the timer. *)
Inductive ServiceReply (A : Type) :=
| Answered (data : option A) (error : option string)
| Refused (msg : string)
| Late.
Arguments Answered {A} data error.
Arguments Refused {A} msg.
Arguments Late {A}.

(** A call of [createBucket(name, {public, allowedMimeTypes, fileSizeLimit})]. *)
Record CreateBucket := mkCreateBucket {
  cb_name : string;
  cb_public : bool;
  cb_allowedMimeTypes : list string;
  cb_fileSizeLimit : Z
}.

(** The three counters of the summary. *)
Record BucketSummary := mkBucketSummary {
  bucketsCreated : Z;
  bucketsExisted : Z;
  bucketsFailed : Z
}.

(** How the function ends: the early return on [listError], the
    summary, or the outer [catch] (fallback mode). It never throws. *)
Inductive BucketInit :=
| ListingFailed (error : string)
| Summary (s : BucketSummary)
| FallbackMode (error : Message).

(** [Object.entries(STORAGE_BUCKETS)], in insertion order. *)
Definition storageBucketNames : list string :=
  [STORAGE_BUCKETS.IMAGES; STORAGE_BUCKETS.VIDEOS; STORAGE_BUCKETS.DOCUMENTS;
   STORAGE_BUCKETS.PROFILES; STORAGE_BUCKETS.COURSES; STORAGE_BUCKETS.CHAT].

Definition createBucketRequest (bucketName : string) : CreateBucket :=
  mkCreateBucket bucketName true (getAllowedMimeTypes bucketName)
    (getFileSizeLimit bucketName).

(** [for (const [key, bucketName] of Object.entries(STORAGE_BUCKETS)) { ... }]:
    [sent] holds the calls of [createBucket] made so far; [createReply]
    gives the replies in the order of the calls. *)
Fixpoint createMissingBuckets (existingBucketNames : list string)
    (createReply : nat -> ServiceReply unit) (names : list string)
    (s : BucketSummary) (sent : list CreateBucket)
  : BucketSummary * list CreateBucket :=
  match names with
  | [] => (s, sent)
  | bucketName :: rest =>
    if negb (inList bucketName existingBucketNames) then
      let s' :=
        match createReply (length sent) with
        | Answered _ (Some _) =>
          mkBucketSummary (bucketsCreated s) (bucketsExisted s) (bucketsFailed s + 1)
        | Answered _ None =>
          mkBucketSummary (bucketsCreated s + 1) (bucketsExisted s) (bucketsFailed s)
        | Refused _ | Late =>
          mkBucketSummary (bucketsCreated s) (bucketsExisted s) (bucketsFailed s + 1)
        end in
      createMissingBuckets existingBucketNames createReply rest s'
        (sent ++ [createBucketRequest bucketName])
    else
      createMissingBuckets existingBucketNames createReply rest
        (mkBucketSummary (bucketsCreated s) (bucketsExisted s + 1) (bucketsFailed s)) sent
  end.

(** [initializeStorageBuckets()]: how it ends, and the calls of
    [createBucket] it made. *)
Definition initializeStorageBuckets (listReply : ServiceReply (list string))
    (createReply : nat -> ServiceReply unit) : BucketInit * list CreateBucket :=
  match listReply with
  | Answered _ (Some listError) => (ListingFailed listError, [])
  | Answered (Some existingBucketNames) None =>
    let '(s, sent) :=
      createMissingBuckets existingBucketNames createReply storageBucketNames
        (mkBucketSummary 0 0 0) [] in
    (Summary s, sent)
  | Answered None None =>
    (FallbackMode [PStr "Cannot read properties of null (reading 'map')"], [])
  | Refused msg => (FallbackMode [PStr msg], [])
  | Late => (FallbackMode [PStr "Bucket initialization timeout"], [])
  end.

(** * Notions used to state the properties *)

(** The request [cleanupChunks] sends for a document: one batched
    delete of the recorded paths, and none when nothing is recorded. *)
Definition removalEvents (cv : ChunkedVideo) : list Event :=
  if lengthZ (map chunkPath (uploadedChunks cv)) >? 0
  then [EvRemove (bucket cv) (map chunkPath (uploadedChunks cv)) 60000]
  else [].

(** The document [initializeChunkedUpload] creates for a file. *)
Definition sessionFor (pe : ProcessEnv) (file : File) (fld vid : string) : ChunkedVideo :=
  newChunkedVideo vid (originalname file) (size file)
    (Js.ceilDiv (size file) (CHUNK_SIZE pe)) (CHUNK_SIZE pe) (file_mimetype file)
    (getBucketForFileType (file_mimetype file) fld "") fld
    (MAX_CONCURRENT_CHUNKS pe) (CHUNK_TIMEOUT pe).

(** The chunk indices [0 .. n-1], and the sum of a list of sizes. *)
Definition indices (n : Z) : list Z := map Z.of_nat (seq 0 (Z.to_nat n)).
Definition sumZ (l : list Z) : Z := fold_right Z.add 0 l.

(** The index a chunk result reports. *)
Definition resultIndex (r : ChunkResult) : Z :=
  match r with
  | AlreadyUploaded i _ => i
  | Uploaded i _ _ _ _ => i
  end.

(** A reply that makes an attempt fail: anything but a resolved reply
    without error that carries a non-empty path. *)
Definition replyFails (r : StorageReply) : bool :=
  match r with
  | Resolved (Some p) None => negb (Js.truthy p)
  | _ => true
  end.

(** The transfer request of one attempt of [uploadChunk]. *)
Definition uploadEvent (pe : ProcessEnv) (cv : ChunkedVideo) (chunkFilename : string)
    (chunkBuffer : list Byte.byte) : Event :=
  EvUpload (bucket cv) chunkFilename (Bytes chunkBuffer) "application/octet-stream"
    false (CHUNK_TIMEOUT pe).

(** The waiting time the formula of the specification gives after
    failed attempt number [attempt] (from 1) with jitter [jitter]. *)
Definition backoffDelay (attempt : Z) (jitter : Q) : Q :=
  Qmin (inject_Z (RETRY_DELAY_BASE * 2 ^ (attempt - 1)) + jitter) 30000.

(** The jitter drawn after the [j]-th failed attempt (from 0) of an
    invocation started in world [w]. *)
Definition jitterAt (E : Oracle) (w : World) (j : nat) : Q :=
  (random E (randomDraws w + j) * 2000)%Q.

(** The requests of [k] failed attempts, each followed by its wait. *)
Definition failedAttemptEvents (pe : ProcessEnv) (E : Oracle) (cv : ChunkedVideo)
    (chunkFilename : string) (chunkBuffer : list Byte.byte) (w : World) (k : nat)
  : list Event :=
  flat_map
    (fun j => [uploadEvent pe cv chunkFilename chunkBuffer;
               EvSleep (backoffDelay (Z.of_nat j + 1) (jitterAt E w j))])
    (seq 0 k).

(** The world after [k] failed attempts, each followed by its wait. *)
Definition afterFailedAttempts (pe : ProcessEnv) (E : Oracle) (cv : ChunkedVideo)
    (chunkFilename : string) (chunkBuffer : list Byte.byte) (w : World) (k : nat)
  : World :=
  mkWorld (db w)
    (events w ++ failedAttemptEvents pe E cv chunkFilename chunkBuffer w k)
    (clockReads w) (randomDraws w + k) (idDraws w) (dbCalls w) (uploadCalls w + k)
    (removeCalls w) (metadataCalls w).

(** A computation that only adds to the list of requests. *)
Definition Grows {A} (c : M A) : Prop :=
  forall w, exists l, events (snd (c w)) = events w ++ l.

(** The document [uploadChunk] saves after a successful transfer. *)
Definition recordedSession (cv : ChunkedVideo) (idx : Z) (path : string) (len now attempts : Z)
  : ChunkedVideo :=
  fst (checkCompletion (calculateProgress
         (with_uploadedChunks
            (uploadedChunks cv ++ [mkChunkRecord idx path len now attempts true]) cv))).

(** The message of a permanent transfer failure, as [uploadChunk]
    throws it. *)
Definition permanentError (idx attempts : Z) (cause : Message) (len : Z) (bkt : string)
    (timestamp : Z) : Message :=
  [PStr "AWS failed to upload chunk "; PNum idx; PStr ": ";
   PStr "AWS failed to upload chunk "; PNum idx; PStr " after "; PNum MAX_RETRIES;
   PStr " attempts. Details: ";
   PDetails idx attempts cause len (MB len) bkt true timestamp].

(** The world in which the retry loop of an invocation starts: the
    record has been read and the clock consulted for the path. *)
Definition transferStart (w : World) : World := nextClock (nextDb w).

(** A list of chunk records in non-decreasing index order. *)
Fixpoint sortedByIndex (l : list ChunkRecord) : Prop :=
  match l with
  | [] => True
  | c :: r => Forall (fun d => chunkIndex c <= chunkIndex d) r /\ sortedByIndex r
  end.

(** A computation that does not run out of fuel. *)
Definition Terminates {A} (c : M A) : Prop :=
  forall w, fst (c w) <> OutOfFuel.

(** The chunk indices [a, a+1, ..., b-1]. *)
Definition indexRange (a b : Z) : list Z :=
  map (fun k => a + Z.of_nat k) (seq 0 (Z.to_nat (b - a))).

(** A computation whose value, when it returns one, satisfies [P]. *)
Definition Yields {A} (P : A -> Prop) (c : M A) : Prop :=
  forall w a w', c w = (Ok a, w') -> P a.

(** The number of transfer requests in a list of requests. *)
Definition isUpload (e : Event) : bool :=
  match e with EvUpload _ _ _ _ _ _ => true | _ => false end.
Definition uploadsIn (l : list Event) : nat := length (filter isUpload l).

(** The session [vid] of [n] chunks is stored under its own identifier,
    is not finalised, and holds the chunks [0 .. b-1] in index order. *)
Definition SessionAt (vid : string) (n b : Z) (w : World) : Prop :=
  exists cv, db w !! vid = Some cv /\ videoId cv = vid /\ totalChunks cv = n /\
    finalVideoUrl cv = None /\
    map chunkIndex (uploadedChunks cv) = indexRange 0 b.

(** Every document of the collection is stored under its [videoId]. *)
Definition WellKeyed (d : gmap string ChunkedVideo) : Prop :=
  forall k cv, d !! k = Some cv -> videoId cv = k.

(** The chunk indices a completion result lists. *)
Definition completedIndices (r : CompleteResult) : list Z :=
  match r with
  | AlreadyCompleted _ _ chunks => map chunkIndex chunks
  | Completed info => map cu_index (ci_chunks info)
  end.

(** A segment run to the end of its thread. *)
Definition finishS {A} (s : Segment A) (w : World) : Outcome A * World :=
  let (t, w') := s w in finish t w'.

(** A thread that keeps [I] at every instant at which it is resumed,
    whatever ran in between, and settles with an outcome in [Q]. *)
Fixpoint Keeps {A} (I : World -> Prop) (Q : Outcome A -> Prop) (t : Thread A) : Prop :=
  match t with
  | Settled o => Q o
  | Awaiting resume =>
    forall w, I w -> I (snd (resume w)) /\ Keeps I Q (fst (resume w))
  end.

Definition KeepsS {A} (I : World -> Prop) (Q : Outcome A -> Prop) (s : Segment A) : Prop :=
  forall w, I w -> I (snd (s w)) /\ Keeps I Q (fst (s w)).

(** A call that keeps [I]. *)
Definition Stable {A} (I : World -> Prop) (c : M A) : Prop :=
  forall w, I w -> I (snd (c w)).

(** A chunk record of the session of [n] chunks cut from [buf]: its
    index is one of [0 .. n-1] and its size is the length of the slice
    of that index. *)
Definition chunkRecordOk (pe : ProcessEnv) (buf : list Byte.byte) (n : Z)
    (rec : ChunkRecord) : Prop :=
  0 <= chunkIndex rec < n /\
  rec_chunkSize rec = lengthZ (chunkBufferOf pe buf (chunkIndex rec)).

(** A session in progress: not finalised, every index recorded at most
    once, every record in order; bucket, folder and file name are those
    of the session as it was [created]. *)
Definition sessionOk (pe : ProcessEnv) (buf : list Byte.byte) (vid : string) (n : Z)
    (created cv : ChunkedVideo) : Prop :=
  videoId cv = vid /\ totalChunks cv = n /\ finalVideoUrl cv = None /\
  NoDup (map chunkIndex (uploadedChunks cv)) /\
  Forall (chunkRecordOk pe buf n) (uploadedChunks cv) /\
  bucket cv = bucket created /\ folder cv = folder created /\
  originalFilename cv = originalFilename created.

(** A request the scheduler may cause: a transfer of bytes is the
    transfer of the slice of an index [i] of [0 .. n-1] to the chunk
    path of that index and of some clock reading. *)
Definition transferOk (pe : ProcessEnv) (extname : string -> string)
    (buf : list Byte.byte) (vid : string) (n : Z) (created : ChunkedVideo) (e : Event)
  : Prop :=
  match e with
  | EvUpload _ _ (Bytes _) _ _ _ =>
    exists i timestamp,
      0 <= i < n /\
      e = uploadEvent pe created (chunkFilenameOf extname created vid timestamp i)
            (chunkBufferOf pe buf i)
  | _ => True
  end.

(** The world during the batches of a run that started with the
    requests [before]. *)
Definition DuringBatches (pe : ProcessEnv) (extname : string -> string)
    (buf : list Byte.byte) (vid : string) (n : Z) (created : ChunkedVideo)
    (before : list Event) (w : World) : Prop :=
  (forall cv, db w !! vid = Some cv -> sessionOk pe buf vid n created cv) /\
  exists sent,
    events w = before ++ sent /\ Forall (transferOk pe extname buf vid n created) sent.

(** What a member of the batch [b .. e-1] settles to: a value, or the
    error of [uploadChunk] for an index of the batch. *)
Definition memberOutcome (b e : Z) (o : Outcome ChunkResult) : Prop :=
  match o with
  | Throw m =>
    exists i cause, b <= i < e /\
      m = [PStr "AWS failed to upload chunk "; PNum i; PStr ": "] ++ cause
  | _ => True
  end.

(** A computation that only adds requests, each of them in [P]. *)
Definition Adds {A} (P : Event -> Prop) (c : M A) : Prop :=
  forall w, exists l, events (snd (c w)) = events w ++ l /\ Forall P l.

(** The world after a batch whose members all succeeded: the pause
    before the next batch, when there is one. *)
Definition afterBatch (tchunks maxc batchStart : Z) (w : World) : World :=
  if Z.min (batchStart + maxc) tchunks <? tchunks then emit (EvSleep 1000) w else w.

(** [BatchProgress ... k s b w s' b' w']: the batch loop, entered at
    [batchStart = b] in world [w] with the schedule [s], completes [k]
    batches without failure and is then at [batchStart = b'] in world
    [w'], with [s'] left of the schedule. *)
Inductive BatchProgress (pe : ProcessEnv) (E : Oracle) (extname : string -> string)
    (vid : string) (fileBuffer : list Byte.byte) (tchunks maxc : Z)
  : nat -> list nat -> Z -> World -> list nat -> Z -> World -> Prop :=
| progress_none s b w :
    BatchProgress pe E extname vid fileBuffer tchunks maxc 0 s b w s b w
| progress_batch k s b w results s' b' w' :
    b < tchunks ->
    joined (promiseAll s
              (batchMembers pe E extname (Z.to_nat (Z.min (b + maxc) tchunks - b))
                 vid fileBuffer b) w) = Ok results ->
    BatchProgress pe E extname vid fileBuffer tchunks maxc k
      (schedule_left
         (promiseAll s
            (batchMembers pe E extname (Z.to_nat (Z.min (b + maxc) tchunks - b))
               vid fileBuffer b) w))
      (b + maxc)
      (afterBatch tchunks maxc b
         (world_then
            (promiseAll s
               (batchMembers pe E extname (Z.to_nat (Z.min (b + maxc) tchunks - b))
                  vid fileBuffer b) w)))
      s' b' w' ->
    BatchProgress pe E extname vid fileBuffer tchunks maxc (S k) s b w s' b' w'.

(** A thread that, whenever it settles, settles in a world of [P]. *)
Fixpoint Lands {B} (P : World -> Prop) (t : Thread B) : Prop :=
  match t with
  | Settled _ => True
  | Awaiting resume =>
    forall w,
      match fst (resume w) with
      | Settled _ => P (snd (resume w))
      | Awaiting _ => True
      end /\ Lands P (fst (resume w))
  end.

Definition isSettled {A} (t : Thread A) : bool :=
  match t with Settled _ => true | Awaiting _ => false end.

(** A thread that, resumed [m] times from [w] with nothing in between,
    has settled. *)
Fixpoint settlesWithin {A} (m : nat) (t : Thread A) (w : World) {struct m} : Prop :=
  match t with
  | Settled _ => True
  | Awaiting resume =>
    match m with
    | O => False
    | S m' => settlesWithin m' (fst (resume w)) (snd (resume w))
    end
  end.

(** A world and oracles on which the statements are evaluated. *)
Module Fixture.

Definition pe : ProcessEnv := Build_ProcessEnv (Some 10) None None None.

(** No environment variable is set: the defaults apply. *)
Definition pe_default : ProcessEnv := Build_ProcessEnv None None None None.

Definition extname (s : string) : string := ".mp4".
Definition getPublicUrl (b p : string) : string := "https://storage/" +:+ b +:+ "/" +:+ p.

(** Every call succeeds; the n-th upload is stored under ["p<n>"]. *)
Definition calm : Oracle := {|
  clock := fun n => 1000 + Z.of_nat n;
  random := fun n => (1 # 2)%Q;
  randomBytesHex := fun n => "abcd";
  db_fault := fun n => None;
  upload_reply := fun n => Resolved (Some ("p" +:+ pretty n)) None;
  remove_reply := fun n => Resolved None None;
  metadata_duration := fun n => Some (3 # 1)%Q
|}.

(** The first upload succeeds, every later one fails. *)
Definition failing_after (k : nat) : Oracle := {|
  clock := fun n => 1000 + Z.of_nat n;
  random := fun n => (1 # 2)%Q;
  randomBytesHex := fun n => "abcd";
  db_fault := fun n => None;
  upload_reply := fun n =>
    if (n <? k)%nat then Resolved (Some ("p" +:+ pretty n)) None
    else Resolved None (Some "network down");
  remove_reply := fun n => Resolved None None;
  metadata_duration := fun n => Some (3 # 1)%Q
|}.

(** The first [k] uploads fail, the later ones succeed. *)
Definition failing_first (k : nat) : Oracle := {|
  clock := fun n => 1000 + Z.of_nat n;
  random := fun n => (1 # 2)%Q;
  randomBytesHex := fun n => "abcd";
  db_fault := fun n => None;
  upload_reply := fun n =>
    if (n <? k)%nat then TimedOut
    else Resolved (Some ("p" +:+ pretty n)) None;
  remove_reply := fun n => Resolved None None;
  metadata_duration := fun n => Some (3 # 1)%Q
|}.

(** Storage removal and every persistence call after the first fail. *)
Definition hostile : Oracle := {|
  clock := fun n => 1000 + Z.of_nat n;
  random := fun n => (1 # 2)%Q;
  randomBytesHex := fun n => "abcd";
  db_fault := fun n => if (n <? 1)%nat then None else Some "connection lost";
  upload_reply := fun n => Rejected "socket hang up";
  remove_reply := fun n => TimedOut;
  metadata_duration := fun n => None
|}.

(** Every transfer succeeds; the second persistence call fails. *)
Definition save_fails : Oracle := {|
  clock := fun n => 1000 + Z.of_nat n;
  random := fun n => (1 # 2)%Q;
  randomBytesHex := fun n => "abcd";
  db_fault := fun n => if (n =? 1)%nat then Some "write failed" else None;
  upload_reply := fun n => Resolved (Some ("p" +:+ pretty n)) None;
  remove_reply := fun n => Resolved None None;
  metadata_duration := fun n => Some (3 # 1)%Q
|}.

Definition empty : World := mkWorld ∅ [] 0 0 0 0 0 0 0.

Definition chunk0 : ChunkRecord := mkChunkRecord 0 "videos/chunks/abcd/1_chunk_0000.mp4" 10 1 1 true.
Definition chunk1 : ChunkRecord := mkChunkRecord 1 "videos/chunks/abcd/2_chunk_0001.mp4" 10 2 1 true.
Definition chunk2 : ChunkRecord := mkChunkRecord 2 "videos/chunks/abcd/3_chunk_0002.mp4" 5 3 2 true.

(** A session of three chunks with the first uploaded. *)
Definition partial : ChunkedVideo :=
  mkChunkedVideo "abcd" "a.mp4" 25 3 10 "video/mp4" "videos" "videos" [chunk0] true 2
    300000 (100 # 3)%Q false None None None.

(** The same session with all chunks uploaded (out of order), not yet
    completed. *)
Definition full : ChunkedVideo :=
  mkChunkedVideo "abcd" "a.mp4" 25 3 10 "video/mp4" "videos" "videos"
    [chunk1; chunk0; chunk2] true 2 300000 100%Q true None None None.

(** The same session after completion. *)
Definition done : ChunkedVideo :=
  with_completion "https://storage/videos/videos/manifests/aws_abcd_manifest.json" 50 full.

Definition holding (cv : ChunkedVideo) : World :=
  mkWorld {[ videoId cv := cv ]} [] 0 0 0 0 0 0 0.

(** The same collection, read at a later time. *)
Definition later (cv : ChunkedVideo) : World :=
  mkWorld {[ videoId cv := cv ]} [] 7 0 0 0 5 0 0.

Definition file25 : File :=
  mkFile (Some (repeat Byte.x00 25)) "application/octet-stream" "lecture.MKV" 25.

(** The session the scheduler creates for [file25]. *)
Definition started : Outcome InitResult * World :=
  Eval vm_compute in
    initializeChunkedUpload pe (failing_after 1) file25 "videos" empty.

(** The environment with a negative batch width. *)
Definition pe_negative : ProcessEnv := Build_ProcessEnv (Some 10) (Some (-1)) None None.

(** A first completion of the full session. *)
Definition completedOnce : CompleteResult * World :=
  Eval vm_compute in
    match completeChunkedUpload pe calm extname getPublicUrl "abcd" (holding full) with
    | (Ok r, w') => (r, w')
    | (_, w') => (AlreadyCompleted "abcd" "none" [], w')
    end.

(** A completion whose record cannot be saved. *)
Definition unsavedCompletion : Outcome CompleteResult * World :=
  Eval vm_compute in
    completeChunkedUpload pe save_fails extname getPublicUrl "abcd" (holding full).

Definition unsavedCompletionMessage : Message :=
  Eval vm_compute in match fst unsavedCompletion with Throw m => m | _ => [] end.

(** The upload of the second chunk of the partial session. *)
Definition secondChunk : Outcome ChunkResult * World :=
  Eval vm_compute in
    uploadChunk pe calm extname "abcd" 1 [Byte.x01] (holding partial).

(** A schedule that answers the members of a batch one after the
    other: member 0 three times, member 1 three times, then member 0
    for the rest of the run. *)
Definition serial : list nat := [0; 0; 0; 1; 1; 1]%nat ++ repeat 0%nat 13.

(** A run of the scheduler under [serial]: the first batch (chunks 0
    and 1) is stored, the second batch (chunk 2) fails. *)
Definition passedBatch : Joined ChunkResult (list ChunkResult) :=
  promiseAll serial
    (batchMembers pe (failing_after 2) extname 2 "abcd" (bufferOf file25) 0)
    (snd started).

Definition passedBatchResults : list ChunkResult :=
  Eval vm_compute in
    match joined passedBatch with Ok rs => rs | _ => [] end.

Definition secondSchedule : list nat := Eval vm_compute in schedule_left passedBatch.

Definition secondBatchStart : World :=
  Eval vm_compute in afterBatch 3 2 0 (world_then passedBatch).

Definition failedSecondBatch : Joined ChunkResult (list ChunkResult) :=
  promiseAll secondSchedule
    (batchMembers pe (failing_after 2) extname 1 "abcd" (bufferOf file25) 2)
    secondBatchStart.

Definition failedSecondBatchCause : Message :=
  Eval vm_compute in
    match joined failedSecondBatch with Throw m => m | _ => [] end.

Definition afterTwoChunks : ChunkedVideo :=
  Eval vm_compute in
    match db (world_then failedSecondBatch) !! "abcd" with
    | Some cv => cv
    | None => partial
    end.

(** A complete run of the scheduler on [file25] when every call
    succeeds, under [serial]. *)
Definition delivered : Outcome CompleteResult * World :=
  Eval vm_compute in
    uploadVideoInChunks pe calm extname getPublicUrl serial 5 file25 "videos" empty.

Definition deliveredResult : CompleteResult :=
  Eval vm_compute in
    match fst delivered with Ok r => r | _ => AlreadyCompleted "abcd" "none" [] end.

Definition deliveredWorld : World := Eval vm_compute in snd delivered.

(** A schedule on which member 1 of the first batch overtakes member
    0: both look the session up, member 0 transfers its chunk, member
    1 goes through all its attempts, and the cleanup follows while
    member 0 has still to save. *)
Definition overtaking : list nat := [0; 1; 0]%nat ++ repeat 1%nat 11.

Definition overtaken : Outcome CompleteResult * World :=
  Eval vm_compute in
    uploadVideoInChunks pe (failing_after 1) extname getPublicUrl overtaking 10 file25
      "videos" empty.

Definition overtakenMessage : Message :=
  Eval vm_compute in match fst overtaken with Throw m => m | _ => [] end.

(** The clock stands still; every transfer succeeds; the second
    persistence call fails. *)
Definition frozen : Oracle := {|
  clock := fun n => 1000;
  random := fun n => (1 # 2)%Q;
  randomBytesHex := fun n => "abcd";
  db_fault := fun n => if (n =? 1)%nat then Some "write failed" else None;
  upload_reply := fun n => Resolved (Some ("p" +:+ pretty n)) None;
  remove_reply := fun n => Resolved None None;
  metadata_duration := fun n => Some (3 # 1)%Q
|}.

(** A file that declares 25 bytes and holds 20. *)
Definition declares25 : File :=
  mkFile (Some (repeat Byte.x00 20)) "video/mp4" "lecture.mp4" 25.

End Fixture.

(** * Properties *)

(** ** Cleanup *)

Section CleanupFacts.

Variable E : Oracle.

Lemma cleanupChunks_returns vid force w :
  fst (cleanupChunks E vid force w) = Ok tt.
Proof.
  unfold cleanupChunks, tryCatch, bind, findOne, storageRemove, deleteOne, ret.
  repeat (case_match; simplify_eq/=; try done).
Qed.

Lemma cleanupChunks_run vid force w :
  cleanupChunks E vid force w = (Ok tt, snd (cleanupChunks E vid force w)).
Proof.
  pose proof (cleanupChunks_returns vid force w) as H.
  destruct (cleanupChunks E vid force w) as [r w']. simpl in *. by subst.
Qed.

Lemma cleanupChunks_missing vid force w :
  db w !! vid = None ->
  cleanupChunks E vid force w = (Ok tt, nextDb w).
Proof.
  intros Hnone.
  unfold cleanupChunks, tryCatch, bind, findOne, ret.
  rewrite Hnone. by destruct (db_fault E (dbCalls w)).
Qed.

Lemma cleanupChunks_read_fault vid force w msg :
  db_fault E (dbCalls w) = Some msg ->
  cleanupChunks E vid force w = (Ok tt, nextDb w).
Proof.
  intros Hf. unfold cleanupChunks, tryCatch, bind, findOne, ret. by rewrite Hf.
Qed.

Lemma cleanupChunks_completed_unforced vid w cv :
  db w !! vid = Some cv -> isComplete cv = true ->
  cleanupChunks E vid false w = (Ok tt, nextDb w).
Proof.
  intros Hcv Hc.
  unfold cleanupChunks, tryCatch, bind, findOne, ret.
  destruct (db_fault E (dbCalls w)); [done |].
  by rewrite Hcv, Hc.
Qed.

Lemma cleanupChunks_events vid force w cv :
  db w !! vid = Some cv -> db_fault E (dbCalls w) = None ->
  (force = true \/ isComplete cv = false) ->
  events (snd (cleanupChunks E vid force w)) = events w ++ removalEvents cv.
Proof.
  intros Hcv Hf Hgo.
  unfold cleanupChunks, removalEvents, tryCatch, bind, findOne, storageRemove,
    deleteOne, ret.
  rewrite Hf, Hcv.
  assert (negb force && isComplete cv = false) as ->
    by (destruct Hgo as [-> | ->]; [done | by destruct force]).
  repeat (case_match; simplify_eq/=; try done); by rewrite ?app_nil_r.
Qed.

Lemma cleanupChunks_unforced_db vid w :
  db (snd (cleanupChunks E vid false w)) = db w.
Proof.
  unfold cleanupChunks, tryCatch, bind, findOne, storageRemove, ret.
  repeat (case_match; simplify_eq/=; try done).
Qed.

Lemma cleanupChunks_forced_db vid w cv :
  db w !! vid = Some cv -> db_fault E (dbCalls w) = None ->
  db_fault E (S (dbCalls w)) = None ->
  db (snd (cleanupChunks E vid true w)) = delete vid (db w).
Proof.
  intros Hcv Hf Hd.
  unfold cleanupChunks, tryCatch, bind, findOne, storageRemove, deleteOne, ret.
  rewrite Hf, Hcv. simpl.
  repeat (case_match; simplify_eq/=; try done).
Qed.

End CleanupFacts.

(** C10. Cleanup never raises: whatever the identifier, the force flag,
    the world and the oracle (missing record, persistence fault on the
    lookup or on the deletion, storage error, rejection or timeout of
    the batched delete), [cleanupChunks] returns normally. *)
Theorem cleanupChunks_never_raises (E : Oracle) (vid : string) (force : bool) (w : World) :
  exists w', cleanupChunks E vid force w = (Ok tt, w').
Proof.
  exists (snd (cleanupChunks E vid force w)).
  pose proof (cleanupChunks_returns E vid force w) as H.
  destruct (cleanupChunks E vid force w) as [r w']; simpl in *. by subst.
Qed.

(** C7. Cleanup is a no-op (no removal request, collection unchanged)
    when the session does not exist, and when the session is complete
    and [force] is false. Without [force] the record is never deleted.
    Otherwise (the session is read, and it is incomplete or [force] is
    true) one batched delete of the recorded paths is requested; with
    [force], when the deletion goes through, the record is deleted as
    well. *)
Theorem cleanupChunks_noop_and_force (E : Oracle) (vid : string) (w : World) :
  (forall force, db w !! vid = None ->
     cleanupChunks E vid force w = (Ok tt, nextDb w)) /\
  (forall cv, db w !! vid = Some cv -> isComplete cv = true ->
     cleanupChunks E vid false w = (Ok tt, nextDb w)) /\
  db (snd (cleanupChunks E vid false w)) = db w /\
  (forall cv force, db w !! vid = Some cv -> db_fault E (dbCalls w) = None ->
     force = true \/ isComplete cv = false ->
     events (snd (cleanupChunks E vid force w)) = events w ++ removalEvents cv) /\
  (forall cv, db w !! vid = Some cv ->
     db_fault E (dbCalls w) = None -> db_fault E (S (dbCalls w)) = None ->
     db (snd (cleanupChunks E vid true w)) = delete vid (db w)).
Proof.
  split; [| split; [| split; [| split]]].
  - intros force Hnone. by apply cleanupChunks_missing.
  - intros cv Hcv Hc. by eapply cleanupChunks_completed_unforced.
  - apply cleanupChunks_unforced_db.
  - intros cv force Hcv Hf Hgo. by apply cleanupChunks_events.
  - intros cv Hcv Hf Hd. by eapply cleanupChunks_forced_db.
Qed.

Lemma cleanupChunks_noop_and_force_witness :
  cleanupChunks Fixture.calm "abcd" true Fixture.empty = (Ok tt, nextDb Fixture.empty) /\
  cleanupChunks Fixture.calm "abcd" false (Fixture.holding Fixture.done)
    = (Ok tt, nextDb (Fixture.holding Fixture.done)) /\
  events (snd (cleanupChunks Fixture.calm "abcd" true (Fixture.holding Fixture.done)))
    = [EvRemove "videos"
         ["videos/chunks/abcd/2_chunk_0001.mp4"; "videos/chunks/abcd/1_chunk_0000.mp4";
          "videos/chunks/abcd/3_chunk_0002.mp4"] 60000] /\
  db (snd (cleanupChunks Fixture.calm "abcd" true (Fixture.holding Fixture.done))) = ∅.
Proof.
  destruct (cleanupChunks_noop_and_force Fixture.calm "abcd" Fixture.empty)
    as (Hmissing & _).
  destruct (cleanupChunks_noop_and_force Fixture.calm "abcd" (Fixture.holding Fixture.done))
    as (_ & Hdone & _ & Hevents & Hforce).
  split; [apply Hmissing; reflexivity |].
  split; [apply (Hdone Fixture.done); reflexivity |].
  split.
  - rewrite (Hevents Fixture.done true); [reflexivity | reflexivity | reflexivity |].
    by left.
  - rewrite (Hforce Fixture.done); reflexivity.
Defined.

(** ** Initialisation and media classification *)

Section InitFacts.

Variable pe : ProcessEnv.
Variable E : Oracle.

Lemma isVideo_rules file :
  isVideo file = true <->
  Js.startsWith "video/" (file_mimetype file) = true \/
  hasVideoExtension (originalname file) = true \/
  (file_mimetype file = "application/octet-stream" /\
   hasMkvExtension (originalname file) = true).
Proof.
  unfold isVideo, isVideoByMimetype, isVideoByExtension, isOctetStreamMkv, isMkvFile.
  assert (Hempty : forall s, Js.truthy s = false -> s = "").
  { intros s. unfold Js.truthy. destruct (String.eqb_spec s ""); [done | discriminate]. }
  rewrite !orb_true_iff, !andb_true_iff, String.eqb_eq.
  split.
  - intros [[H | [_ H]] | [H1 [_ H2]]]; auto.
  - intros [H | [H | [H1 H2]]]; [auto | |].
    + left; right. split; [| done].
      destruct (Js.truthy (originalname file)) eqn:Ht; [done |].
      apply Hempty in Ht. rewrite Ht in H. discriminate.
    + right. repeat split; try done.
      destruct (Js.truthy (originalname file)) eqn:Ht; [done |].
      apply Hempty in Ht. rewrite Ht in H2. discriminate.
Qed.

Lemma initialize_no_buffer file fld w :
  buffer file = None ->
  initializeChunkedUpload pe E file fld w =
    (Throw [PStr "Failed to initialize AWS-optimized chunked upload: ";
            PStr "Invalid file buffer"], w).
Proof.
  intros Hb. unfold initializeChunkedUpload, tryCatch. by rewrite Hb.
Qed.

Lemma initialize_not_video file fld w b :
  buffer file = Some b -> isVideo file = false ->
  initializeChunkedUpload pe E file fld w =
    (Throw [PStr "Failed to initialize AWS-optimized chunked upload: ";
            PStr "File must be a video"], w).
Proof.
  intros Hb Hv. unfold initializeChunkedUpload, tryCatch. by rewrite Hb, Hv.
Qed.

Lemma initialize_ok file fld w b :
  buffer file = Some b -> isVideo file = true ->
  db_fault E (dbCalls w) = None ->
  let vid := randomBytesHex E (idDraws w) in
  initializeChunkedUpload pe E file fld w =
    (Ok (mkInitResult vid (Js.ceilDiv (size file) (CHUNK_SIZE pe)) (CHUNK_SIZE pe)
           (MAX_CONCURRENT_CHUNKS pe)),
     nextDb (set_db (<[vid := sessionFor pe file fld vid]> (db w)) (nextId w))).
Proof.
  intros Hb Hv Hf vid.
  unfold initializeChunkedUpload, tryCatch, bind, generateVideoId, save, ret.
  rewrite Hb, Hv. simpl. by rewrite Hf.
Qed.

Lemma octet_stream_bucket fld :
  getBucketForFileType "application/octet-stream" fld "" = STORAGE_BUCKETS.VIDEOS.
Proof. reflexivity. Qed.

End InitFacts.

Lemma toLower_app a b : Js.toLower (a +:+ b) = Js.toLower a +:+ Js.toLower b.
Proof. induction a as [| c a IH]; simpl; [done | by rewrite IH]. Qed.

Lemma substring_all p : substring 0 (String.length p) p = p.
Proof. induction p as [| c p IH]; simpl; [done | by rewrite IH]. Qed.

Lemma substring_suffix s p :
  substring (String.length s) (String.length p) (s +:+ p) = p.
Proof. induction s as [| c s IH]; simpl; [apply substring_all | done]. Qed.

Lemma string_length_app s p :
  String.length (s +:+ p) = (String.length s + String.length p)%nat.
Proof. induction s as [| c s IH]; simpl; [done | by rewrite IH]. Qed.

Lemma endsWith_app p s : Js.endsWith p (s +:+ p) = true.
Proof.
  unfold Js.endsWith. rewrite string_length_app.
  replace (String.length s + String.length p - String.length p)%nat
    with (String.length s) by lia.
  rewrite substring_suffix, String.eqb_refl, andb_true_r.
  apply Nat.leb_le. lia.
Qed.

(** A name that ends with a dot and one of the seven extensions is
    recognised, whatever precedes the dot. *)
Lemma hasVideoExtension_suffix stem e :
  In e videoExtensions -> hasVideoExtension (stem +:+ "." +:+ e) = true.
Proof.
  intros Hin. unfold hasVideoExtension. apply existsb_exists.
  exists e. split; [done |].
  rewrite toLower_app.
  assert (Js.toLower ("." +:+ e) = "." +:+ e) as ->.
  { simpl in Hin. repeat destruct Hin as [<- | Hin]; done. }
  apply endsWith_app.
Qed.

(** The bucket is chosen from the content-type and the folder alone:
    [initializeChunkedUpload] does not hand the file name to
    [getBucketForFileType]. A file accepted for its extension only, with
    a content-type outside the video list, is stored with the images
    bucket, although the bucket function, given the name, answers
    [videos]. *)
Lemma extension_only_bucket :
  isVideo (mkFile (Some []) "text/plain" "clip.mp4" 0) = true /\
  getBucketForFileType "text/plain" "videos" "" = STORAGE_BUCKETS.IMAGES /\
  getBucketForFileType "text/plain" "videos" "clip.mp4" = STORAGE_BUCKETS.VIDEOS.
Proof. repeat split. Qed.

(** C8. Media classification. A file is taken for a video exactly when
    its content-type starts with [video/], or its name carries one of
    the recognised extensions, or its content-type is the generic
    [application/octet-stream] and its name ends in [.mkv]; every name
    made of a stem, a dot and a recognised extension is recognised.
    Initialisation fails with the buffer error when the buffer is
    absent and with the not-a-video error when no rule matches;
    otherwise (the record being saved) it succeeds and stores the
    session with the bucket chosen from the content-type and folder. A
    file with the generic content-type and a recognised video extension
    is accepted and stored with the video bucket, which is not the
    default (images) bucket. *)
Theorem media_classification (pe : ProcessEnv) (E : Oracle) (file : File) (fld : string)
    (w : World) :
  (isVideo file = true <->
     Js.startsWith "video/" (file_mimetype file) = true \/
     hasVideoExtension (originalname file) = true \/
     (file_mimetype file = "application/octet-stream" /\
      hasMkvExtension (originalname file) = true)) /\
  (forall stem e, In e videoExtensions -> hasVideoExtension (stem +:+ "." +:+ e) = true) /\
  (buffer file = None ->
     initializeChunkedUpload pe E file fld w =
       (Throw [PStr "Failed to initialize AWS-optimized chunked upload: ";
               PStr "Invalid file buffer"], w)) /\
  (forall b, buffer file = Some b -> isVideo file = false ->
     initializeChunkedUpload pe E file fld w =
       (Throw [PStr "Failed to initialize AWS-optimized chunked upload: ";
               PStr "File must be a video"], w)) /\
  (forall b, buffer file = Some b -> isVideo file = true ->
     db_fault E (dbCalls w) = None ->
     exists r w',
       initializeChunkedUpload pe E file fld w = (Ok r, w') /\
       db w' !! ir_videoId r = Some (sessionFor pe file fld (ir_videoId r)) /\
       bucket (sessionFor pe file fld (ir_videoId r))
         = getBucketForFileType (file_mimetype file) fld "") /\
  (forall b, buffer file = Some b ->
     file_mimetype file = "application/octet-stream" ->
     hasVideoExtension (originalname file) = true ->
     db_fault E (dbCalls w) = None ->
     exists r w' cv,
       initializeChunkedUpload pe E file fld w = (Ok r, w') /\
       db w' !! ir_videoId r = Some cv /\
       bucket cv = STORAGE_BUCKETS.VIDEOS /\
       bucket cv <> STORAGE_BUCKETS.IMAGES).
Proof.
  split; [apply isVideo_rules |].
  split; [apply hasVideoExtension_suffix |].
  split; [apply initialize_no_buffer |].
  split; [apply initialize_not_video |].
  split.
  - intros b Hb Hv Hf. eexists _, _.
    split; [by eapply initialize_ok |].
    split; [| done]. simpl. apply lookup_insert_eq.
  - intros b Hb Hm He Hf.
    assert (Hv : isVideo file = true) by (apply isVideo_rules; auto).
    eexists _, _, _.
    split; [by eapply initialize_ok |].
    split; [simpl; apply lookup_insert_eq |].
    simpl. rewrite Hm. split; [reflexivity | discriminate].
Qed.

Lemma media_classification_witness :
  isVideo Fixture.file25 = true /\
  (exists r w' cv,
     initializeChunkedUpload Fixture.pe Fixture.calm Fixture.file25 "videos" Fixture.empty
       = (Ok r, w') /\
     db w' !! ir_videoId r = Some cv /\
     bucket cv = "videos" /\ bucket cv <> "images") /\
  initializeChunkedUpload Fixture.pe Fixture.calm
      (mkFile None "video/mp4" "a.mp4" 25) "videos" Fixture.empty
    = (Throw [PStr "Failed to initialize AWS-optimized chunked upload: ";
              PStr "Invalid file buffer"], Fixture.empty) /\
  initializeChunkedUpload Fixture.pe Fixture.calm
      (mkFile (Some []) "text/plain" "notes.txt" 25) "videos" Fixture.empty
    = (Throw [PStr "Failed to initialize AWS-optimized chunked upload: ";
              PStr "File must be a video"], Fixture.empty).
Proof.
  destruct (media_classification Fixture.pe Fixture.calm Fixture.file25 "videos"
              Fixture.empty) as (Hrules & _ & _ & _ & _ & Hgeneric).
  destruct (media_classification Fixture.pe Fixture.calm
              (mkFile None "video/mp4" "a.mp4" 25) "videos" Fixture.empty)
    as (_ & _ & Hnobuf & _).
  destruct (media_classification Fixture.pe Fixture.calm
              (mkFile (Some []) "text/plain" "notes.txt" 25) "videos" Fixture.empty)
    as (_ & _ & _ & Hnovideo & _).
  split; [apply Hrules; right; left; reflexivity |].
  split; [apply (Hgeneric (repeat Byte.x00 25)); reflexivity |].
  split; [apply Hnobuf; reflexivity |].
  apply (Hnovideo []); reflexivity.
Defined.

(** ** Chunk boundaries *)

Section ChunkFacts.

Variable pe : ProcessEnv.

Lemma ceilDiv_bounds a c :
  0 < c -> (Js.ceilDiv a c - 1) * c < a <= Js.ceilDiv a c * c.
Proof.
  intros Hc. unfold Js.ceilDiv.
  pose proof (Z.div_mod (- a) c ltac:(lia)) as Hdm.
  pose proof (Z.mod_pos_bound (- a) c Hc) as Hm.
  nia.
Qed.

Lemma ceilDiv_unique a c n :
  0 < c -> (n - 1) * c < a <= n * c -> Js.ceilDiv a c = n.
Proof.
  intros Hc Hn. pose proof (ceilDiv_bounds a c Hc) as Hb. nia.
Qed.

Lemma initialize_Ok_inv E file fld w r w' :
  initializeChunkedUpload pe E file fld w = (Ok r, w') ->
  r = mkInitResult (randomBytesHex E (idDraws w))
        (Js.ceilDiv (size file) (CHUNK_SIZE pe)) (CHUNK_SIZE pe)
        (MAX_CONCURRENT_CHUNKS pe).
Proof.
  unfold initializeChunkedUpload, tryCatch, bind, generateVideoId, save, throw, ret.
  intros H. repeat (case_match; simplify_eq/=; try done).
Qed.

Lemma slice_inside {A} (buf : list A) s e :
  0 <= s -> s < e -> e <= lengthZ buf ->
  Js.slice s e buf = take (Z.to_nat (e - s)) (drop (Z.to_nat s) buf).
Proof.
  unfold lengthZ. intros Hs Hse He. unfold Js.slice, Js.clampPos.
  destruct (Z.ltb_spec s 0); [lia |].
  destruct (Z.ltb_spec e 0); [lia |].
  rewrite !Z.min_l by lia.
  destruct (Z.leb_spec e s); [lia | done].
Qed.

Lemma chunkBufferOf_inside (b : list Byte.byte) i :
  0 < CHUNK_SIZE pe -> 0 <= i -> i * CHUNK_SIZE pe < lengthZ b ->
  chunkBufferOf pe b i =
    take (Z.to_nat (Z.min (CHUNK_SIZE pe) (lengthZ b - i * CHUNK_SIZE pe)))
         (drop (Z.to_nat (i * CHUNK_SIZE pe)) b).
Proof.
  intros Hc Hi Hlt. unfold chunkBufferOf, chunkEnd, chunkStart.
  rewrite slice_inside by lia. f_equal. lia.
Qed.

Lemma chunkBufferOf_length (b : list Byte.byte) i :
  0 < CHUNK_SIZE pe -> 0 <= i -> i * CHUNK_SIZE pe < lengthZ b ->
  lengthZ (chunkBufferOf pe b i) = Z.min (CHUNK_SIZE pe) (lengthZ b - i * CHUNK_SIZE pe).
Proof.
  intros Hc Hi Hlt. rewrite chunkBufferOf_inside by done.
  unfold lengthZ in *. rewrite length_take, length_drop. lia.
Qed.

Lemma take_chunks {A} (l : list A) (c k : nat) :
  concat (map (fun j => take c (drop (j * c) l)) (seq 0 k)) = take (k * c) l.
Proof.
  induction k as [| k IH]; [done |].
  rewrite seq_S, map_app, concat_app, IH. simpl. rewrite app_nil_r.
  rewrite take_take_drop. f_equal. lia.
Qed.

Lemma chunkBufferOf_nat (b : list Byte.byte) (j : nat) :
  0 < CHUNK_SIZE pe -> Z.of_nat j * CHUNK_SIZE pe < lengthZ b ->
  chunkBufferOf pe b (Z.of_nat j) =
    take (Z.to_nat (CHUNK_SIZE pe)) (drop (j * Z.to_nat (CHUNK_SIZE pe)) b).
Proof.
  intros Hc Hlt. rewrite chunkBufferOf_inside by lia.
  replace (Z.to_nat (Z.of_nat j * CHUNK_SIZE pe)) with (j * Z.to_nat (CHUNK_SIZE pe))%nat
    by lia.
  unfold lengthZ in *.
  destruct (Z.le_ge_cases (CHUNK_SIZE pe) (Z.of_nat (length b) - Z.of_nat j * CHUNK_SIZE pe)).
  - by rewrite Z.min_l.
  - rewrite Z.min_r by done.
    rewrite !take_ge; [done | |]; rewrite length_drop; lia.
Qed.

Lemma chunks_concat (b : list Byte.byte) :
  0 < CHUNK_SIZE pe ->
  concat (map (chunkBufferOf pe b) (indices (Js.ceilDiv (lengthZ b) (CHUNK_SIZE pe)))) = b.
Proof.
  intros Hc. pose proof (ceilDiv_bounds (lengthZ b) (CHUNK_SIZE pe) Hc) as Hb.
  set (n := Js.ceilDiv (lengthZ b) (CHUNK_SIZE pe)) in *.
  unfold indices. rewrite map_map.
  rewrite (map_ext_in _ (fun j => take (Z.to_nat (CHUNK_SIZE pe))
                                   (drop (j * Z.to_nat (CHUNK_SIZE pe)) b))).
  - rewrite take_chunks. apply take_ge. unfold lengthZ in *. nia.
  - intros j Hj%in_seq. apply chunkBufferOf_nat; [done |]. nia.
Qed.

Lemma sumZ_lengths {A} (ls : list (list A)) :
  sumZ (map lengthZ ls) = lengthZ (concat ls).
Proof.
  induction ls as [| l ls IH]; [done |].
  simpl. rewrite IH. unfold lengthZ. rewrite length_app. lia.
Qed.

End ChunkFacts.

(** ** The chunk transfer worker *)

Section WorkerFacts.

Variable pe : ProcessEnv.
Variable E : Oracle.
Variable extname : string -> string.

Lemma replyFails_false r :
  replyFails r = false -> exists p, r = Resolved (Some p) None /\ Js.truthy p = true.
Proof.
  destruct r as [[p |] [e |] | |]; simpl; try discriminate.
  intros H. exists p. split; [done |]. by destruct (Js.truthy p).
Qed.

Lemma attemptUpload_fails cv fn buf w :
  replyFails (upload_reply E (uploadCalls w)) = true ->
  exists m,
    attemptUpload pe E cv fn buf w =
      (Throw m, nextUpload (emit (uploadEvent pe cv fn buf) w)).
Proof.
  intros Hf. unfold attemptUpload, bind, storageUpload, throw, ret, uploadEvent.
  destruct (upload_reply E (uploadCalls w)) as [[p |] [e |] | |]; simpl in *;
    repeat case_match; simplify_eq/=; eauto.
Qed.

Lemma attemptUpload_succeeds cv fn buf w p :
  upload_reply E (uploadCalls w) = Resolved (Some p) None -> Js.truthy p = true ->
  attemptUpload pe E cv fn buf w =
    (Ok p, nextUpload (emit (uploadEvent pe cv fn buf) w)).
Proof.
  intros Hr Hp. unfold attemptUpload, bind, storageUpload, ret, uploadEvent.
  by rewrite Hr, Hp.
Qed.

(** One failed attempt that is not the last: the loop draws the jitter,
    waits, and goes round again. *)
Lemma retryLoop_failed_round fuel cv idx fn buf a path w :
  a + 1 < MAX_RETRIES ->
  replyFails (upload_reply E (uploadCalls w)) = true ->
  retryLoop pe E (S fuel) cv idx fn buf (a, false, path) w =
    retryLoop pe E fuel cv idx fn buf (a + 1, false, path)
      (emit (EvSleep (retryWaitTime (a + 1) (random E (randomDraws w))))
         (nextRandom (nextUpload (emit (uploadEvent pe cv fn buf) w)))).
Proof.
  intros Ha Hf. simpl.
  destruct (Z.ltb_spec a MAX_RETRIES); [| lia]. simpl.
  destruct (attemptUpload_fails cv fn buf w Hf) as [m Hm].
  unfold bind at 1. unfold tryCatch at 1. unfold bind at 1. rewrite Hm.
  destruct (Z.ltb_spec (a + 1) MAX_RETRIES); [| lia].
  reflexivity.
Qed.

Lemma afterFailedAttempts_0 cv fn buf w :
  afterFailedAttempts pe E cv fn buf w 0 = w.
Proof.
  destruct w. unfold afterFailedAttempts, failedAttemptEvents. simpl.
  rewrite app_nil_r. f_equal; lia.
Qed.

Lemma retryWaitTime_backoff a rnd :
  retryWaitTime a rnd = backoffDelay a (rnd * 2000)%Q.
Proof. reflexivity. Qed.

Lemma failedAttemptEvents_S cv fn buf w k :
  failedAttemptEvents pe E cv fn buf w (S k) =
    failedAttemptEvents pe E cv fn buf w k ++
      [uploadEvent pe cv fn buf;
       EvSleep (backoffDelay (Z.of_nat k + 1) (jitterAt E w k))].
Proof.
  unfold failedAttemptEvents. rewrite seq_S, flat_map_app. reflexivity.
Qed.

Lemma afterFailedAttempts_S cv fn buf w k :
  afterFailedAttempts pe E cv fn buf w (S k) =
    emit (EvSleep (retryWaitTime (Z.of_nat k + 1)
                     (random E (randomDraws (afterFailedAttempts pe E cv fn buf w k)))))
      (nextRandom (nextUpload
         (emit (uploadEvent pe cv fn buf) (afterFailedAttempts pe E cv fn buf w k)))).
Proof.
  unfold afterFailedAttempts at 1. rewrite failedAttemptEvents_S.
  unfold emit, nextRandom, nextUpload, afterFailedAttempts. cbn [db events clockReads
    randomDraws idDraws dbCalls uploadCalls removeCalls metadataCalls].
  rewrite retryWaitTime_backoff. unfold jitterAt.
  rewrite <- !app_assoc. cbn [app].
  f_equal; lia.
Qed.

(** [k] failed attempts in a row, none of them the last. *)
Lemma retryLoop_failed_rounds k : forall fuel cv idx fn buf path w,
  Z.of_nat k < MAX_RETRIES ->
  (forall j, (j < k)%nat -> replyFails (upload_reply E (uploadCalls w + j)) = true) ->
  retryLoop pe E (k + fuel) cv idx fn buf (0, false, path) w =
    retryLoop pe E fuel cv idx fn buf (Z.of_nat k, false, path)
      (afterFailedAttempts pe E cv fn buf w k).
Proof.
  induction k as [| k IH]; intros fuel cv idx fn buf path w Hk Hfail.
  - cbn [Nat.add Z.of_nat]. by rewrite afterFailedAttempts_0.
  - replace (S k + fuel)%nat with (k + S fuel)%nat by lia.
    rewrite IH; [| lia | intros j Hj; apply Hfail; lia].
    rewrite retryLoop_failed_round; [| lia | apply Hfail; lia].
    rewrite afterFailedAttempts_S.
    replace (Z.of_nat k + 1) with (Z.of_nat (S k)) by lia. reflexivity.
Qed.

Lemma retryLoop_success_round fuel cv idx fn buf a path w p :
  a < MAX_RETRIES ->
  upload_reply E (uploadCalls w) = Resolved (Some p) None -> Js.truthy p = true ->
  retryLoop pe E (S (S fuel)) cv idx fn buf (a, false, path) w =
    (Ok (a + 1, true, p), nextUpload (emit (uploadEvent pe cv fn buf) w)).
Proof.
  intros Ha Hr Hp. cbn [retryLoop].
  destruct (Z.ltb_spec a MAX_RETRIES); [| lia]. cbn [negb andb].
  unfold bind at 1. unfold tryCatch at 1. unfold bind at 1.
  rewrite (attemptUpload_succeeds cv fn buf w p Hr Hp).
  unfold ret at 1. cbn [negb andb].
  by rewrite andb_false_r.
Qed.

Lemma retryLoop_last_round fuel cv idx fn buf a path w :
  a < MAX_RETRIES -> MAX_RETRIES <= a + 1 ->
  replyFails (upload_reply E (uploadCalls w)) = true ->
  exists cause,
    retryLoop pe E (S fuel) cv idx fn buf (a, false, path) w =
      (Throw [PStr "AWS failed to upload chunk "; PNum idx; PStr " after ";
              PNum MAX_RETRIES; PStr " attempts. Details: ";
              PDetails idx (a + 1) cause (lengthZ buf) (MB (lengthZ buf)) (bucket cv)
                true (clock E (clockReads w))],
       nextClock (nextUpload (emit (uploadEvent pe cv fn buf) w))).
Proof.
  intros Ha Hlast Hf. cbn [retryLoop].
  destruct (Z.ltb_spec a MAX_RETRIES); [| lia]. cbn [negb andb].
  destruct (attemptUpload_fails cv fn buf w Hf) as [m Hm].
  exists m.
  unfold bind at 1. unfold tryCatch at 1. unfold bind at 1. rewrite Hm.
  destruct (Z.ltb_spec (a + 1) MAX_RETRIES); [lia |].
  reflexivity.
Qed.

(** The loop as [uploadChunk] runs it: [k] failures, then a success. *)
Lemma retryLoop_succeeds_after k cv idx fn buf w p :
  Z.of_nat k < MAX_RETRIES ->
  (forall j, (j < k)%nat -> replyFails (upload_reply E (uploadCalls w + j)) = true) ->
  upload_reply E (uploadCalls w + k) = Resolved (Some p) None -> Js.truthy p = true ->
  retryLoop pe E (S (Z.to_nat MAX_RETRIES)) cv idx fn buf (0, false, "") w =
    (Ok (Z.of_nat k + 1, true, p),
     nextUpload (emit (uploadEvent pe cv fn buf) (afterFailedAttempts pe E cv fn buf w k))).
Proof.
  intros Hk Hfail Hr Hp.
  replace (S (Z.to_nat MAX_RETRIES)) with (k + S (S (Z.to_nat MAX_RETRIES - 1 - k)))%nat
    by (unfold MAX_RETRIES in *; lia).
  rewrite retryLoop_failed_rounds by done.
  by apply retryLoop_success_round.
Qed.

(** The loop as [uploadChunk] runs it: every attempt fails. *)
Lemma retryLoop_exhausts cv idx fn buf w :
  (forall j, (j < Z.to_nat MAX_RETRIES)%nat ->
     replyFails (upload_reply E (uploadCalls w + j)) = true) ->
  let w' := afterFailedAttempts pe E cv fn buf w (Z.to_nat MAX_RETRIES - 1) in
  exists cause,
    retryLoop pe E (S (Z.to_nat MAX_RETRIES)) cv idx fn buf (0, false, "") w =
      (Throw [PStr "AWS failed to upload chunk "; PNum idx; PStr " after ";
              PNum MAX_RETRIES; PStr " attempts. Details: ";
              PDetails idx MAX_RETRIES cause (lengthZ buf) (MB (lengthZ buf)) (bucket cv)
                true (clock E (clockReads w))],
       nextClock (nextUpload (emit (uploadEvent pe cv fn buf) w'))).
Proof.
  intros Hfail w'.
  replace (S (Z.to_nat MAX_RETRIES)) with (Z.to_nat MAX_RETRIES - 1 + 2)%nat
    by (unfold MAX_RETRIES; lia).
  rewrite retryLoop_failed_rounds;
    [| unfold MAX_RETRIES; lia | intros j Hj; apply Hfail; lia].
  fold w'.
  destruct (retryLoop_last_round 1 cv idx fn buf
              (Z.of_nat (Z.to_nat MAX_RETRIES - 1)) "" w') as [cause Hc].
  - unfold MAX_RETRIES; lia.
  - unfold MAX_RETRIES; lia.
  - subst w'. cbn [afterFailedAttempts uploadCalls]. apply Hfail.
    unfold MAX_RETRIES; lia.
  - exists cause. rewrite Hc.
    replace (Z.of_nat (Z.to_nat MAX_RETRIES - 1) + 1) with MAX_RETRIES
      by (unfold MAX_RETRIES; lia).
    reflexivity.
Qed.

Lemma uploadChunk_already vid idx buf w cv rec :
  db_fault E (dbCalls w) = None -> db w !! vid = Some cv ->
  find (fun chunk => chunkIndex chunk =? idx) (uploadedChunks cv) = Some rec ->
  uploadChunk pe E extname vid idx buf w =
    (Ok (AlreadyUploaded idx (chunkPath rec)), nextDb w).
Proof.
  intros Hf Hcv Hfind.
  unfold uploadChunk, tryCatch, bind, findOne, ret.
  by rewrite Hf, Hcv, Hfind.
Qed.

Lemma uploadChunk_succeeds_after k vid idx buf w cv p :
  db_fault E (dbCalls w) = None -> db w !! vid = Some cv ->
  find (fun chunk => chunkIndex chunk =? idx) (uploadedChunks cv) = None ->
  Z.of_nat k < MAX_RETRIES ->
  (forall j, (j < k)%nat -> replyFails (upload_reply E (uploadCalls w + j)) = true) ->
  upload_reply E (uploadCalls w + k) = Resolved (Some p) None -> Js.truthy p = true ->
  let fn := chunkFilenameOf extname cv vid (clock E (clockReads w)) idx in
  let w1 := nextClock (nextUpload (emit (uploadEvent pe cv fn buf)
              (afterFailedAttempts pe E cv fn buf (transferStart w) k))) in
  let saved := recordedSession cv idx p (lengthZ buf) (clock E (S (clockReads w)))
                 (Z.of_nat k + 1) in
  uploadChunk pe E extname vid idx buf w =
    match db_fault E (S (dbCalls w)) with
    | None =>
      (Ok (Uploaded idx p (uploadProgress saved) (isComplete saved) (Z.of_nat k + 1)),
       nextDb (set_db (<[videoId cv := saved]> (db w)) w1))
    | Some msg =>
      (Throw [PStr "AWS failed to upload chunk "; PNum idx; PStr ": "; PStr msg],
       nextDb w1)
    end.
Proof.
  intros Hf Hcv Hfind Hk Hfail Hr Hp fn w1 saved.
  unfold uploadChunk, tryCatch.
  unfold bind at 1. unfold findOne at 1. rewrite Hf, Hcv, Hfind.
  unfold bind at 1. unfold Date_now at 1. cbn [clockReads nextDb].
  fold fn. unfold bind at 1.
  change (nextClock (nextDb w)) with (transferStart w).
  rewrite (retryLoop_succeeds_after k cv idx fn buf (transferStart w) p); try done.
  unfold bind, Date_now, save, ret, set_db, nextDb, nextClock, nextUpload, emit,
    transferStart, afterFailedAttempts, checkCompletion; simpl.
  destruct (db_fault E (S (dbCalls w))); reflexivity.
Qed.

Lemma uploadChunk_exhausts vid idx buf w cv :
  db_fault E (dbCalls w) = None -> db w !! vid = Some cv ->
  find (fun chunk => chunkIndex chunk =? idx) (uploadedChunks cv) = None ->
  (forall j, (j < Z.to_nat MAX_RETRIES)%nat ->
     replyFails (upload_reply E (uploadCalls w + j)) = true) ->
  let fn := chunkFilenameOf extname cv vid (clock E (clockReads w)) idx in
  exists cause,
    uploadChunk pe E extname vid idx buf w =
      (Throw (permanentError idx MAX_RETRIES cause (lengthZ buf) (bucket cv)
                (clock E (S (clockReads w)))),
       nextClock (nextUpload (emit (uploadEvent pe cv fn buf)
         (afterFailedAttempts pe E cv fn buf (transferStart w)
            (Z.to_nat MAX_RETRIES - 1))))).
Proof.
  intros Hf Hcv Hfind Hfail fn.
  destruct (retryLoop_exhausts cv idx fn buf (transferStart w) Hfail) as [cause Hc].
  exists cause.
  unfold uploadChunk, tryCatch.
  unfold bind at 1. unfold findOne at 1. rewrite Hf, Hcv, Hfind.
  unfold bind at 1. unfold Date_now at 1. cbn [clockReads nextDb].
  fold fn. unfold bind at 1.
  change (nextClock (nextDb w)) with (transferStart w).
  rewrite Hc. reflexivity.
Qed.

End WorkerFacts.

(** ** Computations only add requests *)

Lemma Grows_ret {A} (a : A) : Grows (ret a).
Proof. intros w. exists []. simpl. by rewrite app_nil_r. Qed.

Lemma Grows_throw {A} m : Grows (@throw A m).
Proof. intros w. exists []. simpl. by rewrite app_nil_r. Qed.

Lemma Grows_outOfFuel {A} : Grows (@outOfFuel A).
Proof. intros w. exists []. simpl. by rewrite app_nil_r. Qed.

Lemma Grows_bind {A B} (c : M A) (k : A -> M B) :
  Grows c -> (forall a, Grows (k a)) -> Grows (bind c k).
Proof.
  intros Hc Hk w. unfold bind. destruct (Hc w) as [l Hl].
  destruct (c w) as [[a | m |] w1]; simpl in *; [| by exists l ..].
  destruct (Hk a w1) as [l' Hl']. exists (l ++ l').
  by rewrite Hl', Hl, app_assoc.
Qed.

Lemma Grows_tryCatch {A} (c : M A) (h : Message -> M A) :
  Grows c -> (forall m, Grows (h m)) -> Grows (tryCatch c h).
Proof.
  intros Hc Hh w. unfold tryCatch. destruct (Hc w) as [l Hl].
  destruct (c w) as [[a | m |] w1]; simpl in *; [by exists l | | by exists l].
  destruct (Hh m w1) as [l' Hl']. exists (l ++ l').
  by rewrite Hl', Hl, app_assoc.
Qed.

Section GrowsFacts.

Variable pe : ProcessEnv.
Variable E : Oracle.
Variable extname : string -> string.
Variable getPublicUrl : string -> string -> string.

Lemma Grows_Date_now : Grows (Date_now E).
Proof. intros w. exists []. simpl. by rewrite app_nil_r. Qed.

Lemma Grows_Math_random : Grows (Math_random E).
Proof. intros w. exists []. simpl. by rewrite app_nil_r. Qed.

Lemma Grows_generateVideoId : Grows (generateVideoId E).
Proof. intros w. exists []. simpl. by rewrite app_nil_r. Qed.

Lemma Grows_findOne id : Grows (findOne E id).
Proof.
  intros w. exists []. unfold findOne.
  destruct (db_fault E (dbCalls w)); simpl; by rewrite app_nil_r.
Qed.

Lemma Grows_save cv : Grows (save E cv).
Proof.
  intros w. exists []. unfold save.
  destruct (db_fault E (dbCalls w)); simpl; by rewrite app_nil_r.
Qed.

Lemma Grows_deleteOne id : Grows (deleteOne E id).
Proof.
  intros w. exists []. unfold deleteOne.
  destruct (db_fault E (dbCalls w)); simpl; by rewrite app_nil_r.
Qed.

Lemma Grows_storageUpload b p body ct up t tm :
  Grows (storageUpload E b p body ct up t tm).
Proof.
  intros w. exists [EvUpload b p body ct up t]. unfold storageUpload.
  by destruct (upload_reply E (uploadCalls w)).
Qed.

Lemma Grows_storageRemove b ps t tm : Grows (storageRemove E b ps t tm).
Proof.
  intros w. exists [EvRemove b ps t]. unfold storageRemove.
  by destruct (remove_reply E (removeCalls w)).
Qed.

Lemma Grows_sleep ms : Grows (sleep ms).
Proof. intros w. by exists [EvSleep ms]. Qed.

Lemma Grows_extractVideoMetadata : Grows (extractVideoMetadata E).
Proof.
  intros w. exists []. unfold extractVideoMetadata.
  destruct (metadata_duration E (metadataCalls w)); simpl; by rewrite app_nil_r.
Qed.

End GrowsFacts.

Create HintDb grows.

#[local] Hint Resolve Grows_ret Grows_throw Grows_outOfFuel Grows_Date_now
  Grows_Math_random Grows_generateVideoId Grows_findOne Grows_save Grows_deleteOne
  Grows_storageUpload Grows_storageRemove Grows_sleep Grows_extractVideoMetadata
  : grows.

Ltac grows :=
  repeat first
    [ progress auto with grows
    | apply Grows_bind; [| intros ? ]
    | apply Grows_tryCatch; [| intros ? ]
    | match goal with
      | |- Grows (match ?x with _ => _ end) => destruct x
      | |- Grows (let '(_, _) := ?x in _) => destruct x
      end ].

Section GrowsFunctions.

Variable pe : ProcessEnv.
Variable E : Oracle.
Variable extname : string -> string.
Variable getPublicUrl : string -> string -> string.

Lemma Grows_attemptUpload cv fn buf : Grows (attemptUpload pe E cv fn buf).
Proof. unfold attemptUpload. grows. Qed.

Lemma Grows_retryLoop fuel : forall cv idx fn buf st,
  Grows (retryLoop pe E fuel cv idx fn buf st).
Proof.
  induction fuel as [| fuel IH]; intros cv idx fn buf [[a s] p]; simpl.
  - grows.
  - pose proof Grows_attemptUpload. grows.
Qed.

Lemma Grows_uploadChunk vid idx buf : Grows (uploadChunk pe E extname vid idx buf).
Proof. unfold uploadChunk. pose proof Grows_retryLoop. grows. Qed.

Lemma Grows_cleanupChunks vid force : Grows (cleanupChunks E vid force).
Proof. unfold cleanupChunks. grows. Qed.

Lemma Grows_completeChunkedUpload vid :
  Grows (completeChunkedUpload pe E extname getPublicUrl vid).
Proof. unfold completeChunkedUpload. grows. Qed.

End GrowsFunctions.

(** ** Computations end *)

Lemma Terminates_ret {A} (a : A) : Terminates (ret a).
Proof. by intros w. Qed.

Lemma Terminates_throw {A} m : Terminates (@throw A m).
Proof. by intros w. Qed.

Lemma Terminates_bind {A B} (c : M A) (k : A -> M B) :
  Terminates c -> (forall a, Terminates (k a)) -> Terminates (bind c k).
Proof.
  intros Hc Hk w. unfold bind. specialize (Hc w).
  destruct (c w) as [[a | m |] w1]; simpl in *; [apply Hk | done | done].
Qed.

Lemma Terminates_tryCatch {A} (c : M A) (h : Message -> M A) :
  Terminates c -> (forall m, Terminates (h m)) -> Terminates (tryCatch c h).
Proof.
  intros Hc Hh w. unfold tryCatch. specialize (Hc w).
  destruct (c w) as [[a | m |] w1]; simpl in *; [done | apply Hh | done].
Qed.

Section TerminatesFacts.

Variable pe : ProcessEnv.
Variable E : Oracle.
Variable extname : string -> string.
Variable getPublicUrl : string -> string -> string.

Lemma Terminates_Date_now : Terminates (Date_now E).
Proof. by intros w. Qed.

Lemma Terminates_Math_random : Terminates (Math_random E).
Proof. by intros w. Qed.

Lemma Terminates_generateVideoId : Terminates (generateVideoId E).
Proof. by intros w. Qed.

Lemma Terminates_findOne id : Terminates (findOne E id).
Proof. intros w. unfold findOne. by destruct (db_fault E (dbCalls w)). Qed.

Lemma Terminates_save cv : Terminates (save E cv).
Proof. intros w. unfold save. by destruct (db_fault E (dbCalls w)). Qed.

Lemma Terminates_deleteOne id : Terminates (deleteOne E id).
Proof. intros w. unfold deleteOne. by destruct (db_fault E (dbCalls w)). Qed.

Lemma Terminates_storageUpload b p body ct up t tm :
  Terminates (storageUpload E b p body ct up t tm).
Proof. intros w. unfold storageUpload. by destruct (upload_reply E (uploadCalls w)). Qed.

Lemma Terminates_storageRemove b ps t tm : Terminates (storageRemove E b ps t tm).
Proof. intros w. unfold storageRemove. by destruct (remove_reply E (removeCalls w)). Qed.

Lemma Terminates_sleep ms : Terminates (sleep ms).
Proof. by intros w. Qed.

Lemma Terminates_extractVideoMetadata : Terminates (extractVideoMetadata E).
Proof.
  intros w. unfold extractVideoMetadata.
  by destruct (metadata_duration E (metadataCalls w)).
Qed.

End TerminatesFacts.

Create HintDb terminates.

#[local] Hint Resolve Terminates_ret Terminates_throw Terminates_Date_now
  Terminates_Math_random Terminates_generateVideoId Terminates_findOne Terminates_save
  Terminates_deleteOne Terminates_storageUpload Terminates_storageRemove Terminates_sleep
  Terminates_extractVideoMetadata : terminates.

Ltac terminates :=
  repeat first
    [ progress auto with terminates
    | apply Terminates_bind; [| intros ? ]
    | apply Terminates_tryCatch; [| intros ? ]
    | match goal with
      | |- Terminates (match ?x with _ => _ end) => destruct x
      | |- Terminates (let '(_, _) := ?x in _) => destruct x
      end ].

Section TerminatesFunctions.

Variable pe : ProcessEnv.
Variable E : Oracle.
Variable extname : string -> string.
Variable getPublicUrl : string -> string -> string.

Lemma Terminates_attemptUpload cv fn buf : Terminates (attemptUpload pe E cv fn buf).
Proof. unfold attemptUpload. terminates. Qed.

(** The retry loop ends within [MAX_RETRIES - uploadAttempts] rounds
    and the test that leaves it. *)
Lemma Terminates_retryLoop fuel : forall cv idx fn buf a s p,
  (Z.to_nat (MAX_RETRIES - a) < fuel)%nat ->
  Terminates (retryLoop pe E fuel cv idx fn buf (a, s, p)).
Proof.
  induction fuel as [| fuel IH]; intros cv idx fn buf a s p Hfuel w; [lia |].
  cbn [retryLoop].
  destruct (Z.ltb_spec a MAX_RETRIES); cbn [andb]; [| done].
  destruct s; cbn [negb]; [done |].
  unfold bind at 1. unfold tryCatch at 1. unfold bind at 1.
  pose proof (Terminates_attemptUpload cv fn buf w) as Hat.
  destruct (attemptUpload pe E cv fn buf w) as [[p' | m |] w1]; simpl in Hat.
  - unfold ret at 1. apply IH. lia.
  - destruct (Z.ltb_spec (a + 1) MAX_RETRIES).
    + unfold bind, Math_random, sleep, ret. apply IH. lia.
    + done.
  - done.
Qed.

Lemma Terminates_uploadChunk vid idx buf : Terminates (uploadChunk pe E extname vid idx buf).
Proof.
  unfold uploadChunk.
  assert (Hloop : forall cv fn, Terminates
            (retryLoop pe E (S (Z.to_nat MAX_RETRIES)) cv idx fn buf (0, false, "")))
    by (intros; apply Terminates_retryLoop; lia).
  terminates.
Qed.

Lemma Terminates_cleanupChunks vid force : Terminates (cleanupChunks E vid force).
Proof. unfold cleanupChunks. terminates. Qed.

Lemma Terminates_completeChunkedUpload vid :
  Terminates (completeChunkedUpload pe E extname getPublicUrl vid).
Proof. unfold completeChunkedUpload. terminates. Qed.

Lemma Terminates_initializeChunkedUpload file fld :
  Terminates (initializeChunkedUpload pe E file fld).
Proof. unfold initializeChunkedUpload. terminates. Qed.

End TerminatesFunctions.

(** ** The indices the scheduler dispatches *)

Lemma Yields_ret {A} (P : A -> Prop) a : P a -> Yields P (ret a).
Proof. intros Ha w a' w' Heq. unfold ret in Heq. by simplify_eq. Qed.

Lemma Yields_throw {A} (P : A -> Prop) m : Yields P (throw m).
Proof. intros w a w' Heq. discriminate. Qed.

Lemma Yields_bind {A B} (P : B -> Prop) (c : M A) (k : A -> M B) :
  (forall a, Yields P (k a)) -> Yields P (bind c k).
Proof.
  intros Hk w b w' Heq. unfold bind in Heq.
  destruct (c w) as [[a | m |] w1]; [by eapply Hk | discriminate | discriminate].
Qed.

Lemma Yields_tryCatch {A} (P : A -> Prop) (c : M A) (h : Message -> M A) :
  Yields P c -> (forall m, Yields P (h m)) -> Yields P (tryCatch c h).
Proof.
  intros Hc Hh w a w' Heq. unfold tryCatch in Heq.
  destruct (c w) as [[a' | m |] w1] eqn:Hrun;
    [simplify_eq; by eapply Hc | by eapply Hh | discriminate].
Qed.

Section IndexFacts.

Variable pe : ProcessEnv.
Variable E : Oracle.
Variable extname : string -> string.

Lemma uploadChunk_result_index vid idx buf :
  Yields (fun r => resultIndex r = idx) (uploadChunk pe E extname vid idx buf).
Proof.
  unfold uploadChunk.
  apply Yields_tryCatch; [| intros; apply Yields_throw].
  apply Yields_bind. intros [cv |]; [| apply Yields_throw].
  destruct (find _ _); [by apply Yields_ret |].
  apply Yields_bind. intros timestamp.
  apply Yields_bind. intros [[a s] p].
  apply Yields_bind. intros now.
  destruct (checkCompletion _) as [checked complete].
  apply Yields_bind. intros _. by apply Yields_ret.
Qed.

Lemma indexRange_empty a b : b <= a -> indexRange a b = [].
Proof. intros H. unfold indexRange. by replace (Z.to_nat (b - a)) with 0%nat by lia. Qed.

Lemma map_seq_from {A} (f g : nat -> A) x n :
  (forall k, f (x + k)%nat = g k) -> map f (seq x n) = map g (seq 0 n).
Proof.
  intros Hfg.
  assert (H : forall s, map f (seq (x + s) n) = map g (seq s n)).
  { induction n as [| n IH]; intros s; simpl; [done |].
    rewrite Hfg. f_equal. rewrite <- IH. f_equal. f_equal. lia. }
  rewrite <- (H 0%nat). f_equal. f_equal. lia.
Qed.

Lemma indexRange_split a m b :
  a <= m <= b -> indexRange a m ++ indexRange m b = indexRange a b.
Proof.
  intros H. unfold indexRange.
  replace (Z.to_nat (b - a)) with (Z.to_nat (m - a) + Z.to_nat (b - m))%nat by lia.
  rewrite seq_app, map_app. f_equal. cbn [Nat.add].
  symmetry. apply map_seq_from. intros k. lia.
Qed.

Lemma indices_indexRange n : indices n = indexRange 0 n.
Proof.
  unfold indices, indexRange. rewrite Z.sub_0_r. apply map_ext. intros k. lia.
Qed.

End IndexFacts.

(** ** Idempotence, retries and paths of the worker *)

Lemma find_index_present idx (chunks : list ChunkRecord) :
  In idx (map chunkIndex chunks) ->
  exists rec, find (fun chunk => chunkIndex chunk =? idx) chunks = Some rec /\
              In rec chunks /\ chunkIndex rec = idx.
Proof.
  intros Hin. destruct (find _ chunks) as [rec |] eqn:Hfind.
  - apply find_some in Hfind as [Hrec Heq]. exists rec. repeat split; [done | lia].
  - apply in_map_iff in Hin as (rec & Hidx & Hrec).
    pose proof (find_none _ _ Hfind rec Hrec) as Hne. simpl in Hne. lia.
Qed.

Lemma find_snoc {A} (f : A -> bool) (l : list A) (x : A) :
  find f l = None -> find f (l ++ [x]) = if f x then Some x else None.
Proof.
  induction l as [| y l IH]; simpl; [done |].
  destruct (f y); [discriminate | done].
Qed.

(** C2. [uploadChunk] is idempotent per index: when the index is
    already recorded in the session that is read, the call returns
    [already_uploaded] with the recorded path, sends no request to the
    storage service, and leaves the collection as it was. *)
Theorem uploadChunk_idempotent (pe : ProcessEnv) (E : Oracle) (extname : string -> string)
    (vid : string) (idx : Z) (buf : list Byte.byte) (w : World) (cv : ChunkedVideo) :
  db_fault E (dbCalls w) = None ->
  db w !! vid = Some cv ->
  In idx (map chunkIndex (uploadedChunks cv)) ->
  exists rec w',
    In rec (uploadedChunks cv) /\ chunkIndex rec = idx /\
    uploadChunk pe E extname vid idx buf w
      = (Ok (AlreadyUploaded idx (chunkPath rec)), w') /\
    db w' = db w /\ events w' = events w /\ uploadCalls w' = uploadCalls w.
Proof.
  intros Hf Hcv Hin.
  destruct (find_index_present idx _ Hin) as (rec & Hfind & Hrec & Hidx).
  exists rec, (nextDb w). repeat split; try done.
  by apply uploadChunk_already with cv.
Qed.

Lemma uploadChunk_idempotent_witness :
  exists w',
    uploadChunk Fixture.pe Fixture.calm Fixture.extname "abcd" 0 [Byte.x01]
        (Fixture.holding Fixture.partial)
      = (Ok (AlreadyUploaded 0 "videos/chunks/abcd/1_chunk_0000.mp4"), w') /\
    db w' = db (Fixture.holding Fixture.partial) /\ events w' = [].
Proof.
  destruct (uploadChunk_idempotent Fixture.pe Fixture.calm Fixture.extname "abcd" 0
              [Byte.x01] (Fixture.holding Fixture.partial) Fixture.partial)
    as (rec & w' & Hrec & Hidx & Hrun & Hdb & Hev & _).
  - reflexivity.
  - reflexivity.
  - simpl. left. reflexivity.
  - exists w'. split; [| by split].
    rewrite Hrun. simpl in Hrec. destruct Hrec as [<- | []]. reflexivity.
Defined.

(** Uploading the same index twice in a row: the second call answers
    [already_uploaded] with the path the first call recorded, and
    changes nothing. *)
Lemma uploadChunk_twice (pe : ProcessEnv) (E : Oracle) (extname : string -> string)
    (vid : string) (idx : Z) (buf buf' : list Byte.byte) (w : World) (cv : ChunkedVideo)
    (k : nat) (p : string) :
  db_fault E (dbCalls w) = None -> db w !! vid = Some cv -> videoId cv = vid ->
  find (fun chunk => chunkIndex chunk =? idx) (uploadedChunks cv) = None ->
  Z.of_nat k < MAX_RETRIES ->
  (forall j, (j < k)%nat -> replyFails (upload_reply E (uploadCalls w + j)) = true) ->
  upload_reply E (uploadCalls w + k) = Resolved (Some p) None -> Js.truthy p = true ->
  db_fault E (S (dbCalls w)) = None -> db_fault E (S (S (dbCalls w))) = None ->
  exists prog complete w1,
    uploadChunk pe E extname vid idx buf w
      = (Ok (Uploaded idx p prog complete (Z.of_nat k + 1)), w1) /\
    uploadChunk pe E extname vid idx buf' w1 = (Ok (AlreadyUploaded idx p), nextDb w1).
Proof.
  intros Hf Hcv Hvid Hfind Hk Hfail Hr Hp Hs Hf2.
  pose proof (uploadChunk_succeeds_after pe E extname k vid idx buf w cv p
                Hf Hcv Hfind Hk Hfail Hr Hp) as Hfirst.
  cbv zeta in Hfirst. rewrite Hs in Hfirst.
  eexists _, _, _. split; [exact Hfirst |].
  set (rec := mkChunkRecord idx p (lengthZ buf) (clock E (S (clockReads w)))
                (Z.of_nat k + 1) true).
  rewrite (uploadChunk_already pe E extname vid idx buf' _
             (recordedSession cv idx p (lengthZ buf) (clock E (S (clockReads w)))
                (Z.of_nat k + 1)) rec); [done | done | |].
  - cbn [db nextDb set_db]. rewrite Hvid. apply lookup_insert_eq.
  - unfold recordedSession, checkCompletion, calculateProgress. cbn.
    rewrite find_snoc by done. cbn. by rewrite Z.eqb_refl.
Qed.

(** C3. On an index that is not yet recorded: when the transfer fails
    on the first [MAX_RETRIES - 1] attempts and succeeds on the next
    one (and the record is saved), the call returns [uploaded] with
    [uploadAttempts = MAX_RETRIES], and the saved record holds that
    count; when all [MAX_RETRIES] attempts fail, the call throws the
    permanent transfer error, whose details carry the chunk index, the
    attempt count, the byte size of the chunk, the bucket and a
    timestamp, and the collection is left as it was. *)
Theorem uploadChunk_retry_budget (pe : ProcessEnv) (E : Oracle)
    (extname : string -> string) (vid : string) (idx : Z) (buf : list Byte.byte)
    (w : World) (cv : ChunkedVideo) :
  db_fault E (dbCalls w) = None ->
  db w !! vid = Some cv ->
  find (fun chunk => chunkIndex chunk =? idx) (uploadedChunks cv) = None ->
  (forall p,
     (forall j, (j < Z.to_nat (MAX_RETRIES - 1))%nat ->
        replyFails (upload_reply E (uploadCalls w + j)) = true) ->
     upload_reply E (uploadCalls w + Z.to_nat (MAX_RETRIES - 1)) = Resolved (Some p) None ->
     Js.truthy p = true ->
     db_fault E (S (dbCalls w)) = None ->
     exists prog complete w' saved,
       uploadChunk pe E extname vid idx buf w
         = (Ok (Uploaded idx p prog complete MAX_RETRIES), w') /\
       db w' !! videoId cv = Some saved /\
       uploadedChunks saved
         = uploadedChunks cv ++
             [mkChunkRecord idx p (lengthZ buf) (clock E (S (clockReads w)))
                MAX_RETRIES true]) /\
  ((forall j, (j < Z.to_nat MAX_RETRIES)%nat ->
      replyFails (upload_reply E (uploadCalls w + j)) = true) ->
   exists cause w',
     uploadChunk pe E extname vid idx buf w
       = (Throw
            [PStr "AWS failed to upload chunk "; PNum idx; PStr ": ";
             PStr "AWS failed to upload chunk "; PNum idx; PStr " after ";
             PNum MAX_RETRIES; PStr " attempts. Details: ";
             PDetails idx MAX_RETRIES cause (lengthZ buf) (MB (lengthZ buf)) (bucket cv)
               true (clock E (S (clockReads w)))], w') /\
     db w' = db w).
Proof.
  intros Hf Hcv Hfind. split.
  - intros p Hfail Hr Hp Hs.
    pose proof (uploadChunk_succeeds_after pe E extname (Z.to_nat (MAX_RETRIES - 1))
                  vid idx buf w cv p Hf Hcv Hfind) as Hrun.
    cbv zeta in Hrun. rewrite Hs in Hrun.
    replace (Z.of_nat (Z.to_nat (MAX_RETRIES - 1)) + 1) with MAX_RETRIES in Hrun
      by (unfold MAX_RETRIES; lia).
    eexists _, _, _, _. split; [apply Hrun; try done; unfold MAX_RETRIES; lia |].
    split; [cbn [db nextDb set_db]; apply lookup_insert_eq | reflexivity].
  - intros Hfail.
    destruct (uploadChunk_exhausts pe E extname vid idx buf w cv Hf Hcv Hfind Hfail)
      as [cause Hrun].
    exists cause. eexists. split; [exact Hrun | reflexivity].
Qed.

Lemma uploadChunk_retry_budget_witness :
  (exists prog complete w',
     uploadChunk Fixture.pe (Fixture.failing_first 4) Fixture.extname "abcd" 1
         [Byte.x01; Byte.x02] (Fixture.holding Fixture.partial)
       = (Ok (Uploaded 1 "p4" prog complete 5), w')) /\
  (exists cause w',
     uploadChunk Fixture.pe Fixture.hostile Fixture.extname "abcd" 1
         [Byte.x01; Byte.x02] (Fixture.holding Fixture.partial)
       = (Throw
            [PStr "AWS failed to upload chunk "; PNum 1; PStr ": ";
             PStr "AWS failed to upload chunk "; PNum 1; PStr " after ";
             PNum 5; PStr " attempts. Details: ";
             PDetails 1 5 cause 2 (MB 2) "videos" true 1001], w')).
Proof.
  split.
  - destruct (uploadChunk_retry_budget Fixture.pe (Fixture.failing_first 4)
                Fixture.extname "abcd" 1 [Byte.x01; Byte.x02]
                (Fixture.holding Fixture.partial) Fixture.partial
                eq_refl eq_refl eq_refl) as [Hok _].
    destruct (Hok "p4") as (prog & complete & w' & saved & Hrun & _).
    + intros j Hj. simpl. destruct (Nat.ltb_spec j 4); [reflexivity |].
      unfold MAX_RETRIES in Hj. lia.
    + reflexivity.
    + reflexivity.
    + reflexivity.
    + by exists prog, complete, w'.
  - destruct (uploadChunk_retry_budget Fixture.pe Fixture.hostile
                Fixture.extname "abcd" 1 [Byte.x01; Byte.x02]
                (Fixture.holding Fixture.partial) Fixture.partial
                eq_refl eq_refl eq_refl) as [_ Hfail].
    destruct Hfail as (cause & w' & Hrun & _).
    + intros j Hj. reflexivity.
    + by exists cause, w'.
Defined.

Section BackoffFacts.

Variable pe : ProcessEnv.
Variable E : Oracle.
Variable extname : string -> string.

Lemma tryCatch_bind_congr {A B} (c c' : M A) (K : A -> M B) (H : Message -> M B) w w' :
  c w = c' w' -> tryCatch (bind c K) H w = tryCatch (bind c' K) H w'.
Proof. intros Heq. unfold tryCatch, bind. by rewrite Heq. Qed.

(** An invocation that reaches the transfer stage is the retry loop,
    started after the lookup and the clock reading, followed by steps
    that only add requests. *)
Lemma uploadChunk_transfer_form vid idx buf w cv :
  db_fault E (dbCalls w) = None -> db w !! vid = Some cv ->
  find (fun chunk => chunkIndex chunk =? idx) (uploadedChunks cv) = None ->
  exists (K : RetryState -> M ChunkResult) (H : Message -> M ChunkResult),
    (forall st, Grows (K st)) /\ (forall m, Grows (H m)) /\
    uploadChunk pe E extname vid idx buf w =
      tryCatch
        (bind (retryLoop pe E (S (Z.to_nat MAX_RETRIES)) cv idx
                 (chunkFilenameOf extname cv vid (clock E (clockReads w)) idx) buf
                 (0, false, "")) K)
        H (transferStart w).
Proof.
  intros Hf Hcv Hfind.
  eexists (fun st => let '(attempts, _, path) := st in _), (fun error => _).
  split; [| split]; cycle 2.
  - unfold uploadChunk, tryCatch.
    unfold bind at 1. unfold findOne at 1. rewrite Hf, Hcv, Hfind.
    unfold bind at 1. unfold Date_now at 1. cbn [clockReads nextDb].
    unfold bind at 1. reflexivity.
  - intros [[a s] p]. grows.
  - intros m. grows.
Qed.

Lemma uploadChunk_backoff_prefix k vid idx buf w cv :
  db_fault E (dbCalls w) = None -> db w !! vid = Some cv ->
  find (fun chunk => chunkIndex chunk =? idx) (uploadedChunks cv) = None ->
  Z.of_nat k < MAX_RETRIES ->
  (forall j, (j < k)%nat -> replyFails (upload_reply E (uploadCalls w + j)) = true) ->
  exists rest,
    events (snd (uploadChunk pe E extname vid idx buf w)) =
      events w ++
      failedAttemptEvents pe E cv
        (chunkFilenameOf extname cv vid (clock E (clockReads w)) idx) buf
        (transferStart w) k ++ rest.
Proof.
  intros Hf Hcv Hfind Hk Hfail.
  destruct (uploadChunk_transfer_form vid idx buf w cv Hf Hcv Hfind)
    as (K & H & HK & HH & ->).
  set (fn := chunkFilenameOf extname cv vid (clock E (clockReads w)) idx).
  rewrite (tryCatch_bind_congr _
             (retryLoop pe E (S (Z.to_nat MAX_RETRIES) - k) cv idx fn buf
                (Z.of_nat k, false, "")) K H _
             (afterFailedAttempts pe E cv fn buf (transferStart w) k)).
  - destruct (Grows_tryCatch _ H
                (Grows_bind _ K
                   (Grows_retryLoop pe E (S (Z.to_nat MAX_RETRIES) - k) cv idx fn buf
                      (Z.of_nat k, false, "")) HK) HH
                (afterFailedAttempts pe E cv fn buf (transferStart w) k)) as [rest Hrest].
    exists rest. rewrite Hrest. cbn [events afterFailedAttempts transferStart nextClock nextDb].
    by rewrite app_assoc.
  - replace (S (Z.to_nat MAX_RETRIES)) with (k + (S (Z.to_nat MAX_RETRIES) - k))%nat at 1
      by (unfold MAX_RETRIES in *; lia).
    by apply retryLoop_failed_rounds.
Qed.

Lemma jitter_range w j :
  (forall n, (0 <= random E n)%Q /\ (random E n < 1)%Q) ->
  (0 <= jitterAt E w j)%Q /\ (jitterAt E w j < 2000)%Q.
Proof.
  intros Hr. unfold jitterAt.
  destruct (Hr (randomDraws w + j)%nat) as [H0 H1].
  destruct (random E (randomDraws w + j)) as [a b].
  unfold Qle, Qlt in *. simpl in *. lia.
Qed.

End BackoffFacts.

(** C4. After each failed attempt that is not the last, the worker
    waits [min(baseDelay * 2^(attempt-1) + jitter, cap)] before the
    next attempt, with [baseDelay = RETRY_DELAY_BASE = 2000], cap
    [30000], and a jitter of [Math.random() * 2000], which lies in
    [[0, 2000)]: when the first [k < MAX_RETRIES] attempts of an
    invocation fail, its requests begin with, for each of them in
    turn, the transfer and then that wait. After the last attempt
    there is no wait: when all attempts fail, the requests are exactly
    those of [MAX_RETRIES - 1] attempts with their waits and the final
    transfer. *)
Theorem retry_backoff_delay (pe : ProcessEnv) (E : Oracle) (extname : string -> string)
    (vid : string) (idx : Z) (buf : list Byte.byte) (w : World) (cv : ChunkedVideo)
    (k : nat) :
  db_fault E (dbCalls w) = None ->
  db w !! vid = Some cv ->
  find (fun chunk => chunkIndex chunk =? idx) (uploadedChunks cv) = None ->
  Z.of_nat k < MAX_RETRIES ->
  (forall j, (j < k)%nat -> replyFails (upload_reply E (uploadCalls w + j)) = true) ->
  (forall n, (0 <= random E n)%Q /\ (random E n < 1)%Q) ->
  let fn := chunkFilenameOf extname cv vid (clock E (clockReads w)) idx in
  let jitter := fun j => (random E (randomDraws w + j) * 2000)%Q in
  let waits := fun n =>
    flat_map
      (fun j => [uploadEvent pe cv fn buf;
                 EvSleep (Qmin (inject_Z (RETRY_DELAY_BASE * 2 ^ (Z.of_nat j + 1 - 1))
                                + jitter j) 30000)])
      (seq 0 n) in
  RETRY_DELAY_BASE = 2000 /\
  (forall j, (0 <= jitter j)%Q /\ (jitter j < 2000)%Q) /\
  (exists rest,
     events (snd (uploadChunk pe E extname vid idx buf w)) = events w ++ waits k ++ rest) /\
  ((forall j, (j < Z.to_nat MAX_RETRIES)%nat ->
      replyFails (upload_reply E (uploadCalls w + j)) = true) ->
   events (snd (uploadChunk pe E extname vid idx buf w))
     = events w ++ waits (Z.to_nat MAX_RETRIES - 1)%nat ++ [uploadEvent pe cv fn buf]).
Proof.
  intros Hf Hcv Hfind Hk Hfail Hrnd fn jitter waits.
  split; [reflexivity |].
  split; [intros j; apply (jitter_range E (transferStart w) j Hrnd) |].
  split.
  - apply (uploadChunk_backoff_prefix pe E extname k vid idx buf w cv); done.
  - intros Hall.
    destruct (uploadChunk_exhausts pe E extname vid idx buf w cv Hf Hcv Hfind Hall)
      as [cause Hrun].
    rewrite Hrun. cbn [snd events nextClock nextUpload emit afterFailedAttempts].
    by rewrite <- app_assoc.
Qed.

Lemma retry_backoff_delay_witness :
  exists rest,
    events (snd (uploadChunk Fixture.pe (Fixture.failing_first 4) Fixture.extname "abcd" 1
                   [Byte.x01; Byte.x02] (Fixture.holding Fixture.partial)))
    = [EvUpload "videos" "videos/chunks/abcd/1000_chunk_0001.mp4"
         (Bytes [Byte.x01; Byte.x02]) "application/octet-stream" false 300000;
       EvSleep (Qmin (inject_Z (2000 * 2 ^ 0) + (1 # 2) * 2000) 30000);
       EvUpload "videos" "videos/chunks/abcd/1000_chunk_0001.mp4"
         (Bytes [Byte.x01; Byte.x02]) "application/octet-stream" false 300000;
       EvSleep (Qmin (inject_Z (2000 * 2 ^ 1) + (1 # 2) * 2000) 30000)] ++ rest.
Proof.
  destruct (retry_backoff_delay Fixture.pe (Fixture.failing_first 4) Fixture.extname
              "abcd" 1 [Byte.x01; Byte.x02] (Fixture.holding Fixture.partial)
              Fixture.partial 2 eq_refl eq_refl eq_refl) as (_ & _ & [rest Hrest] & _).
  - reflexivity.
  - intros j Hj. simpl. destruct (Nat.ltb_spec j 4); [reflexivity | lia].
  - intros n. split; unfold Qle, Qlt; simpl; lia.
  - exists rest. rewrite Hrest. reflexivity.
Defined.

Section PathFacts.

Variable pe : ProcessEnv.
Variable E : Oracle.
Variable extname : string -> string.

Lemma append_inv_tail a : forall b r, a +:+ r = b +:+ r -> a = b.
Proof.
  induction a as [| c a IH]; intros [| d b] r Heq.
  - done.
  - apply (f_equal String.length) in Heq.
    rewrite !string_length_app in Heq. simpl in Heq. lia.
  - apply (f_equal String.length) in Heq.
    rewrite !string_length_app in Heq. simpl in Heq. lia.
  - change (String c (a +:+ r) = String d (b +:+ r)) in Heq.
    injection Heq as -> Heq. f_equal. by eapply IH.
Qed.

(** The path embeds the clock reading: two readings give two paths. *)
Lemma chunkFilenameOf_time cv cv' vid t t' idx :
  folder cv' = folder cv -> originalFilename cv' = originalFilename cv ->
  t' <> t ->
  chunkFilenameOf extname cv' vid t' idx <> chunkFilenameOf extname cv vid t idx.
Proof.
  intros Hfld Hname Hne Heq. unfold chunkFilenameOf in Heq.
  rewrite Hfld, Hname in Heq.
  do 4 apply String.app_inj in Heq.
  apply append_inv_tail in Heq.
  unfold Js.toString in Heq. by apply pretty_Z_inj in Heq.
Qed.

(** Among the first [m] replies from position [n], either some reply
    succeeds after only failures, or all fail. *)
Lemma replies_cases n m :
  (exists k p, (k < m)%nat /\
     (forall j, (j < k)%nat -> replyFails (upload_reply E (n + j)) = true) /\
     upload_reply E (n + k) = Resolved (Some p) None /\ Js.truthy p = true) \/
  (forall j, (j < m)%nat -> replyFails (upload_reply E (n + j)) = true).
Proof.
  induction m as [| m [(k & p & Hk & H) | Hall]].
  - right. intros j Hj. lia.
  - left. exists k, p. split; [lia | done].
  - destruct (replyFails (upload_reply E (n + m))) eqn:Hm.
    + right. intros j Hj. destruct (decide (j = m)) as [-> | ?]; [done |].
      apply Hall. lia.
    + apply replyFails_false in Hm as (p & Hr & Hp).
      left. exists m, p. split; [lia | done].
Qed.

(** Every invocation that reaches the transfer stage sends between one
    and [MAX_RETRIES] transfers, all of them the same request, each but
    the last followed by a wait. *)
Lemma uploadChunk_transfer_events vid idx buf w cv :
  db_fault E (dbCalls w) = None -> db w !! vid = Some cv ->
  find (fun chunk => chunkIndex chunk =? idx) (uploadedChunks cv) = None ->
  let fn := chunkFilenameOf extname cv vid (clock E (clockReads w)) idx in
  exists k, Z.of_nat k < MAX_RETRIES /\
    events (snd (uploadChunk pe E extname vid idx buf w)) =
      events w ++ failedAttemptEvents pe E cv fn buf (transferStart w) k
        ++ [uploadEvent pe cv fn buf].
Proof.
  intros Hf Hcv Hfind fn.
  destruct (replies_cases (uploadCalls w) (Z.to_nat MAX_RETRIES))
    as [(k & p & Hk & Hfail & Hr & Hp) | Hall].
  - exists k. split; [lia |].
    rewrite (uploadChunk_succeeds_after pe E extname k vid idx buf w cv p);
      [| done | done | done | lia | done | done | done].
    fold fn.
    destruct (db_fault E (S (dbCalls w)));
      cbn [snd events nextDb set_db nextClock nextUpload emit afterFailedAttempts];
      by rewrite <- app_assoc.
  - exists (Z.to_nat MAX_RETRIES - 1)%nat. split; [unfold MAX_RETRIES; lia |].
    destruct (uploadChunk_exhausts pe E extname vid idx buf w cv Hf Hcv Hfind Hall)
      as [cause Hrun].
    rewrite Hrun. fold fn.
    cbn [snd events nextClock nextUpload emit afterFailedAttempts].
    by rewrite <- app_assoc.
Qed.

Lemma failedAttemptEvents_uploads cv fn buf w k e :
  In e (failedAttemptEvents pe E cv fn buf w k) ->
  e = uploadEvent pe cv fn buf \/ exists ms, e = EvSleep ms.
Proof.
  unfold failedAttemptEvents. intros Hin.
  apply in_flat_map in Hin as (j & _ & [<- | [<- | []]]); eauto.
Qed.

End PathFacts.

(** C9. Within one invocation of [uploadChunk] that reaches the
    transfer stage, the destination path is computed once, from the
    clock reading taken before the first attempt and the zero-padded
    index, and every attempt of the invocation sends its transfer to
    that path with [upsert: false]. Another invocation for the same
    index that reaches the transfer stage at a different clock reading
    sends its transfers to a different path. *)
Theorem chunk_path_per_invocation (pe : ProcessEnv) (E : Oracle)
    (extname : string -> string) (vid : string) (idx : Z) (buf : list Byte.byte)
    (w : World) (cv : ChunkedVideo) :
  db_fault E (dbCalls w) = None ->
  db w !! vid = Some cv ->
  find (fun chunk => chunkIndex chunk =? idx) (uploadedChunks cv) = None ->
  let path := fun (c : ChunkedVideo) (timestamp : Z) =>
    folder c +:+ "/chunks/" +:+ vid +:+ "/" +:+ Js.toString timestamp +:+ "_chunk_"
      +:+ Js.padStart0 4 (Js.toString idx) +:+ extname (originalFilename c) in
  let fn := path cv (clock E (clockReads w)) in
  (exists k, Z.of_nat k < MAX_RETRIES /\
     events (snd (uploadChunk pe E extname vid idx buf w)) =
       events w ++ failedAttemptEvents pe E cv fn buf (transferStart w) k
         ++ [uploadEvent pe cv fn buf]) /\
  (forall l b p body ct up t,
     events (snd (uploadChunk pe E extname vid idx buf w)) = events w ++ l ->
     In (EvUpload b p body ct up t) l -> p = fn /\ up = false) /\
  (forall w2 cv2 buf2,
     db_fault E (dbCalls w2) = None -> db w2 !! vid = Some cv2 ->
     find (fun chunk => chunkIndex chunk =? idx) (uploadedChunks cv2) = None ->
     folder cv2 = folder cv -> originalFilename cv2 = originalFilename cv ->
     clock E (clockReads w2) <> clock E (clockReads w) ->
     let fn2 := path cv2 (clock E (clockReads w2)) in
     fn2 <> fn /\
     exists k2, Z.of_nat k2 < MAX_RETRIES /\
       events (snd (uploadChunk pe E extname vid idx buf2 w2)) =
         events w2 ++ failedAttemptEvents pe E cv2 fn2 buf2 (transferStart w2) k2
           ++ [uploadEvent pe cv2 fn2 buf2]).
Proof.
  intros Hf Hcv Hfind path fn.
  pose proof (uploadChunk_transfer_events pe E extname vid idx buf w cv Hf Hcv Hfind)
    as Hev.
  split; [exact Hev |].
  split.
  - intros l b p body ct up t Hl Hin.
    destruct Hev as (k & _ & Hk). rewrite Hk in Hl.
    apply app_inv_head in Hl. subst l.
    apply in_app_or in Hin as [Hin | [Hin | []]].
    + apply failedAttemptEvents_uploads in Hin as [Hin | [ms Hin]]; [| discriminate].
      unfold uploadEvent in Hin. by injection Hin as -> -> -> -> -> ->.
    + unfold uploadEvent in Hin. by injection Hin as <- <- <- <- <- <-.
  - intros w2 cv2 buf2 Hf2 Hcv2 Hfind2 Hfld Hname Hclock fn2.
    split.
    + by apply (chunkFilenameOf_time extname cv cv2 vid).
    + apply (uploadChunk_transfer_events pe E extname vid idx buf2 w2 cv2); done.
Qed.

Lemma chunk_path_per_invocation_witness :
  events (snd (uploadChunk Fixture.pe (Fixture.failing_first 1) Fixture.extname "abcd" 1
                 [Byte.x01] (Fixture.holding Fixture.partial)))
    = [EvUpload "videos" "videos/chunks/abcd/1000_chunk_0001.mp4" (Bytes [Byte.x01])
         "application/octet-stream" false 300000;
       EvSleep (Qmin (inject_Z (2000 * 2 ^ 0) + (1 # 2) * 2000) 30000);
       EvUpload "videos" "videos/chunks/abcd/1000_chunk_0001.mp4" (Bytes [Byte.x01])
         "application/octet-stream" false 300000] /\
  "videos/chunks/abcd/1007_chunk_0001.mp4" <> "videos/chunks/abcd/1000_chunk_0001.mp4".
Proof.
  destruct (chunk_path_per_invocation Fixture.pe (Fixture.failing_first 1)
              Fixture.extname "abcd" 1 [Byte.x01] (Fixture.holding Fixture.partial)
              Fixture.partial eq_refl eq_refl eq_refl) as (_ & _ & Hlater).
  split; [reflexivity |].
  destruct (Hlater (Fixture.later Fixture.partial) Fixture.partial [Byte.x01])
    as [Hne _]; try reflexivity.
  - simpl. lia.
  - exact Hne.
Defined.

(** C9 as the specification words it fails when two invocations read
    the same time. The clock stands still at [1000]. The first
    invocation for index [1] transfers its chunk and fails to record
    it; the second invocation for the same index reaches the transfer
    stage and sends its chunk to the path the first one used. *)
Lemma chunk_path_same_millisecond :
  let first :=
    uploadChunk Fixture.pe Fixture.frozen Fixture.extname "abcd" 1 [Byte.x01]
      (Fixture.holding Fixture.partial) in
  let second :=
    uploadChunk Fixture.pe Fixture.frozen Fixture.extname "abcd" 1 [Byte.x01]
      (snd first) in
  let sent :=
    EvUpload "videos" "videos/chunks/abcd/1000_chunk_0001.mp4" (Bytes [Byte.x01])
      "application/octet-stream" false 300000 in
  fst first = Throw [PStr "AWS failed to upload chunk "; PNum 1; PStr ": ";
                     PStr "write failed"] /\
  events (snd first) = [sent] /\
  db (snd first) = db (Fixture.holding Fixture.partial) /\
  fst second = Ok (Uploaded 1 "p1" (200 # 3) false 1) /\
  events (snd second) = [sent; sent].
Proof. vm_compute. repeat split. Qed.

(** ** Completion *)

Section CompletionFacts.

Variable pe : ProcessEnv.
Variable E : Oracle.
Variable extname : string -> string.
Variable getPublicUrl : string -> string -> string.

Lemma completeChunkedUpload_already vid w cv url :
  db_fault E (dbCalls w) = None -> db w !! vid = Some cv ->
  isComplete cv = true -> finalVideoUrl cv = Some url -> Js.truthy url = true ->
  completeChunkedUpload pe E extname getPublicUrl vid w =
    (Ok (AlreadyCompleted vid url (sortByIndex (uploadedChunks cv))), nextDb w).
Proof.
  intros Hf Hcv Hc Hurl Ht.
  unfold completeChunkedUpload, tryCatch, bind, findOne, ret, finalVideoUrlSet.
  by rewrite Hf, Hcv, Hc, Hurl, Ht.
Qed.

Lemma completeChunkedUpload_first vid w cv :
  db_fault E (dbCalls w) = None -> db w !! vid = Some cv ->
  isComplete cv = true -> finalVideoUrlSet cv = None ->
  db_fault E (S (dbCalls w)) = None ->
  let sorted := with_uploadedChunks (sortByIndex (uploadedChunks cv)) cv in
  let url := getPublicUrl (bucket cv) (manifestFilenameOf cv vid) in
  exists info manifest w',
    completeChunkedUpload pe E extname getPublicUrl vid w = (Ok (Completed info), w') /\
    ci_secure_url info = url /\ ci_manifestUrl info = url /\
    events w' = events w ++
      [EvUpload (bucket cv) (manifestFilenameOf cv vid) (ManifestJson manifest)
         "application/json" true 30000] /\
    db w' = <[videoId cv := with_completion url (clock E (S (clockReads w))) sorted]> (db w) /\
    dbCalls w' = S (S (dbCalls w)).
Proof.
  intros Hf Hcv Hc Hurl Hs sorted url.
  unfold completeChunkedUpload, tryCatch.
  unfold bind at 1. unfold findOne at 1. rewrite Hf, Hcv, Hc, Hurl. cbn [negb].
  unfold bind, Date_now, storageUpload, save, ret, tryCatch.
  cbn [clockReads nextDb nextClock emit nextUpload dbCalls uploadCalls set_db db events].
  destruct (upload_reply E (uploadCalls w)); simpl; rewrite Hs;
    eexists _, _, _; (split; [reflexivity |]); repeat split; reflexivity.
Qed.

Lemma Forall_insertByIndex (P : ChunkRecord -> Prop) c l :
  P c -> Forall P l -> Forall P (insertByIndex c l).
Proof.
  intros Hc Hl. induction Hl as [| d r Hd Hr IH]; simpl.
  - by constructor.
  - destruct (chunkIndex c <? chunkIndex d); repeat constructor; done.
Qed.

Lemma insertByIndex_sorted c l :
  sortedByIndex l -> sortedByIndex (insertByIndex c l).
Proof.
  induction l as [| d r IH]; simpl; [by split |].
  intros [Hd Hr]. destruct (Z.ltb_spec (chunkIndex c) (chunkIndex d)); simpl.
  - split; [| done]. constructor; [lia |].
    eapply List.Forall_impl; [| exact Hd]. simpl. intros; lia.
  - split; [| by apply IH]. apply Forall_insertByIndex; [lia | done].
Qed.

Lemma sortByIndex_sorted l : sortedByIndex (sortByIndex l).
Proof.
  unfold sortByIndex.
  assert (H : forall acc, sortedByIndex acc ->
            sortedByIndex (fold_left (fun acc c => insertByIndex c acc) l acc)).
  { induction l as [| c l IH]; intros acc Hacc; simpl; [done |].
    apply IH. by apply insertByIndex_sorted. }
  by apply H.
Qed.

Lemma insertByIndex_last c acc :
  Forall (fun d => chunkIndex d <= chunkIndex c) acc ->
  insertByIndex c acc = acc ++ [c].
Proof.
  induction 1 as [| d r Hd Hr IH]; simpl; [done |].
  destruct (Z.ltb_spec (chunkIndex c) (chunkIndex d)); [lia |]. by rewrite IH.
Qed.

Lemma sortedByIndex_before acc c l :
  sortedByIndex (acc ++ c :: l) ->
  Forall (fun d => chunkIndex d <= chunkIndex c) acc.
Proof.
  induction acc as [| d acc IH]; simpl; [constructor |].
  intros [Hd Hs]. constructor; [| by apply IH].
  rewrite Forall_app in Hd. destruct Hd as [_ Hd]. by inversion Hd.
Qed.

(** Sorting a list that is already in index order leaves it as it is. *)
Lemma sortByIndex_of_sorted l : sortedByIndex l -> sortByIndex l = l.
Proof.
  unfold sortByIndex.
  assert (H : forall acc, sortedByIndex (acc ++ l) ->
            fold_left (fun acc c => insertByIndex c acc) l acc = acc ++ l).
  { induction l as [| c l IH]; intros acc Hs; simpl; [by rewrite app_nil_r |].
    rewrite (insertByIndex_last c acc) by (by eapply sortedByIndex_before).
    rewrite IH; rewrite <- app_assoc; done. }
  intros Hs. by apply (H []).
Qed.

End CompletionFacts.

(** C5, as the code has it. For a session that is complete and whose
    manifest URL is set, [completeChunkedUpload] returns a result of
    status [already_completed] that carries that same URL and the
    recorded chunks sorted by index; it sends no request (the manifest
    is not uploaded again) and leaves the collection as it was. Called
    a second time after a first completion, it answers with the URL the
    first call returned, in an [already_completed] result. *)
Theorem completeChunkedUpload_idempotent (pe : ProcessEnv) (E : Oracle)
    (extname : string -> string) (getPublicUrl : string -> string -> string)
    (vid : string) (w : World) (cv : ChunkedVideo) :
  db_fault E (dbCalls w) = None ->
  db w !! vid = Some cv ->
  isComplete cv = true ->
  (forall url, finalVideoUrl cv = Some url -> Js.truthy url = true ->
     exists w',
       completeChunkedUpload pe E extname getPublicUrl vid w
         = (Ok (AlreadyCompleted vid url (sortByIndex (uploadedChunks cv))), w') /\
       db w' = db w /\ events w' = events w /\ uploadCalls w' = uploadCalls w) /\
  (finalVideoUrlSet cv = None -> videoId cv = vid ->
   Js.truthy (getPublicUrl (bucket cv) (manifestFilenameOf cv vid)) = true ->
   db_fault E (S (dbCalls w)) = None -> db_fault E (S (S (dbCalls w))) = None ->
   exists info w1 w2,
     completeChunkedUpload pe E extname getPublicUrl vid w = (Ok (Completed info), w1) /\
     completeChunkedUpload pe E extname getPublicUrl vid w1
       = (Ok (AlreadyCompleted vid (ci_secure_url info)
                (sortByIndex (uploadedChunks cv))), w2) /\
     db w2 = db w1 /\ events w2 = events w1 /\ uploadCalls w2 = uploadCalls w1).
Proof.
  intros Hf Hcv Hc. split.
  - intros url Hurl Ht. exists (nextDb w). split; [| done].
    by apply (completeChunkedUpload_already pe E extname getPublicUrl vid w cv).
  - intros Hnone Hvid Ht Hs Hs2.
    destruct (completeChunkedUpload_first pe E extname getPublicUrl vid w cv
                Hf Hcv Hc Hnone Hs)
      as (info & manifest & w1 & Hrun & Hurl & _ & _ & Hdb & Hcalls).
    exists info, w1, (nextDb w1). split; [done |]. split; [| done].
    rewrite Hurl.
    rewrite <- (sortByIndex_of_sorted (sortByIndex (uploadedChunks cv)))
      by apply sortByIndex_sorted.
    eapply (completeChunkedUpload_already pe E extname getPublicUrl vid w1
              (with_completion _ _ (with_uploadedChunks _ cv))).
    + by rewrite Hcalls.
    + rewrite Hdb, Hvid. apply lookup_insert_eq.
    + done.
    + reflexivity.
    + done.
Qed.

Lemma completeChunkedUpload_idempotent_witness :
  (exists w',
     completeChunkedUpload Fixture.pe Fixture.calm Fixture.extname Fixture.getPublicUrl
         "abcd" (Fixture.holding Fixture.done)
       = (Ok (AlreadyCompleted "abcd"
                "https://storage/videos/videos/manifests/aws_abcd_manifest.json"
                [Fixture.chunk0; Fixture.chunk1; Fixture.chunk2]), w') /\
     db w' = db (Fixture.holding Fixture.done) /\ events w' = []) /\
  (exists info w1 w2,
     completeChunkedUpload Fixture.pe Fixture.calm Fixture.extname Fixture.getPublicUrl
         "abcd" (Fixture.holding Fixture.full) = (Ok (Completed info), w1) /\
     completeChunkedUpload Fixture.pe Fixture.calm Fixture.extname Fixture.getPublicUrl
         "abcd" w1
       = (Ok (AlreadyCompleted "abcd" (ci_secure_url info)
                [Fixture.chunk0; Fixture.chunk1; Fixture.chunk2]), w2) /\
     events w2 = events w1).
Proof.
  split.
  - destruct (completeChunkedUpload_idempotent Fixture.pe Fixture.calm Fixture.extname
                Fixture.getPublicUrl "abcd" (Fixture.holding Fixture.done) Fixture.done
                eq_refl eq_refl eq_refl) as [Hagain _].
    destruct (Hagain "https://storage/videos/videos/manifests/aws_abcd_manifest.json"
                eq_refl eq_refl) as (w' & Hrun & Hdb & Hev & _).
    exists w'. split; [exact Hrun | by split].
  - destruct (completeChunkedUpload_idempotent Fixture.pe Fixture.calm Fixture.extname
                Fixture.getPublicUrl "abcd" (Fixture.holding Fixture.full) Fixture.full
                eq_refl eq_refl eq_refl) as [_ Htwice].
    destruct (Htwice eq_refl eq_refl eq_refl eq_refl eq_refl)
      as (info & w1 & w2 & Hrun1 & Hrun2 & _ & Hev & _).
    exists info, w1, w2. split; [exact Hrun1 | split; [exact Hrun2 | exact Hev]].
Defined.

(** C5 as the specification words it fails: the second call does not
    return the result of the first call. After a first completion that
    returned the [completed] result, the session has its manifest URL
    set, and the second call returns another result. *)
Lemma completeChunkedUpload_second_result_differs :
  exists info w1 cv r2 w2,
    completeChunkedUpload Fixture.pe Fixture.calm Fixture.extname Fixture.getPublicUrl
        "abcd" (Fixture.holding Fixture.full) = (Ok (Completed info), w1) /\
    db w1 !! "abcd" = Some cv /\ finalVideoUrl cv = Some (ci_secure_url info) /\
    completeChunkedUpload Fixture.pe Fixture.calm Fixture.extname Fixture.getPublicUrl
        "abcd" w1 = (r2, w2) /\
    r2 <> Ok (Completed info).
Proof.
  eexists _, _, _, _, _.
  split; [vm_compute; reflexivity |].
  split; [vm_compute; reflexivity |].
  split; [reflexivity |].
  split; [vm_compute; reflexivity |].
  discriminate.
Qed.

(** * Further properties of the storage configuration *)

Lemma inList_true s l : inList s l = true <-> In s l.
Proof.
  unfold inList. rewrite existsb_exists. split.
  - intros (x & Hin & Heq). apply String.eqb_eq in Heq. by subst.
  - intros Hin. exists s. split; [done | apply String.eqb_refl].
Qed.

Lemma hasVideoExtension_truthy name :
  hasVideoExtension name = true -> Js.truthy name = true.
Proof. destruct name; [discriminate | done]. Qed.

Lemma hasMkvExtension_video name :
  hasMkvExtension name = true -> hasVideoExtension name = true.
Proof.
  unfold hasMkvExtension, hasVideoExtension. intros H.
  apply existsb_exists. exists "mkv". split; [| done].
  unfold videoExtensions. simpl. tauto.
Qed.

(** X1. The bucket chosen for a file is always one of the six
    configured buckets, so the list of allowed types of the chosen
    bucket is one of the three configured lists (the catch-all list
    of [getAllowedMimeTypes] is never used for it) and its size limit
    is one of the four configured limits. *)
Theorem bucket_is_configured (mimetype folder originalname : string) :
  let b := getBucketForFileType mimetype folder originalname in
  In b [STORAGE_BUCKETS.IMAGES; STORAGE_BUCKETS.VIDEOS; STORAGE_BUCKETS.DOCUMENTS;
        STORAGE_BUCKETS.PROFILES; STORAGE_BUCKETS.COURSES; STORAGE_BUCKETS.CHAT] /\
  In (getAllowedMimeTypes b)
     [ALLOWED_FILE_TYPES.IMAGES; ALLOWED_FILE_TYPES.VIDEOS; ALLOWED_FILE_TYPES.DOCUMENTS] /\
  In (getFileSizeLimit b)
     [FILE_SIZE_LIMITS.IMAGE; FILE_SIZE_LIMITS.VIDEO; FILE_SIZE_LIMITS.DOCUMENT;
      FILE_SIZE_LIMITS.PROFILE].
Proof.
  unfold getBucketForFileType.
  repeat case_match; cbn; tauto.
Qed.

(** X2. Routing agrees with the allowed types: when the content-type is
    on one of the three lists and the file name carries no video
    extension, the bucket chosen for the file allows that content-type,
    whatever the folder. *)
Theorem bucket_allows_listed_type (mimetype folder originalname : string) :
  In mimetype (ALLOWED_FILE_TYPES.IMAGES ++ ALLOWED_FILE_TYPES.VIDEOS
               ++ ALLOWED_FILE_TYPES.DOCUMENTS) ->
  hasVideoExtension originalname = false ->
  In mimetype (getAllowedMimeTypes (getBucketForFileType mimetype folder originalname)).
Proof.
  intros Hin Hext. unfold getBucketForFileType. rewrite Hext, andb_false_r.
  assert (Hmkv : hasMkvExtension originalname = false).
  { destruct (hasMkvExtension originalname) eqn:H; [| done].
    apply hasMkvExtension_video in H. congruence. }
  rewrite Hmkv, !andb_false_r, !orb_false_r.
  apply inList_true.
  cbn in Hin.
  repeat (destruct Hin as [<- | Hin]; [cbn; repeat case_match; reflexivity |]).
  destruct Hin.
Qed.

Lemma bucket_allows_listed_type_witness :
  In "image/png" (getAllowedMimeTypes (getBucketForFileType "image/png" "profile-pics" "me.png")).
Proof.
  apply bucket_allows_listed_type; [cbn; tauto | reflexivity].
Defined.

(** X3. A recognised video extension decides the bucket: a file whose
    name ends in one of the seven extensions goes to the videos bucket
    whatever its content-type and folder. *)
Theorem video_name_decides_bucket (mimetype folder originalname : string) :
  hasVideoExtension originalname = true ->
  getBucketForFileType mimetype folder originalname = STORAGE_BUCKETS.VIDEOS.
Proof.
  intros Hext. unfold getBucketForFileType.
  rewrite Hext, (hasVideoExtension_truthy _ Hext). cbn [andb].
  by rewrite orb_true_r.
Qed.

Lemma video_name_decides_bucket_witness :
  getBucketForFileType "image/png" "profile" "holiday.MOV" = "videos".
Proof. apply video_name_decides_bucket. reflexivity. Defined.

Lemma validateFile_isValid file bkt :
  isValid (validateFile file bkt) =
    negb (size file >? getFileSizeLimit bkt)
    && (inList (file_mimetype file) (getAllowedMimeTypes bkt) || isOctetStreamMkv file).
Proof.
  unfold validateFile, isOctetStreamMkv, isMkvFile, Js.nameAnd, Js.orF, Js.andF.
  cbn [isValid].
  destruct (size file >? getFileSizeLimit bkt);
    destruct (Js.startsWith "video/" (file_mimetype file));
    destruct (Js.truthy (originalname file));
    destruct (hasVideoExtension (originalname file));
    destruct (inList (file_mimetype file) (getAllowedMimeTypes bkt));
    destruct (String.eqb (file_mimetype file) "application/octet-stream");
    destruct (hasMkvExtension (originalname file));
    reflexivity.
Qed.

Lemma validateFile_errors_nil file bkt :
  isValid (validateFile file bkt) = true <-> errors (validateFile file bkt) = [].
Proof.
  unfold validateFile. cbn [isValid errors].
  repeat case_match; cbn; split; intros; done.
Qed.

Lemma isOctetStreamMkv_true file :
  isOctetStreamMkv file = true <->
  file_mimetype file = "application/octet-stream" /\
  hasMkvExtension (originalname file) = true.
Proof.
  unfold isOctetStreamMkv, isMkvFile.
  rewrite !andb_true_iff, String.eqb_eq. split; [tauto |].
  intros [Hm He]. repeat split; try done.
  destruct (originalname file); [discriminate | done].
Qed.

(** X4. [validateFile] accepts a file for a bucket exactly when its
    size does not exceed the limit of the bucket (a file of exactly the
    limit passes) and its content-type is allowed for the bucket or the
    file is a generic-type [.mkv]; it reports at most two errors (one
    for the size, one for the type). *)
Theorem validateFile_accepts_iff (file : File) (bkt : string) :
  (isValid (validateFile file bkt) = true <->
     size file <= getFileSizeLimit bkt /\
     (In (file_mimetype file) (getAllowedMimeTypes bkt) \/
      (file_mimetype file = "application/octet-stream" /\
       hasMkvExtension (originalname file) = true))) /\
  (isValid (validateFile file bkt) = true <-> errors (validateFile file bkt) = []) /\
  (length (errors (validateFile file bkt)) <= 2)%nat.
Proof.
  split; [| split].
  - rewrite validateFile_isValid, andb_true_iff, negb_true_iff, orb_true_iff,
      inList_true, isOctetStreamMkv_true.
    rewrite Z.gtb_ltb, Z.ltb_ge. tauto.
  - apply validateFile_errors_nil.
  - unfold validateFile. cbn [errors].
    repeat case_match; cbn; lia.
Qed.

(** X5. The three places that decide whether a file is a video agree
    on whether it is one: the [isVideo] of [validateFile] (which leaves
    the generic-type [.mkv] rule out) is truthy exactly when
    [initializeChunkedUpload] takes the file for a video, and the
    chunked-upload flag of [validateFile] is truthy exactly when the
    answer of [shouldUseChunkedUpload] is, whatever the bucket. For a
    file with a name the values are the same booleans. For a file with
    an empty name and a content-type outside [video/] the flags of
    [validateFile] are the empty string, where [shouldUseChunkedUpload]
    answers [false] unless the content-type is the generic one. *)
Theorem video_detection_agrees (file : File) (bkt : string) :
  let v := validateFile file bkt in
  Js.truthyF (vr_isVideo v) = isVideo file /\
  detectedAsVideo v = vr_isVideo v /\
  Js.truthyF (willUseChunkedUpload v) = Js.truthyF (shouldUseChunkedUpload file) /\
  (originalname file <> "" ->
     vr_isVideo v = Js.FBool (isVideo file) /\
     willUseChunkedUpload v = shouldUseChunkedUpload file) /\
  (originalname file = "" -> Js.startsWith "video/" (file_mimetype file) = false ->
     vr_isVideo v = Js.FEmpty /\ willUseChunkedUpload v = Js.FEmpty /\
     (file_mimetype file <> "application/octet-stream" ->
      shouldUseChunkedUpload file = Js.FBool false)).
Proof.
  intros v. subst v.
  assert (Hmkv : hasMkvExtension (originalname file) = true ->
                 hasVideoExtension (originalname file) = true)
    by apply hasMkvExtension_video.
  assert (Hname : Js.truthy (originalname file) = true <-> originalname file <> "").
  { unfold Js.truthy. rewrite negb_true_iff. split.
    - intros H Heq. rewrite Heq in H. discriminate.
    - intros H. destruct (String.eqb_spec (originalname file) ""); [done | done]. }
  unfold shouldUseChunkedUpload, validateFile, isVideo, isVideoByMimetype,
    isVideoByExtension, isOctetStreamMkv, isMkvFile, Js.nameAnd, Js.orF, Js.andF.
  cbn [vr_isVideo detectedAsVideo willUseChunkedUpload].
  destruct (String.eqb_spec (file_mimetype file) "application/octet-stream") as [Ho | Ho];
    destruct (Js.startsWith "video/" (file_mimetype file));
    destruct (Js.truthy (originalname file)) eqn:Ht;
    destruct (hasVideoExtension (originalname file));
    destruct (hasMkvExtension (originalname file));
    try (specialize (Hmkv eq_refl); discriminate Hmkv);
    cbn;
    repeat match goal with
           | |- _ /\ _ => split
           | |- _ -> _ => intros ?
           end;
    try reflexivity; try discriminate; try contradiction;
    try (match goal with
         | Hn : originalname file = "" |- _ => rewrite Hn in Ht; discriminate Ht
         end);
    try (match goal with
         | Hn : originalname file <> "" |- _ => apply Hname in Hn; discriminate Hn
         end).
Qed.

Lemma video_detection_agrees_witness :
  vr_isVideo (validateFile (mkFile (Some []) "text/plain" "" 10) "images") = Js.FEmpty /\
  shouldUseChunkedUpload (mkFile (Some []) "text/plain" "" 10) = Js.FBool false.
Proof.
  destruct (video_detection_agrees (mkFile (Some []) "text/plain" "" 10) "images")
    as (_ & _ & _ & _ & H).
  destruct H as (Hv & _ & Hs); [reflexivity | reflexivity |].
  split; [exact Hv | apply Hs; discriminate].
Defined.

(** X6. Routing and validation disagree on files recognised by their
    name alone: a file with a video extension whose content-type is not
    on the video list is sent to the videos bucket by
    [getBucketForFileType] and is rejected there by [validateFile]. *)
Theorem name_only_video_is_rejected (file : File) (folder : string) :
  hasVideoExtension (originalname file) = true ->
  ~ In (file_mimetype file) ALLOWED_FILE_TYPES.VIDEOS ->
  let b := getBucketForFileType (file_mimetype file) folder (originalname file) in
  b = STORAGE_BUCKETS.VIDEOS /\
  isValid (validateFile file b) = false /\
  errors (validateFile file b) <> [].
Proof.
  intros Hext Hnot b.
  assert (Hb : b = STORAGE_BUCKETS.VIDEOS).
  { unfold b, getBucketForFileType.
    rewrite Hext, (hasVideoExtension_truthy _ Hext). cbn [andb].
    by rewrite orb_true_r. }
  assert (Hv : isValid (validateFile file b) = false).
  { rewrite Hb, validateFile_isValid.
    assert (inList (file_mimetype file) (getAllowedMimeTypes STORAGE_BUCKETS.VIDEOS) = false)
      as ->.
    { destruct (inList _ _) eqn:Hl; [| done]. apply inList_true in Hl. done. }
    assert (isOctetStreamMkv file = false) as ->.
    { destruct (isOctetStreamMkv file) eqn:Ho; [| done].
      apply isOctetStreamMkv_true in Ho as [Hm _]. exfalso. apply Hnot.
      rewrite Hm. cbn. tauto. }
    by rewrite andb_false_r. }
  repeat split; [done | done |].
  intros He. apply validateFile_errors_nil in He. congruence.
Qed.

Lemma name_only_video_is_rejected_witness :
  isValid (validateFile (mkFile (Some []) "text/plain" "clip.mp4" 1024)
             (getBucketForFileType "text/plain" "lectures" "clip.mp4")) = false.
Proof.
  apply (name_only_video_is_rejected (mkFile (Some []) "text/plain" "clip.mp4" 1024)
           "lectures"); [reflexivity |].
  cbn. intros H. repeat destruct H as [H | H]; try discriminate H. exact H.
Defined.

(** X7. The type check of [validateFile] lets a generic-type [.mkv]
    through in every bucket: such a file is accepted for a bucket
    exactly when it fits the size limit of the bucket, also for the
    image and document buckets. *)
Theorem generic_mkv_passes_type_check (file : File) (bkt : string) :
  file_mimetype file = "application/octet-stream" ->
  hasMkvExtension (originalname file) = true ->
  (isValid (validateFile file bkt) = true <-> size file <= getFileSizeLimit bkt).
Proof.
  intros Hm He.
  rewrite validateFile_isValid.
  assert (isOctetStreamMkv file = true) as -> by (apply isOctetStreamMkv_true; done).
  rewrite orb_true_r, andb_true_r, negb_true_iff, Z.gtb_ltb, Z.ltb_ge. done.
Qed.

Lemma generic_mkv_passes_type_check_witness :
  isValid (validateFile (mkFile (Some []) "application/octet-stream" "talk.mkv" 4096)
             "images") = true.
Proof.
  apply generic_mkv_passes_type_check; [reflexivity | reflexivity |].
  unfold getFileSizeLimit, FILE_SIZE_LIMITS.IMAGE. simpl. lia.
Defined.

(** X8. Chunking starts strictly above the threshold: a file is
    chunked only if it is a video of more than 100 MB (a video of
    exactly 100 MB is not). With the default chunk size, a chunked
    file that fits the limit of the videos bucket has between 11 and
    205 chunks. *)
Theorem chunking_threshold (pe : ProcessEnv) (file : File) :
  (shouldUseChunkedUpload file = Js.FBool true <->
     isVideo file = true /\ 100 * 1024 * 1024 < size file) /\
  (env_CHUNK_SIZE pe = None -> shouldUseChunkedUpload file = Js.FBool true ->
   size file <= getFileSizeLimit STORAGE_BUCKETS.VIDEOS ->
   11 <= Js.ceilDiv (size file) (CHUNK_SIZE pe) <= 205).
Proof.
  assert (Hiff : shouldUseChunkedUpload file = Js.FBool true <->
                 isVideo file = true /\ 100 * 1024 * 1024 < size file).
  { unfold shouldUseChunkedUpload, isVideo, isVideoByMimetype, isVideoByExtension,
      isOctetStreamMkv, isMkvFile, Js.nameAnd, Js.orF, Js.andF, CHUNK_THRESHOLD.
    rewrite <- Z.ltb_lt, <- Z.gtb_ltb.
    destruct (size file >? 100 * 1024 * 1024);
      destruct (String.eqb (file_mimetype file) "application/octet-stream");
      destruct (Js.startsWith "video/" (file_mimetype file));
      destruct (Js.truthy (originalname file));
      destruct (hasVideoExtension (originalname file));
      destruct (hasMkvExtension (originalname file));
      cbn; split; try done; try (intros [? ?]; done). }
  split; [done |].
  intros Henv Hchunk Hlimit. apply Hiff in Hchunk as [_ Hsize].
  unfold CHUNK_SIZE. rewrite Henv. cbn [Js.parseIntOr].
  change (getFileSizeLimit STORAGE_BUCKETS.VIDEOS) with (2 * 1024 * 1024 * 1024) in Hlimit.
  unfold Js.ceilDiv.
  pose proof (Z.div_mod (- size file) (10 * 1024 * 1024) ltac:(lia)) as Hdm.
  pose proof (Z.mod_pos_bound (- size file) (10 * 1024 * 1024) ltac:(lia)) as Hm.
  lia.
Qed.

Lemma chunking_threshold_witness :
  11 <= Js.ceilDiv (150 * 1024 * 1024) (CHUNK_SIZE Fixture.pe_default) <= 205.
Proof.
  destruct (chunking_threshold Fixture.pe_default
              (mkFile (Some []) "video/mp4" "a.mp4" (150 * 1024 * 1024))) as [_ H].
  apply H; [reflexivity | reflexivity |].
  unfold getFileSizeLimit, FILE_SIZE_LIMITS.VIDEO. simpl. lia.
Defined.

(** X9. The profile-image check of the controller and [validateFile]
    for the profiles bucket accept the same files, except the
    generic-type [.mkv], which only [validateFile] lets through: for
    every other file the controller's check passes exactly when
    [validateFile] accepts the file for the profiles bucket. *)
Theorem profile_validation_agrees (file : File) :
  isOctetStreamMkv file = false ->
  (profileImageValidation file = None <->
   isValid (validateFile file STORAGE_BUCKETS.PROFILES) = true).
Proof.
  intros Ho. rewrite validateFile_isValid, Ho, orb_false_r.
  unfold profileImageValidation.
  change (getFileSizeLimit STORAGE_BUCKETS.PROFILES) with (5 * 1024 * 1024).
  change (getAllowedMimeTypes STORAGE_BUCKETS.PROFILES)
    with ["image/jpeg"; "image/jpg"; "image/png"; "image/gif"; "image/webp"].
  destruct (size file >? 5 * 1024 * 1024); [done |].
  destruct (inList (file_mimetype file) _); done.
Qed.

Lemma profile_validation_agrees_witness :
  profileImageValidation (mkFile (Some []) "image/png" "me.png" (5 * 1024 * 1024)) = None.
Proof.
  apply profile_validation_agrees; reflexivity.
Defined.

(** * Further properties of the upload module *)

(** ** What one call of the worker does to the collection *)

Section WorkerOutcomes.

Variable pe : ProcessEnv.
Variable E : Oracle.
Variable extname : string -> string.

Lemma uploadChunk_read_fault vid idx buf w msg :
  db_fault E (dbCalls w) = Some msg ->
  uploadChunk pe E extname vid idx buf w =
    (Throw [PStr "AWS failed to upload chunk "; PNum idx; PStr ": "; PStr msg], nextDb w).
Proof.
  intros Hf. unfold uploadChunk, tryCatch, bind, findOne. by rewrite Hf.
Qed.

Lemma uploadChunk_missing vid idx buf w :
  db_fault E (dbCalls w) = None -> db w !! vid = None ->
  uploadChunk pe E extname vid idx buf w =
    (Throw [PStr "AWS failed to upload chunk "; PNum idx; PStr ": ";
            PStr "Chunked video record not found"], nextDb w).
Proof.
  intros Hf Hnone. unfold uploadChunk, tryCatch, bind, findOne. by rewrite Hf, Hnone.
Qed.

(** The outcomes of a call that reaches the transfer stage. *)
Lemma uploadChunk_transfer_outcome vid idx buf w cv :
  db_fault E (dbCalls w) = None -> db w !! vid = Some cv ->
  find (fun chunk => chunkIndex chunk =? idx) (uploadedChunks cv) = None ->
  let out := uploadChunk pe E extname vid idx buf w in
  (exists m, fst out = Throw m /\ db (snd out) = db w) \/
  (exists p a,
     1 <= a <= MAX_RETRIES /\ Js.truthy p = true /\
     let saved := recordedSession cv idx p (lengthZ buf) (clock E (S (clockReads w))) a in
     fst out = Ok (Uploaded idx p (uploadProgress saved) (isComplete saved) a) /\
     db (snd out) = <[videoId cv := saved]> (db w)).
Proof.
  intros Hf Hcv Hfind out. subst out.
  destruct (replies_cases E (uploadCalls w) (Z.to_nat MAX_RETRIES))
    as [(k & p & Hk & Hfail & Hr & Hp) | Hall].
  - rewrite (uploadChunk_succeeds_after pe E extname k vid idx buf w cv p);
      [| done | done | done | lia | done | done | done].
    destruct (db_fault E (S (dbCalls w))) as [msg |].
    + left. eexists. split; reflexivity.
    + right. exists p, (Z.of_nat k + 1). split; [unfold MAX_RETRIES in *; lia |].
      split; [done |]. split; reflexivity.
  - destruct (uploadChunk_exhausts pe E extname vid idx buf w cv Hf Hcv Hfind Hall)
      as [cause Hrun].
    left. rewrite Hrun. eexists. split; reflexivity.
Qed.

(** Every outcome of a call: the collection is left alone, or the call
    returns [uploaded] and one record for the index has been appended
    to the session. *)
Lemma uploadChunk_effect vid idx buf w :
  let out := uploadChunk pe E extname vid idx buf w in
  db (snd out) = db w \/
  (exists cv p a,
     db w !! vid = Some cv /\
     ~ In idx (map chunkIndex (uploadedChunks cv)) /\
     1 <= a <= MAX_RETRIES /\ Js.truthy p = true /\
     let saved := recordedSession cv idx p (lengthZ buf) (clock E (S (clockReads w))) a in
     fst out = Ok (Uploaded idx p (uploadProgress saved) (isComplete saved) a) /\
     db (snd out) = <[videoId cv := saved]> (db w)).
Proof.
  intros out. subst out.
  destruct (db_fault E (dbCalls w)) as [msg |] eqn:Hf.
  { left. by rewrite (uploadChunk_read_fault vid idx buf w msg). }
  destruct (db w !! vid) as [cv |] eqn:Hcv.
  2: { left. by rewrite uploadChunk_missing. }
  destruct (find (fun chunk => chunkIndex chunk =? idx) (uploadedChunks cv))
    as [rec |] eqn:Hfind.
  { left. by rewrite (uploadChunk_already pe E extname vid idx buf w cv rec). }
  destruct (uploadChunk_transfer_outcome vid idx buf w cv Hf Hcv Hfind)
    as [(m & _ & Hdb) | (p & a & Ha & Hp & Hrun & Hdb)]; [by left |].
  right. exists cv, p, a.
  split; [done |]. split.
  { intros Hin. apply in_map_iff in Hin as (rec & Hidx & Hrec).
    pose proof (find_none _ _ Hfind rec Hrec) as Hne. simpl in Hne. lia. }
  split; [done |]. split; [done |]. split; [exact Hrun | exact Hdb].
Qed.

End WorkerOutcomes.

Section WorkerFurther.

Variable pe : ProcessEnv.
Variable E : Oracle.
Variable extname : string -> string.

Lemma uploadsIn_app l l' : uploadsIn (l ++ l') = (uploadsIn l + uploadsIn l')%nat.
Proof. unfold uploadsIn. by rewrite filter_app, length_app. Qed.

Lemma uploadsIn_failedAttemptEvents cv fn buf w k :
  uploadsIn (failedAttemptEvents pe E cv fn buf w k) = k.
Proof.
  induction k as [| k IH]; [done |].
  rewrite failedAttemptEvents_S, uploadsIn_app, IH. unfold uploadsIn. cbn. lia.
Qed.

Lemma uploadChunk_transfer_summary vid idx buf w cv :
  db_fault E (dbCalls w) = None -> db w !! vid = Some cv ->
  find (fun chunk => chunkIndex chunk =? idx) (uploadedChunks cv) = None ->
  let fn := chunkFilenameOf extname cv vid (clock E (clockReads w)) idx in
  let out := uploadChunk pe E extname vid idx buf w in
  exists k, Z.of_nat k < MAX_RETRIES /\
    events (snd out) =
      events w ++ failedAttemptEvents pe E cv fn buf (transferStart w) k
        ++ [uploadEvent pe cv fn buf] /\
    (forall r, fst out = Ok r ->
       exists p prog complete, r = Uploaded idx p prog complete (Z.of_nat k + 1)).
Proof.
  intros Hf Hcv Hfind fn out. subst out.
  destruct (replies_cases E (uploadCalls w) (Z.to_nat MAX_RETRIES))
    as [(k & p & Hk & Hfail & Hr & Hp) | Hall].
  - exists k. split; [lia |].
    rewrite (uploadChunk_succeeds_after pe E extname k vid idx buf w cv p);
      [| done | done | done | lia | done | done | done].
    fold fn.
    destruct (db_fault E (S (dbCalls w)));
      cbn [fst snd events nextDb set_db nextClock nextUpload emit afterFailedAttempts];
      (split; [by rewrite <- app_assoc |]); intros r Hr'; [discriminate |].
    injection Hr' as <-. by eexists _, _, _.
  - exists (Z.to_nat MAX_RETRIES - 1)%nat. split; [unfold MAX_RETRIES; lia |].
    destruct (uploadChunk_exhausts pe E extname vid idx buf w cv Hf Hcv Hfind Hall)
      as [cause Hrun].
    rewrite Hrun. fold fn.
    cbn [fst snd events nextClock nextUpload emit afterFailedAttempts].
    split; [by rewrite <- app_assoc | intros r Hr'; discriminate].
Qed.

End WorkerFurther.

(** X10. One call of [uploadChunk] sends at most [MAX_RETRIES]
    transfer requests, whatever the storage service answers; a call
    that answers [already_uploaded] sends none, and a call that
    answers [uploaded] reports as [uploadAttempts] exactly the number
    of transfer requests it sent, which lies between 1 and
    [MAX_RETRIES]. *)
Theorem uploadChunk_request_bound (pe : ProcessEnv) (E : Oracle)
    (extname : string -> string) (vid : string) (idx : Z) (buf : list Byte.byte)
    (w : World) :
  let out := uploadChunk pe E extname vid idx buf w in
  exists sent,
    events (snd out) = events w ++ sent /\
    (Z.of_nat (uploadsIn sent) <= MAX_RETRIES) /\
    (forall p, fst out = Ok (AlreadyUploaded idx p) -> sent = []) /\
    (forall p prog complete a, fst out = Ok (Uploaded idx p prog complete a) ->
       a = Z.of_nat (uploadsIn sent) /\ 1 <= a <= MAX_RETRIES).
Proof.
  intros out. subst out.
  destruct (db_fault E (dbCalls w)) as [msg |] eqn:Hf.
  { rewrite (uploadChunk_read_fault pe E extname vid idx buf w msg Hf).
    exists []. cbn. rewrite app_nil_r. repeat split; try done. }
  destruct (db w !! vid) as [cv |] eqn:Hcv.
  2: { rewrite (uploadChunk_missing pe E extname vid idx buf w Hf Hcv).
       exists []. cbn. rewrite app_nil_r. repeat split; try done. }
  destruct (find (fun chunk => chunkIndex chunk =? idx) (uploadedChunks cv))
    as [rec |] eqn:Hfind.
  { rewrite (uploadChunk_already pe E extname vid idx buf w cv rec Hf Hcv Hfind).
    exists []. cbn. rewrite app_nil_r. repeat split; try done. }
  destruct (uploadChunk_transfer_summary pe E extname vid idx buf w cv Hf Hcv Hfind)
    as (k & Hk & Hev & Hres).
  eexists. split; [exact Hev |].
  assert (Hcount : uploadsIn
            (failedAttemptEvents pe E cv
               (chunkFilenameOf extname cv vid (clock E (clockReads w)) idx) buf
               (transferStart w) k
             ++ [uploadEvent pe cv
                   (chunkFilenameOf extname cv vid (clock E (clockReads w)) idx) buf])
          = S k).
  { rewrite uploadsIn_app, uploadsIn_failedAttemptEvents. unfold uploadsIn. cbn. lia. }
  rewrite Hcount.
  split; [lia |]. split.
  - intros p Hp. apply Hres in Hp as (? & ? & ? & ?). discriminate.
  - intros p prog complete a Ha. apply Hres in Ha as (? & ? & ? & Heq).
    injection Heq as -> -> -> ->. unfold MAX_RETRIES in *. lia.
Qed.

Lemma uploadChunk_request_bound_witness :
  exists sent,
    events (snd Fixture.secondChunk) = events (Fixture.holding Fixture.partial) ++ sent /\
    uploadsIn sent = 1%nat.
Proof.
  destruct (uploadChunk_request_bound Fixture.pe Fixture.calm Fixture.extname "abcd" 1
              [Byte.x01] (Fixture.holding Fixture.partial))
    as (sent & Hev & _ & _ & Hup).
  exists sent. split; [exact Hev |].
  edestruct Hup as [Ha _]; [vm_compute; reflexivity |].
  lia.
Defined.

(** X11. One call of [uploadChunk] touches at most the session it is
    given, in a collection whose documents are stored under their
    identifiers: every other record is left as it was, no record is
    removed, the session keeps its metadata, and its chunk list is
    unchanged or has gained one record, for the index of the call. The
    collection stays keyed by identifier. *)
Theorem uploadChunk_frame (pe : ProcessEnv) (E : Oracle) (extname : string -> string)
    (vid : string) (idx : Z) (buf : list Byte.byte) (w : World) :
  WellKeyed (db w) ->
  let w' := snd (uploadChunk pe E extname vid idx buf w) in
  (forall k, k <> vid -> db w' !! k = db w !! k) /\
  (db w !! vid = None -> db w' !! vid = None) /\
  (forall cv, db w !! vid = Some cv ->
     exists cv', db w' !! vid = Some cv' /\
       (videoId cv', originalFilename cv', totalSize cv', totalChunks cv', chunkSize cv',
        mimetype cv', bucket cv', folder cv', finalVideoUrl cv', completedAt cv')
       = (videoId cv, originalFilename cv, totalSize cv, totalChunks cv, chunkSize cv,
          mimetype cv, bucket cv, folder cv, finalVideoUrl cv, completedAt cv) /\
       (uploadedChunks cv' = uploadedChunks cv \/
        exists rec, chunkIndex rec = idx /\ rec_chunkSize rec = lengthZ buf /\
                    uploadedChunks cv' = uploadedChunks cv ++ [rec])) /\
  WellKeyed (db w').
Proof.
  intros Hkeys w'. subst w'.
  destruct (uploadChunk_effect pe E extname vid idx buf w)
    as [Hsame | (cv & p & a & Hcv & _ & _ & _ & _ & Hdb)].
  - rewrite Hsame. repeat split; try done.
    intros cv Hcv. exists cv. repeat split; auto.
  - pose proof (Hkeys _ _ Hcv) as Hvid. rewrite Hdb, Hvid.
    split; [intros k Hk; by rewrite lookup_insert_ne |].
    split; [intros Hnone; congruence |].
    split.
    + intros cv0 Hcv0. assert (cv0 = cv) as -> by congruence.
      eexists. split; [apply lookup_insert_eq |].
      split; [reflexivity |]. right.
      exists (mkChunkRecord idx p (lengthZ buf) (clock E (S (clockReads w))) a true).
      split; [reflexivity |]. split; reflexivity.
    + intros k cv0. rewrite lookup_insert. case_decide as Hk.
      * intros [= <-]. by subst k.
      * apply Hkeys.
Qed.

Lemma uploadChunk_frame_witness :
  db (snd (uploadChunk Fixture.pe Fixture.calm Fixture.extname "abcd" 1 [Byte.x01]
             (Fixture.holding Fixture.partial))) !! "other" = None.
Proof.
  destruct (uploadChunk_frame Fixture.pe Fixture.calm Fixture.extname "abcd" 1 [Byte.x01]
              (Fixture.holding Fixture.partial)) as (Hother & _).
  - intros k cv. cbn [db Fixture.holding]. rewrite lookup_singleton.
    case_decide as Hk; [intros [= <-]; by rewrite <- Hk | discriminate].
  - rewrite Hother; [reflexivity | discriminate].
Defined.

(** X12. [uploadChunk] keeps the chunk indices of a session free of
    duplicates: when the indices recorded for the session are pairwise
    distinct before a call, they are after it, whatever the outcome of
    the call. *)
Theorem uploadChunk_keeps_indices_unique (pe : ProcessEnv) (E : Oracle)
    (extname : string -> string) (vid : string) (idx : Z) (buf : list Byte.byte)
    (w : World) (cv : ChunkedVideo) :
  WellKeyed (db w) ->
  db w !! vid = Some cv ->
  NoDup (map chunkIndex (uploadedChunks cv)) ->
  exists cv',
    db (snd (uploadChunk pe E extname vid idx buf w)) !! vid = Some cv' /\
    NoDup (map chunkIndex (uploadedChunks cv')).
Proof.
  intros Hkeys Hcv Hnodup.
  destruct (uploadChunk_effect pe E extname vid idx buf w)
    as [Hsame | (cv0 & p & a & Hcv0 & Hnew & _ & _ & _ & Hdb)].
  - exists cv. by rewrite Hsame.
  - assert (cv0 = cv) as -> by congruence.
    rewrite Hdb, (Hkeys _ _ Hcv). eexists. split; [apply lookup_insert_eq |].
    cbn. rewrite map_app. cbn.
    apply List.NoDup_app; [done | constructor; [intros [] | constructor] |].
    intros x Hx [<- | []]. by apply Hnew.
Qed.

Lemma uploadChunk_keeps_indices_unique_witness :
  exists cv',
    db (snd (uploadChunk Fixture.pe Fixture.calm Fixture.extname "abcd" 1 [Byte.x01]
               (Fixture.holding Fixture.partial))) !! "abcd" = Some cv' /\
    NoDup (map chunkIndex (uploadedChunks cv')).
Proof.
  apply (uploadChunk_keeps_indices_unique Fixture.pe Fixture.calm Fixture.extname "abcd"
           1 [Byte.x01] (Fixture.holding Fixture.partial) Fixture.partial).
  - intros k cv. cbn [db Fixture.holding]. rewrite lookup_singleton.
    case_decide as Hk; [intros [= <-]; by rewrite <- Hk | discriminate].
  - reflexivity.
  - cbn. constructor; [intros [] | constructor].
Defined.

(** X13. A persistence failure after a successful transfer leaves an
    object that no record refers to: when the transfer of a new index
    succeeds (after [k] failed attempts) and saving the session fails,
    the call throws the message of the persistence layer, the
    collection is left as it was, and the transfer has been sent, so a
    later cleanup, which deletes the recorded paths only, does not
    request the deletion of that object unless its path was already
    recorded. *)
Theorem uploadChunk_save_failure_orphans (pe : ProcessEnv) (E : Oracle)
    (extname : string -> string) (vid : string) (idx : Z) (buf : list Byte.byte)
    (w : World) (cv : ChunkedVideo) (k : nat) (p msg : string) :
  db_fault E (dbCalls w) = None ->
  db w !! vid = Some cv ->
  find (fun chunk => chunkIndex chunk =? idx) (uploadedChunks cv) = None ->
  Z.of_nat k < MAX_RETRIES ->
  (forall j, (j < k)%nat -> replyFails (upload_reply E (uploadCalls w + j)) = true) ->
  upload_reply E (uploadCalls w + k) = Resolved (Some p) None -> Js.truthy p = true ->
  db_fault E (S (dbCalls w)) = Some msg ->
  let out := uploadChunk pe E extname vid idx buf w in
  let fn := chunkFilenameOf extname cv vid (clock E (clockReads w)) idx in
  fst out = Throw [PStr "AWS failed to upload chunk "; PNum idx; PStr ": "; PStr msg] /\
  db (snd out) = db w /\
  (exists before, events (snd out) = before ++ [uploadEvent pe cv fn buf]) /\
  (db_fault E (S (S (dbCalls w))) = None -> ~ In p (map chunkPath (uploadedChunks cv)) ->
   forall force b paths t,
     In (EvRemove b paths t)
        (events (snd (cleanupChunks E vid force (snd out)))) ->
     In (EvRemove b paths t) (events w) \/ ~ In p paths).
Proof.
  intros Hf Hcv Hfind Hk Hfail Hr Hp Hs out fn. subst out.
  rewrite (uploadChunk_succeeds_after pe E extname k vid idx buf w cv p);
    [| done | done | done | done | done | done | done].
  rewrite Hs. cbn [fst snd].
  split; [done |]. split; [done |]. split.
  { eexists. cbn [events nextDb nextClock nextUpload emit]. reflexivity. }
  intros Hs2 Hnot force b paths t Hin.
  set (w1 := nextDb _) in Hin.
  assert (Hcv1 : db w1 !! vid = Some cv) by done.
  assert (Hf1 : db_fault E (dbCalls w1) = None) by done.
  assert (Hev1 : forall e, In e (events w1) ->
            In e (events w) \/ (forall b' ps t', e <> EvRemove b' ps t')).
  { intros e He. subst w1.
    cbn [events nextDb nextClock nextUpload emit afterFailedAttempts transferStart] in He.
    apply in_app_or in He as [He | [<- | []]]; [| right; intros; discriminate].
    apply in_app_or in He as [He | He]; [by left |]. right.
    apply failedAttemptEvents_uploads in He as [-> | [ms ->]]; intros; discriminate. }
  destruct (decide (force = true \/ isComplete cv = false)) as [Hgo | Hstay].
  - rewrite (cleanupChunks_events E vid force w1 cv Hcv1 Hf1 Hgo) in Hin.
    apply in_app_or in Hin as [Hin | Hin].
    + destruct (Hev1 _ Hin) as [? | Hno]; [by left | by destruct (Hno b paths t)].
    + right. unfold removalEvents in Hin.
      destruct (lengthZ _ >? 0); [| destruct Hin].
      destruct Hin as [[= <- <- <-] | []]. done.
  - assert (force = false /\ isComplete cv = true) as [-> Hc].
    { destruct force, (isComplete cv); tauto. }
    rewrite (cleanupChunks_completed_unforced E vid w1 cv Hcv1 Hc) in Hin.
    cbn [snd events nextDb] in Hin.
    destruct (Hev1 _ Hin) as [? | Hno]; [by left | by destruct (Hno b paths t)].
Qed.

Lemma uploadChunk_save_failure_orphans_witness :
  let out := uploadChunk Fixture.pe Fixture.save_fails Fixture.extname "abcd" 1
               [Byte.x01] (Fixture.holding Fixture.partial) in
  fst out = Throw [PStr "AWS failed to upload chunk "; PNum 1; PStr ": ";
                   PStr "write failed"] /\
  db (snd out) = db (Fixture.holding Fixture.partial) /\
  forall b paths t,
    In (EvRemove b paths t)
       (events (snd (cleanupChunks Fixture.save_fails "abcd" true (snd out)))) ->
    ~ In "p0" paths.
Proof.
  destruct (uploadChunk_save_failure_orphans Fixture.pe Fixture.save_fails
              Fixture.extname "abcd" 1 [Byte.x01] (Fixture.holding Fixture.partial)
              Fixture.partial 0 "p0" "write failed")
    as (Hthrow & Hdb & _ & Hclean); try reflexivity.
  - intros j Hj. lia.
  - split; [exact Hthrow |]. split; [exact Hdb |].
    intros b paths t Hin.
    destruct (Hclean eq_refl) with (force := true) (b := b) (paths := paths) (t := t)
      as [[] | Hno]; [| exact Hin | exact Hno].
    cbn. intros [H | []]. discriminate H.
Defined.

(** ** The waiting times *)

Lemma Qmin_left (x y : Q) : (x <= y)%Q -> Qmin x y = x.
Proof.
  intros Hle. unfold Qmin, GenericMinMax.gmin.
  destruct (x ?= y)%Q eqn:Hc; [done | done |].
  apply Qgt_alt in Hc. by apply Qle_not_lt in Hle.
Qed.

(** X14. With [MAX_RETRIES = 5] and a base delay of 2000 ms the cap of
    30000 ms is never reached: after every failed attempt that is
    followed by a wait (attempts 1 to 4) the waiting time is the
    exponential delay plus the jitter itself, at least
    [2000 * 2^(attempt-1)] ms and less than 18000 ms. *)
Theorem backoff_cap_is_never_reached (attempt : Z) (rnd : Q) :
  1 <= attempt < MAX_RETRIES ->
  (0 <= rnd)%Q -> (rnd < 1)%Q ->
  retryWaitTime attempt rnd
    = (inject_Z (RETRY_DELAY_BASE * 2 ^ (attempt - 1)) + rnd * 2000)%Q /\
  (inject_Z (2000 * 2 ^ (attempt - 1)) <= retryWaitTime attempt rnd)%Q /\
  (retryWaitTime attempt rnd < 18000)%Q.
Proof.
  intros Ha H0 H1.
  assert (Hcases : attempt = 1 \/ attempt = 2 \/ attempt = 3 \/ attempt = 4)
    by (unfold MAX_RETRIES in Ha; lia).
  assert (Heq : retryWaitTime attempt rnd
                = (inject_Z (RETRY_DELAY_BASE * 2 ^ (attempt - 1)) + rnd * 2000)%Q).
  { unfold retryWaitTime. apply Qmin_left.
    destruct rnd as [n d]. unfold Qle, Qlt in *. cbn in H0, H1.
    destruct Hcases as [-> | [-> | [-> | ->]]]; cbn;
      rewrite ?Pos.mul_1_r, ?Pos.mul_1_l; unfold RETRY_DELAY_BASE;
      repeat match goal with
             | |- context [2 ^ ?e] =>
                 let v := eval vm_compute in (2 ^ e) in change (2 ^ e) with v
             end; lia. }
  split; [exact Heq |]. rewrite Heq.
  destruct rnd as [n d]. unfold Qle, Qlt in *. cbn in H0, H1.
  destruct Hcases as [-> | [-> | [-> | ->]]]; cbn;
    rewrite ?Pos.mul_1_r, ?Pos.mul_1_l; unfold RETRY_DELAY_BASE;
    repeat match goal with
           | |- context [2 ^ ?e] =>
               let v := eval vm_compute in (2 ^ e) in change (2 ^ e) with v
           end; lia.
Qed.

Lemma backoff_cap_is_never_reached_witness :
  retryWaitTime 4 (9 # 10) = (inject_Z (2000 * 2 ^ 3) + (9 # 10) * 2000)%Q.
Proof.
  destruct (backoff_cap_is_never_reached 4 (9 # 10)) as [H _].
  - unfold MAX_RETRIES. lia.
  - unfold Qle. cbn. lia.
  - unfold Qlt. cbn. lia.
  - exact H.
Defined.

(** ** The session through a run of the scheduler *)

Section SchedulerInvariant.

Variable pe : ProcessEnv.
Variable E : Oracle.
Variable extname : string -> string.
Variable getPublicUrl : string -> string -> string.

Lemma SessionAt_db vid n b w w' :
  db w' = db w -> SessionAt vid n b w -> SessionAt vid n b w'.
Proof. intros Hdb (cv & H). exists cv. by rewrite Hdb. Qed.

Lemma In_indexRange x a b : In x (indexRange a b) -> a <= x < b.
Proof.
  unfold indexRange. intros H. apply in_map_iff in H as (k & <- & Hk).
  apply in_seq in Hk. lia.
Qed.

Lemma indexRange_snoc a b : a <= b -> indexRange a (b + 1) = indexRange a b ++ [b].
Proof.
  intros H. rewrite <- (indexRange_split a b (b + 1)) by lia. f_equal.
  unfold indexRange. replace (b + 1 - b) with 1 by lia.
  change (Z.to_nat 1) with 1%nat. cbn [seq map]. f_equal. lia.
Qed.

Lemma indexRange_sorted (l : list ChunkRecord) a b :
  map chunkIndex l = indexRange a b -> sortedByIndex l.
Proof.
  revert a. induction l as [| c l IH]; intros a Hl; [done |].
  destruct (Z.le_gt_cases b a) as [Hba | Hab].
  { rewrite indexRange_empty in Hl by done. discriminate. }
  rewrite <- (indexRange_split a (a + 1) b) in Hl by lia.
  replace (indexRange a (a + 1)) with [a] in Hl
    by (rewrite indexRange_snoc, indexRange_empty by lia; done).
  cbn in Hl. injection Hl as Hc Hl.
  cbn. split; [| by apply (IH (a + 1))].
  apply Forall_forall. intros d Hd.
  assert (Hin : In (chunkIndex d) (indexRange (a + 1) b))
    by (rewrite <- Hl; by apply in_map).
  apply In_indexRange in Hin. lia.
Qed.

(** A member of a batch that returns has recorded its index. *)
Lemma uploadChunk_advances vid n b buf w r w' :
  0 <= b -> SessionAt vid n b w ->
  uploadChunk pe E extname vid b buf w = (Ok r, w') ->
  SessionAt vid n (b + 1) w'.
Proof.
  intros Hb (cv & Hcv & Hvid & Hn & Hurl & Hidx) Hrun.
  destruct (db_fault E (dbCalls w)) as [msg |] eqn:Hf.
  { rewrite (uploadChunk_read_fault pe E extname vid b buf w msg Hf) in Hrun.
    discriminate. }
  assert (Hfind : find (fun chunk => chunkIndex chunk =? b) (uploadedChunks cv) = None).
  { destruct (find _ (uploadedChunks cv)) as [rec |] eqn:Hfind; [| done].
    apply find_some in Hfind as [Hrec Heq]. apply Z.eqb_eq in Heq.
    assert (Hin : In b (indexRange 0 b))
      by (rewrite <- Hidx, <- Heq; by apply in_map).
    apply In_indexRange in Hin. lia. }
  destruct (uploadChunk_transfer_outcome pe E extname vid b buf w cv Hf Hcv Hfind)
    as [(m & Hthrow & _) | (p & a & _ & _ & _ & Hdb)].
  { rewrite Hrun in Hthrow. discriminate. }
  rewrite Hrun in Hdb. cbn [snd] in Hdb.
  eexists. rewrite Hdb, Hvid. split; [apply lookup_insert_eq |].
  repeat split; try done.
  cbn. rewrite map_app, Hidx. cbn. symmetry. by apply indexRange_snoc.
Qed.

End SchedulerInvariant.

Section SchedulerResult.

Variable pe : ProcessEnv.
Variable E : Oracle.
Variable extname : string -> string.
Variable getPublicUrl : string -> string -> string.

Lemma initialize_Ok_session file fld w r w' :
  initializeChunkedUpload pe E file fld w = (Ok r, w') ->
  SessionAt (randomBytesHex E (idDraws w)) (Js.ceilDiv (size file) (CHUNK_SIZE pe)) 0 w'.
Proof.
  unfold initializeChunkedUpload, tryCatch, bind, generateVideoId, save, throw, ret.
  intros H. repeat (case_match; simplify_eq/=; try done).
  eexists. split; [apply lookup_insert_eq |]. repeat split.
Qed.

(** What a first completion returns and stores. *)
Lemma completeChunkedUpload_Ok_inv vid w cv r w' :
  db w !! vid = Some cv -> isComplete cv = true -> finalVideoUrlSet cv = None ->
  completeChunkedUpload pe E extname getPublicUrl vid w = (Ok r, w') ->
  let sorted := with_uploadedChunks (sortByIndex (uploadedChunks cv)) cv in
  let url := getPublicUrl (bucket cv) (manifestFilenameOf cv vid) in
  exists info,
    r = Completed info /\ ci_videoId info = vid /\
    ci_secure_url info = url /\ ci_manifestUrl info = url /\
    ci_chunks info = map (chunkUrlOf getPublicUrl sorted) (sortByIndex (uploadedChunks cv)) /\
    ci_duration info = None /\
    db w' = <[videoId cv := with_completion url (clock E (S (clockReads w))) sorted]> (db w).
Proof.
  intros Hcv Hc Hurl Hrun sorted url.
  unfold completeChunkedUpload, tryCatch in Hrun.
  unfold bind at 1 in Hrun. unfold findOne at 1 in Hrun.
  destruct (db_fault E (dbCalls w)); [discriminate |].
  rewrite Hcv, Hc, Hurl in Hrun. cbn [negb] in Hrun.
  unfold bind, Date_now, storageUpload, save, ret, tryCatch in Hrun.
  cbn [clockReads nextDb nextClock emit nextUpload dbCalls uploadCalls set_db db events]
    in Hrun.
  destruct (upload_reply E (uploadCalls w)); simpl in Hrun;
    (destruct (db_fault E (S (dbCalls w))); [discriminate |]);
    injection Hrun as <- <-; eexists; (split; [reflexivity |]); repeat split.
Qed.

End SchedulerResult.

(** ** A run in which no outside call fails *)

Section CalmRun.

Variable pe : ProcessEnv.
Variable E : Oracle.
Variable extname : string -> string.
Variable getPublicUrl : string -> string -> string.

Hypothesis db_ok : forall n, db_fault E n = None.
Hypothesis transfers_ok : forall n, replyFails (upload_reply E n) = false.

Lemma uploadChunk_returns vid n b buf w :
  0 <= b -> SessionAt vid n b w ->
  exists r w', uploadChunk pe E extname vid b buf w = (Ok r, w').
Proof.
  intros Hb (cv & Hcv & Hvid & Hn & Hurl & Hidx).
  assert (Hfind : find (fun chunk => chunkIndex chunk =? b) (uploadedChunks cv) = None).
  { destruct (find _ (uploadedChunks cv)) as [rec |] eqn:Hfind; [| done].
    apply find_some in Hfind as [Hrec Heq]. apply Z.eqb_eq in Heq.
    assert (Hin : In b (indexRange 0 b))
      by (rewrite <- Hidx, <- Heq; by apply in_map).
    apply In_indexRange in Hin. lia. }
  pose proof (transfers_ok (uploadCalls w + 0)) as Hreply.
  destruct (upload_reply E (uploadCalls w + 0)) as [[p |] [e |] | |] eqn:Hr;
    try discriminate Hreply.
  apply negb_false_iff in Hreply.
  rewrite (uploadChunk_succeeds_after pe E extname 0 vid b buf w cv p);
    [| done | done | done | unfold MAX_RETRIES; lia | intros; lia | done | done].
  rewrite db_ok. by eexists _, _.
Qed.

End CalmRun.

(** ** Completion *)

Lemma insertByIndex_perm c l : Permutation (insertByIndex c l) (c :: l).
Proof.
  induction l as [| d r IH]; cbn; [done |].
  destruct (chunkIndex c <? chunkIndex d); [done |].
  rewrite IH. apply perm_swap.
Qed.

Lemma sortByIndex_perm l : Permutation (sortByIndex l) l.
Proof.
  unfold sortByIndex.
  assert (H : forall acc,
            Permutation (fold_left (fun acc c => insertByIndex c acc) l acc) (acc ++ l)).
  { induction l as [| c l IH]; intros acc; cbn; [by rewrite app_nil_r |].
    rewrite IH, insertByIndex_perm. cbn. apply Permutation_middle. }
  apply (H []).
Qed.

Section CompletionOutcomes.

Variable pe : ProcessEnv.
Variable E : Oracle.
Variable extname : string -> string.
Variable getPublicUrl : string -> string -> string.

Lemma completeChunkedUpload_Ok_cases vid w r w' :
  completeChunkedUpload pe E extname getPublicUrl vid w = (Ok r, w') ->
  exists cv, db w !! vid = Some cv /\ isComplete cv = true /\
    completedIndices r = map chunkIndex (sortByIndex (uploadedChunks cv)).
Proof.
  intros Hrun.
  unfold completeChunkedUpload, tryCatch in Hrun.
  unfold bind at 1 in Hrun. unfold findOne at 1 in Hrun.
  destruct (db_fault E (dbCalls w)); [discriminate |].
  destruct (db w !! vid) as [cv |] eqn:Hcv; [| discriminate].
  destruct (isComplete cv) eqn:Hc; [| discriminate].
  exists cv. split; [done |]. split; [done |].
  cbn [negb] in Hrun.
  destruct (finalVideoUrlSet cv).
  { injection Hrun as <- _. reflexivity. }
  unfold bind, Date_now, storageUpload, save, ret, tryCatch in Hrun.
  cbn [clockReads nextDb nextClock emit nextUpload dbCalls uploadCalls set_db db events]
    in Hrun.
  destruct (upload_reply E (uploadCalls w)); simpl in Hrun;
    (destruct (db_fault E (S (dbCalls w))); [discriminate |]);
    injection Hrun as <- _; cbn; by rewrite map_map.
Qed.

End CompletionOutcomes.

(** X19. The outcome of [completeChunkedUpload] does not depend on the
    storage service: whatever the manifest upload is answered
    (stored, refused, rejected or timed out), the call makes the same
    requests, returns the same result and stores the same record, so a
    result can carry the URL of a manifest that was never stored. *)
Theorem completeChunkedUpload_ignores_storage_replies (pe : ProcessEnv) (E E' : Oracle)
    (extname : string -> string) (getPublicUrl : string -> string -> string)
    (vid : string) (w : World) :
  (forall n, clock E n = clock E' n) ->
  (forall n, db_fault E n = db_fault E' n) ->
  completeChunkedUpload pe E extname getPublicUrl vid w
  = completeChunkedUpload pe E' extname getPublicUrl vid w.
Proof.
  intros Hc Hf.
  unfold completeChunkedUpload, tryCatch, bind, findOne.
  rewrite <- (Hf (dbCalls w)).
  destruct (db_fault E (dbCalls w)); [done |].
  destruct (db w !! vid) as [cv |]; [| done].
  destruct (isComplete cv); [| done]. cbn [negb].
  destruct (finalVideoUrlSet cv); [done |].
  unfold Date_now, storageUpload, save, ret.
  cbn [clockReads nextDb nextClock emit nextUpload dbCalls uploadCalls set_db db events].
  destruct (upload_reply E (uploadCalls w)), (upload_reply E' (uploadCalls w));
    cbn;
    rewrite <- ?(Hf (S (dbCalls w))), <- ?(Hc (clockReads w)), <- ?(Hc (S (clockReads w)));
    destruct (db_fault E (S (dbCalls w))); reflexivity.
Qed.

Lemma completeChunkedUpload_ignores_storage_replies_witness :
  completeChunkedUpload Fixture.pe Fixture.calm Fixture.extname Fixture.getPublicUrl
    "abcd" (Fixture.holding Fixture.full)
  = completeChunkedUpload Fixture.pe (Fixture.failing_after 0) Fixture.extname
      Fixture.getPublicUrl "abcd" (Fixture.holding Fixture.full).
Proof.
  apply completeChunkedUpload_ignores_storage_replies; intros n; reflexivity.
Defined.

(** X20. A result of [completeChunkedUpload], first or repeated, lists
    the recorded chunks of a complete session, each once, in
    non-decreasing index order. *)
Theorem completeChunkedUpload_lists_chunks_in_order (pe : ProcessEnv) (E : Oracle)
    (extname : string -> string) (getPublicUrl : string -> string -> string)
    (vid : string) (w : World) (r : CompleteResult) (w' : World) :
  completeChunkedUpload pe E extname getPublicUrl vid w = (Ok r, w') ->
  exists cv sorted,
    db w !! vid = Some cv /\ isComplete cv = true /\
    completedIndices r = map chunkIndex sorted /\
    sortedByIndex sorted /\
    Permutation sorted (uploadedChunks cv).
Proof.
  intros Hrun.
  apply completeChunkedUpload_Ok_cases in Hrun as (cv & Hcv & Hc & Hr).
  exists cv, (sortByIndex (uploadedChunks cv)).
  repeat split; try done; [apply sortByIndex_sorted | apply sortByIndex_perm].
Qed.

Lemma completeChunkedUpload_lists_chunks_in_order_witness :
  exists sorted,
    map chunkIndex sorted = [0; 1; 2] /\
    Permutation sorted [Fixture.chunk1; Fixture.chunk0; Fixture.chunk2].
Proof.
  destruct (completeChunkedUpload_lists_chunks_in_order Fixture.pe Fixture.calm
              Fixture.extname Fixture.getPublicUrl "abcd" (Fixture.holding Fixture.full)
              (fst (Fixture.completedOnce)) (snd (Fixture.completedOnce)))
    as (cv & sorted & Hcv & _ & Hr & _ & Hperm).
  - vm_compute. reflexivity.
  - exists sorted. injection Hcv as <-. split; [symmetry; exact Hr | exact Hperm].
Defined.

(** ** Progress reports and cleanup *)

Section ProgressFacts.

Variable pe : ProcessEnv.
Variable E : Oracle.
Variable extname : string -> string.

Lemma uploadChunk_Uploaded_inv vid idx buf w i p prog c a w' :
  uploadChunk pe E extname vid idx buf w = (Ok (Uploaded i p prog c a), w') ->
  exists cv,
    db w !! vid = Some cv /\ i = idx /\ 1 <= a <= MAX_RETRIES /\
    let saved := recordedSession cv idx p (lengthZ buf) (clock E (S (clockReads w))) a in
    prog = uploadProgress saved /\ c = isComplete saved /\
    db w' = <[videoId cv := saved]> (db w).
Proof.
  intros Hrun.
  destruct (db_fault E (dbCalls w)) as [msg |] eqn:Hf.
  { by rewrite (uploadChunk_read_fault pe E extname vid idx buf w msg) in Hrun. }
  destruct (db w !! vid) as [cv |] eqn:Hcv.
  2: { by rewrite uploadChunk_missing in Hrun. }
  destruct (find (fun chunk => chunkIndex chunk =? idx) (uploadedChunks cv))
    as [rec |] eqn:Hfind.
  { by rewrite (uploadChunk_already pe E extname vid idx buf w cv rec) in Hrun. }
  destruct (uploadChunk_transfer_outcome pe E extname vid idx buf w cv Hf Hcv Hfind)
    as [(m & Hthrow & _) | (p' & a' & Ha & _ & Hok & Hdb)].
  { by rewrite Hrun in Hthrow. }
  rewrite Hrun in Hok, Hdb. cbn [fst snd] in Hok, Hdb.
  injection Hok as -> -> -> -> ->.
  exists cv. repeat split; try done; lia.
Qed.

Lemma sumAttempts_snoc l rec :
  sumAttempts (l ++ [rec]) = sumAttempts l + Js.orZ (uploadAttempts rec) 1.
Proof. unfold sumAttempts. by rewrite fold_left_app. Qed.

End ProgressFacts.

(** X21. A completion that fails leaves the collection as it was and
    throws under the prefix of the function; it has sent nothing, or
    only the manifest (when the record could not be saved afterwards). *)
Theorem completeChunkedUpload_failure_keeps_collection (pe : ProcessEnv) (E : Oracle)
    (extname : string -> string) (getPublicUrl : string -> string -> string)
    (vid : string) (w : World) (m : Message) (w' : World) :
  completeChunkedUpload pe E extname getPublicUrl vid w = (Throw m, w') ->
  db w' = db w /\
  (exists cause, m = PStr "AWS failed to complete chunked upload: " :: cause) /\
  (events w' = events w \/
   exists cv manifest,
     db w !! vid = Some cv /\
     events w' = events w ++
       [EvUpload (bucket cv) (manifestFilenameOf cv vid) (ManifestJson manifest)
          "application/json" true 30000]).
Proof.
  intros Hrun.
  unfold completeChunkedUpload, tryCatch in Hrun.
  unfold bind at 1 in Hrun. unfold findOne at 1 in Hrun.
  destruct (db_fault E (dbCalls w)).
  { injection Hrun as <- <-. split; [done |]. split; [by eexists | by left]. }
  destruct (db w !! vid) as [cv |] eqn:Hcv.
  2: { injection Hrun as <- <-. split; [done |]. split; [by eexists | by left]. }
  destruct (isComplete cv) eqn:Hc.
  2: { injection Hrun as <- <-. split; [done |]. split; [by eexists | by left]. }
  cbn [negb] in Hrun.
  destruct (finalVideoUrlSet cv); [discriminate |].
  unfold bind, Date_now, storageUpload, save, ret, tryCatch in Hrun.
  cbn [clockReads nextDb nextClock emit nextUpload dbCalls uploadCalls set_db db events]
    in Hrun.
  destruct (upload_reply E (uploadCalls w)); simpl in Hrun;
    (destruct (db_fault E (S (dbCalls w))); [| discriminate]);
    injection Hrun as <- <-; (split; [done |]); (split; [by eexists |]);
    right; by eexists _, _.
Qed.

Lemma completeChunkedUpload_failure_keeps_collection_witness :
  db (snd Fixture.unsavedCompletion) = db (Fixture.holding Fixture.full).
Proof.
  apply (completeChunkedUpload_failure_keeps_collection Fixture.pe Fixture.save_fails
           Fixture.extname Fixture.getPublicUrl "abcd" (Fixture.holding Fixture.full)
           Fixture.unsavedCompletionMessage (snd Fixture.unsavedCompletion)).
  vm_compute. reflexivity.
Defined.

(** X22. The progress [uploadChunk] returns is the progress stored:
    right after a call that answered [uploaded], [getUploadProgress]
    reports the same percentage and completion flag, one chunk more
    than before the call, and a total of attempts raised by the
    [uploadAttempts] of the call; it changes neither the collection
    nor the requests. *)
Theorem getUploadProgress_after_uploadChunk (pe : ProcessEnv) (E : Oracle)
    (extname : string -> string) (vid : string) (idx : Z) (buf : list Byte.byte)
    (w : World) (p : string) (prog : Q) (c : bool) (a : Z) (w' : World) :
  WellKeyed (db w) ->
  uploadChunk pe E extname vid idx buf w = (Ok (Uploaded idx p prog c a), w') ->
  db_fault E (dbCalls w') = None ->
  exists rep cv,
    db w !! vid = Some cv /\
    getUploadProgress E vid w' = (Ok rep, nextDb w') /\
    pr_progress rep = prog /\ pr_isComplete rep = c /\
    pr_uploadedChunks rep = lengthZ (uploadedChunks cv) + 1 /\
    pr_totalAttempts rep = sumAttempts (uploadedChunks cv) + a.
Proof.
  intros Hkeys Hrun Hf.
  apply uploadChunk_Uploaded_inv in Hrun
    as (cv & Hcv & _ & Ha & Hprog & Hc & Hdb).
  pose proof (Hkeys _ _ Hcv) as Hvid.
  unfold getUploadProgress, tryCatch, bind, findOne.
  rewrite Hf, Hdb, Hvid, lookup_insert_eq.
  eexists _, cv. split; [done |]. split; [reflexivity |].
  cbn [pr_progress pr_isComplete pr_uploadedChunks pr_totalAttempts].
  split; [done |]. split; [done |].
  unfold recordedSession, checkCompletion, calculateProgress.
  cbn [fst uploadedChunks with_isComplete with_progress with_uploadedChunks].
  split.
  - unfold lengthZ. rewrite length_app. cbn. lia.
  - rewrite sumAttempts_snoc. cbn [uploadAttempts]. unfold Js.orZ.
    destruct (Z.eqb_spec a 0); [lia | done].
Qed.

Lemma getUploadProgress_after_uploadChunk_witness :
  exists rep,
    fst (getUploadProgress Fixture.calm "abcd" (snd Fixture.secondChunk)) = Ok rep /\
    pr_uploadedChunks rep = 2.
Proof.
  edestruct getUploadProgress_after_uploadChunk
    with (pe := Fixture.pe) (E := Fixture.calm) (extname := Fixture.extname)
         (vid := "abcd") (idx := 1) (buf := [Byte.x01])
         (w := Fixture.holding Fixture.partial) (w' := snd Fixture.secondChunk)
    as (rep & cv & Hcv & Hrun & _ & _ & Hn & _).
  - intros k cv. cbn [db Fixture.holding]. rewrite lookup_singleton.
    case_decide as Hk; [intros [= <-]; by rewrite <- Hk | discriminate].
  - vm_compute. reflexivity.
  - reflexivity.
  - exists rep. split; [by rewrite Hrun |].
    rewrite Hn. vm_compute in Hcv. injection Hcv as <-. reflexivity.
Defined.

(** X23. A forced cleanup forgets the session: when the record is read
    and deleted without failure, it is gone afterwards, and a later
    [uploadChunk], [completeChunkedUpload] or [getUploadProgress] for
    the identifier fails with "record not found", while a second
    cleanup does nothing. *)
Theorem forced_cleanup_forgets_session (pe : ProcessEnv) (E : Oracle)
    (extname : string -> string) (getPublicUrl : string -> string -> string)
    (vid : string) (w : World) (cv : ChunkedVideo) :
  db w !! vid = Some cv ->
  db_fault E (dbCalls w) = None -> db_fault E (S (dbCalls w)) = None ->
  let w' := snd (cleanupChunks E vid true w) in
  db w' !! vid = None /\
  (db_fault E (dbCalls w') = None ->
   (forall idx buf,
      uploadChunk pe E extname vid idx buf w' =
        (Throw [PStr "AWS failed to upload chunk "; PNum idx; PStr ": ";
                PStr "Chunked video record not found"], nextDb w')) /\
   completeChunkedUpload pe E extname getPublicUrl vid w' =
     (Throw [PStr "AWS failed to complete chunked upload: ";
             PStr "Chunked video record not found"], nextDb w') /\
   getUploadProgress E vid w' =
     (Throw [PStr "AWS failed to get upload progress: ";
             PStr "Chunked video record not found"], nextDb w') /\
   cleanupChunks E vid true w' = (Ok tt, nextDb w')).
Proof.
  intros Hcv Hf Hf' w'.
  assert (Hgone : db w' !! vid = None).
  { unfold w'. rewrite (cleanupChunks_forced_db E vid w cv Hcv Hf Hf').
    apply lookup_delete_eq. }
  split; [done |]. intros Hf2.
  split; [intros idx buf; by apply uploadChunk_missing |].
  split; [| split].
  - unfold completeChunkedUpload, tryCatch, bind, findOne. by rewrite Hf2, Hgone.
  - unfold getUploadProgress, tryCatch, bind, findOne. by rewrite Hf2, Hgone.
  - by apply cleanupChunks_missing.
Qed.

Lemma forced_cleanup_forgets_session_witness :
  db (snd (cleanupChunks Fixture.calm "abcd" true (Fixture.holding Fixture.partial)))
    !! "abcd" = None.
Proof.
  apply (forced_cleanup_forgets_session Fixture.pe Fixture.calm Fixture.extname
           Fixture.getPublicUrl "abcd" (Fixture.holding Fixture.partial) Fixture.partial);
    reflexivity.
Defined.

(** ** The bucket of a session *)

(** X24. [initializeChunkedUpload] chooses the bucket of a session
    without the file name: the session is stored with the videos
    bucket exactly when the content-type is on the list of video
    types. A file accepted as a video for its name, or for a
    [video/...] type that is not on the list, gets a bucket for images
    or documents, although [getBucketForFileType], given a name with a
    video extension, answers [videos]. *)
Theorem initialize_bucket_ignores_name (pe : ProcessEnv) (E : Oracle) (file : File)
    (fld : string) (w : World) (r : InitResult) (w' : World) :
  initializeChunkedUpload pe E file fld w = (Ok r, w') ->
  exists cv,
    db w' !! ir_videoId r = Some cv /\
    (bucket cv = STORAGE_BUCKETS.VIDEOS <->
     In (file_mimetype file) ALLOWED_FILE_TYPES.VIDEOS) /\
    (hasVideoExtension (originalname file) = true ->
     getBucketForFileType (file_mimetype file) fld (originalname file)
       = STORAGE_BUCKETS.VIDEOS).
Proof.
  intros Hrun.
  assert (Hcv : db w' !! ir_videoId r
                = Some (sessionFor pe file fld (ir_videoId r))).
  { revert Hrun.
    unfold initializeChunkedUpload, tryCatch, bind, generateVideoId, save, throw, ret.
    intros H. repeat (case_match; simplify_eq/=; try done).
    apply lookup_insert_eq. }
  eexists. split; [exact Hcv |]. split.
  - cbn [bucket sessionFor newChunkedVideo]. unfold getBucketForFileType.
    cbn [Js.truthy String.eqb negb andb]. rewrite andb_false_r, !orb_false_r.
    rewrite <- inList_true.
    destruct (inList (file_mimetype file) ALLOWED_FILE_TYPES.VIDEOS); [done |].
    split; [| discriminate].
    repeat case_match; discriminate.
  - intros Hext. unfold getBucketForFileType.
    rewrite Hext, (hasVideoExtension_truthy _ Hext). cbn [andb].
    by rewrite orb_true_r.
Qed.

Lemma initialize_bucket_ignores_name_witness :
  exists cv, db (snd Fixture.started) !! "abcd" = Some cv /\ bucket cv = "videos".
Proof.
  destruct (initialize_bucket_ignores_name Fixture.pe (Fixture.failing_after 1)
              Fixture.file25 "videos" Fixture.empty (mkInitResult "abcd" 3 10 2)
              (snd Fixture.started))
    as (cv & Hcv & Hiff & _).
  - vm_compute. reflexivity.
  - exists cv. split; [exact Hcv |]. apply Hiff. cbn. tauto.
Defined.

(** ** Bucket initialisation *)

Lemma createMissingBuckets_spec existing createReply names : forall s sent,
  let missing := filter (fun b => negb (inList b existing)) names in
  let out := createMissingBuckets existing createReply names s sent in
  snd out = sent ++ map createBucketRequest missing /\
  bucketsExisted (fst out) = bucketsExisted s + lengthZ names - lengthZ missing /\
  bucketsCreated (fst out) + bucketsFailed (fst out)
    = bucketsCreated s + bucketsFailed s + lengthZ missing /\
  bucketsCreated s <= bucketsCreated (fst out) /\
  bucketsFailed s <= bucketsFailed (fst out).
Proof.
  unfold lengthZ.
  induction names as [| b names IH]; intros s sent; cbn [createMissingBuckets filter].
  - cbn. rewrite app_nil_r. repeat split; lia.
  - destruct (negb (inList b existing)).
    + match goal with
      | |- context [createMissingBuckets _ _ _ ?s1 ?sent1] =>
          specialize (IH s1 sent1)
      end.
      cbv zeta in IH. destruct IH as (Hsent & Hex & Hsum & Hc & Hf).
      cbv zeta. rewrite Hsent, Hex, Hsum. cbn [map length].
      rewrite <- app_assoc. cbn [app].
      destruct (createReply (length sent)) as [data [e |] | msg |];
        cbn [bucketsCreated bucketsExisted bucketsFailed] in *;
        repeat split; lia.
    + specialize (IH (mkBucketSummary (bucketsCreated s) (bucketsExisted s + 1)
                        (bucketsFailed s)) sent).
      cbv zeta in IH. destruct IH as (Hsent & Hex & Hsum & Hc & Hf).
      cbv zeta. rewrite Hsent, Hex, Hsum.
      cbn [bucketsCreated bucketsExisted bucketsFailed length] in *.
      repeat split; lia.
Qed.

(** X25. [initializeStorageBuckets] asks for the creation of exactly
    the configured buckets that the listing does not name, in the
    order of the configuration, each public and with the allowed types
    and the size limit of that bucket; its three counters add up to
    the six configured buckets, the created and failed ones being the
    requests it made. When the listing fails in any way it makes no
    request. *)
Theorem initializeStorageBuckets_requests (listReply : ServiceReply (list string))
    (createReply : nat -> ServiceReply unit) :
  let out := initializeStorageBuckets listReply createReply in
  (forall r, In r (snd out) ->
     In (cb_name r) storageBucketNames /\ cb_public r = true /\
     cb_allowedMimeTypes r = getAllowedMimeTypes (cb_name r) /\
     cb_fileSizeLimit r = getFileSizeLimit (cb_name r)) /\
  match listReply with
  | Answered (Some existing) None =>
    exists s, fst out = Summary s /\
      map cb_name (snd out)
        = filter (fun b => negb (inList b existing)) storageBucketNames /\
      bucketsCreated s + bucketsExisted s + bucketsFailed s = 6 /\
      bucketsCreated s + bucketsFailed s = lengthZ (snd out) /\
      0 <= bucketsCreated s /\ 0 <= bucketsFailed s
  | _ => snd out = [] /\ forall s, fst out <> Summary s
  end.
Proof.
  intros out. subst out. unfold initializeStorageBuckets.
  destruct listReply as [[existing |] [e |] | msg |];
    try (split; [intros r [] | split; [reflexivity | intros s; discriminate]]).
  pose proof (createMissingBuckets_spec existing createReply storageBucketNames
                (mkBucketSummary 0 0 0) []) as H.
  cbv zeta in H.
  destruct (createMissingBuckets existing createReply storageBucketNames
              (mkBucketSummary 0 0 0) []) as [s sent].
  cbn [fst snd bucketsCreated bucketsExisted bucketsFailed app] in *.
  destruct H as (Hsent & Hex & Hsum & Hc & Hf).
  split.
  - intros r Hr. rewrite Hsent in Hr. apply in_map_iff in Hr as (b & <- & Hb).
    apply filter_In in Hb as [Hb _]. by repeat split.
  - exists s. split; [reflexivity |].
    rewrite Hsent, map_map. cbn [createBucketRequest cb_name]. rewrite map_id.
    split; [reflexivity |].
    unfold lengthZ in *. rewrite length_map.
    change (Z.of_nat (length storageBucketNames)) with 6 in Hex.
    repeat split; lia.
Qed.

Lemma initializeStorageBuckets_requests_witness :
  map cb_name
    (snd (initializeStorageBuckets (Answered (Some ["images"; "videos"]) None)
            (fun _ => Late)))
  = ["documents"; "profiles"; "courses"; "chat-files"].
Proof.
  destruct (initializeStorageBuckets_requests (Answered (Some ["images"; "videos"]) None)
              (fun _ => Late)) as [_ (s & _ & Hnames & _)].
  exact Hnames.
Defined.

(** X26. Initialisation is idle when nothing is missing: if the
    listing names all six configured buckets, no bucket is created and
    the summary counts six existing buckets, whatever else the
    listing names. *)
Theorem initializeStorageBuckets_idle (existing : list string)
    (createReply : nat -> ServiceReply unit) :
  (forall b, In b storageBucketNames -> In b existing) ->
  initializeStorageBuckets (Answered (Some existing) None) createReply
    = (Summary (mkBucketSummary 0 6 0), []).
Proof.
  intros Hall. unfold initializeStorageBuckets.
  assert (Hnone : filter (fun b => negb (inList b existing)) storageBucketNames = []).
  { assert (Hin : Forall (fun b => inList b existing = true) storageBucketNames).
    { apply Forall_forall. intros b Hb. apply inList_true. by apply Hall. }
    clear Hall. induction Hin as [| b l Hb Hl IH]; [done |].
    cbn [filter]. rewrite Hb. cbn [negb]. exact IH. }
  pose proof (createMissingBuckets_spec existing createReply storageBucketNames
                (mkBucketSummary 0 0 0) []) as H.
  cbv zeta in H. rewrite Hnone in H.
  destruct (createMissingBuckets existing createReply storageBucketNames
              (mkBucketSummary 0 0 0) []) as [[created existed failed] sent].
  cbn [fst snd bucketsCreated bucketsExisted bucketsFailed app map] in H.
  destruct H as (-> & Hex & Hsum & Hc & Hf).
  change (lengthZ storageBucketNames) with 6 in Hex.
  change (lengthZ (@nil string)) with 0 in Hex, Hsum.
  assert (created = 0) as -> by lia.
  assert (failed = 0) as -> by lia.
  assert (existed = 6) as -> by lia.
  reflexivity.
Qed.

Lemma initializeStorageBuckets_idle_witness :
  initializeStorageBuckets
    (Answered (Some ["avatars"; "chat-files"; "courses"; "profiles"; "documents";
                     "videos"; "images"]) None)
    (fun _ => Late)
  = (Summary (mkBucketSummary 0 6 0), []).
Proof.
  apply initializeStorageBuckets_idle.
  intros b Hb. cbn in Hb. cbn. intuition.
Defined.

(** * The scheduler *)

(** ** Threads *)

Section ThreadFacts.

Variable pe : ProcessEnv.
Variable E : Oracle.
Variable extname : string -> string.

Lemma finish_mapSettled {A B} (f : Outcome A -> Outcome B) (t : Thread A) :
  forall w, finish (mapSettled f t) w = (f (fst (finish t w)), snd (finish t w)).
Proof.
  revert t. fix IH 1. intros [o | resume] w; cbn [mapSettled finish]; [done |].
  destruct (resume w) as [t' w'] eqn:Hr. apply IH.
Qed.

Lemma finish_retrySegment fuel cv idx fn buf after : forall st w,
  finishS (retrySegment pe E fuel cv idx fn buf st after) w =
    match retryLoop pe E fuel cv idx fn buf st w with
    | (Ok st', w') => finishS (after st') w'
    | (Throw m, w') => (Throw m, w')
    | (OutOfFuel, w') => (OutOfFuel, w')
    end.
Proof.
  induction fuel as [| fuel IH]; intros [[attempts success] path] w; [done |].
  cbn [retrySegment retryLoop].
  destruct ((attempts <? MAX_RETRIES) && negb success); [| done].
  unfold finishS, await, awaiting. cbn [finish].
  unfold bind at 1. unfold tryCatch at 1. unfold bind at 1.
  destruct (attemptUpload pe E cv fn buf w) as [[p | uploadError |] w1]; [| | done].
  - unfold ret at 1. apply IH.
  - destruct (attempts + 1 <? MAX_RETRIES).
    + unfold sync, bind, Math_random, sleep, await, awaiting. cbn [finish].
      unfold ret at 1. apply IH.
    + unfold sync, bind, Date_now, throw, settle. done.
Qed.

Lemma tryCatch_at {A} (body : M A) (handler : Message -> M A) (w : World) :
  tryCatch body handler w =
    match body w with
    | (Throw m, w') => handler m w'
    | r => r
    end.
Proof. reflexivity. Qed.

Lemma finish_uploadChunkT vid idx buf w :
  finish (uploadChunkT pe E extname vid idx buf) w = uploadChunk pe E extname vid idx buf w.
Proof.
  unfold uploadChunkT, uploadChunk. rewrite finish_mapSettled.
  match goal with
  | |- (_, snd (finish ?t w)) = tryCatch ?body ?h w =>
      assert (Hb : finish t w = body w);
      [| rewrite Hb, (tryCatch_at body h w); by destruct (body w) as [[r | m |] w']]
  end.
  unfold awaiting. cbn [finish]. unfold bind at 1.
  destruct (findOne E vid w) as [[[cv |] | m |] w1]; [| done | done | done].
  destruct (find (fun chunk => chunkIndex chunk =? idx) (uploadedChunks cv)); [done |].
  unfold sync at 1. unfold bind at 1.
  change (Date_now E w1) with (Ok (clock E (clockReads w1)), nextClock w1).
  cbv beta iota.
  match goal with
  | |- context [retrySegment _ _ ?f ?c ?i ?n ?b ?st ?a ?w0] =>
      pose proof (finish_retrySegment f c i n b a st w0) as Hloop
  end.
  unfold finishS at 1 in Hloop. rewrite Hloop. clear Hloop.
  unfold bind at 1.
  destruct (retryLoop pe E _ cv idx _ buf _ _) as [[[[attempts success] path] | m |] w3];
    [| done | done].
  unfold finishS, sync, bind, Date_now, await, awaiting, save, settle, ret, throw,
    checkCompletion.
  cbn [finish dbCalls nextClock].
  destruct (db_fault E (dbCalls w3)); reflexivity.
Qed.

Lemma finish_cleanupChunksT vid force w :
  finish (cleanupChunksT E vid force) w = cleanupChunks E vid force w.
Proof.
  unfold cleanupChunksT, cleanupChunks. rewrite finish_mapSettled.
  match goal with
  | |- (_, snd (finish ?t w)) = tryCatch ?body ?h w =>
      assert (Hb : finish t w = body w);
      [| rewrite Hb, (tryCatch_at body h w);
         destruct (body w) as [[[] | m |] w']; reflexivity]
  end.
  unfold awaiting. cbn [finish]. unfold bind at 1.
  destruct (findOne E vid w) as [[[cv |] | m |] w1]; [| done | done | done].
  destruct (negb force && isComplete cv); [done |].
  destruct (lengthZ (map chunkPath (uploadedChunks cv)) >? 0).
  - unfold await, awaiting, bind, tryCatch, storageRemove, settle, ret. cbn [finish].
    destruct (remove_reply E (removeCalls w1)); destruct force;
      unfold deleteOne; cbn [finish];
      repeat match goal with |- context [db_fault E ?n] => destruct (db_fault E n) end;
      done.
  - unfold await, awaiting, bind, settle, ret. destruct force; [| done].
    unfold deleteOne. cbn [finish]. destruct (db_fault E (dbCalls w1)); done.
Qed.

End ThreadFacts.

(** ** What holds at every instant *)

Lemma Keeps_weaken {A} (I : World -> Prop) (Q Q' : Outcome A -> Prop) (t : Thread A) :
  (forall o, Q o -> Q' o) -> Keeps I Q t -> Keeps I Q' t.
Proof.
  intros HQ. revert t. fix IH 1. intros [o | resume]; cbn [Keeps]; [apply HQ |].
  intros H w Hw. destruct (H w Hw) as [Hi Hk]. split; [done |]. by apply IH.
Qed.

Lemma Keeps_mapSettled {A B} (I : World -> Prop) (Q : Outcome A -> Prop)
    (Q' : Outcome B -> Prop) (f : Outcome A -> Outcome B) (t : Thread A) :
  (forall o, Q o -> Q' (f o)) -> Keeps I Q t -> Keeps I Q' (mapSettled f t).
Proof.
  intros HQ. revert t. fix IH 1. intros [o | resume]; cbn [Keeps mapSettled]; [apply HQ |].
  intros H w Hw. destruct (H w Hw) as [Hi Hk].
  destruct (resume w) as [t' w']. split; [done |]. by apply IH.
Qed.

Lemma KeepsS_settle {A} (I : World -> Prop) (Q : Outcome A -> Prop) (o : Outcome A) :
  Q o -> KeepsS I Q (settle o).
Proof. intros Ho w Hw. by split. Qed.

Lemma Keeps_awaiting {X A} (I : World -> Prop) (Q : Outcome A -> Prop) (c : M X)
    (k : Outcome X -> Segment A) :
  Stable I c -> (forall o, KeepsS I Q (k o)) -> Keeps I Q (awaiting c k).
Proof.
  intros Hc Hk w Hw. specialize (Hc w Hw).
  destruct (c w) as [o w']. by apply Hk.
Qed.

Lemma KeepsS_await {X A} (I : World -> Prop) (Q : Outcome A -> Prop) (c : M X)
    (k : Outcome X -> Segment A) :
  Stable I c -> (forall o, KeepsS I Q (k o)) -> KeepsS I Q (await c k).
Proof.
  intros Hc Hk w Hw. split; [done |]. by apply Keeps_awaiting.
Qed.

Lemma KeepsS_sync {X A} (I : World -> Prop) (Q : Outcome A -> Prop) (c : M X)
    (k : X -> Segment A) :
  Stable I c -> (forall w, exists x, fst (c w) = Ok x) ->
  (forall x, KeepsS I Q (k x)) -> KeepsS I Q (sync c k).
Proof.
  intros Hc Hok Hk w Hw. unfold sync. specialize (Hc w Hw).
  destruct (Hok w) as [x Hx]. destruct (c w) as [o w']. cbn in Hx. subst o.
  by apply Hk.
Qed.

(** Awaiting the members of a batch keeps what every member keeps; a
    rejection is the error of a member. *)
Lemma promiseAll_keeps {A} (I : World -> Prop) (Q : Outcome A -> Prop) schedule :
  forall (pool : list (Thread A)) w,
    I w -> Forall (Keeps I Q) pool ->
    let r := promiseAll schedule pool w in
    I (world_then r) /\ Forall (Keeps I Q) (members r) /\
    (forall m, joined r = Throw m -> Q (Throw m)).
Proof.
  induction schedule as [| k schedule IH]; intros pool w Hw Hpool; cbn [promiseAll].
  - destruct (settledValues pool); cbn; repeat split; try done.
  - destruct (settledValues pool); [cbn; repeat split; done |].
    destruct (pool !! k) as [[o | resume] |] eqn:Hk; [by apply IH | | by apply IH].
    pose proof (proj1 (Forall_lookup _ _) Hpool k _ Hk) as Hkeeps.
    cbn [Keeps] in Hkeeps. destruct (Hkeeps w Hw) as [Hw' Ht'].
    destruct (resume w) as [t' w']. cbn [fst snd] in Hw', Ht'.
    assert (Hpool' : Forall (Keeps I Q) (<[k := t']> pool)) by by apply Forall_insert.
    destruct t' as [[a | m |] | resume']; [by apply IH | | | by apply IH].
    + cbn. repeat split; try done. intros m' [= <-]. exact Ht'.
    + cbn. repeat split; done.
Qed.

(** The same for a thread awaited while others go on. *)
Lemma alongside_keeps {A B} (I : World -> Prop) (Q : Outcome A -> Prop)
    (Qm : Outcome B -> Prop) schedule :
  forall (main : Thread B) (pool : list (Thread A)) w,
    I w -> Keeps I Qm main -> Forall (Keeps I Q) pool ->
    let r := alongside schedule main pool w in
    I (world_then r) /\ Forall (Keeps I Q) (members r) /\
    (joined r = OutOfFuel \/ Qm (joined r)).
Proof.
  induction schedule as [| k schedule IH]; intros main pool w Hw Hmain Hpool;
    destruct main as [o | resume]; cbn [alongside];
    try (cbn; repeat split; try done; by right); try (cbn; repeat split; try done; by left).
  destruct (pool !! k) as [[o | member] |] eqn:Hk.
  - cbn [Keeps] in Hmain. destruct (Hmain w Hw) as [Hw' Hm'].
    destruct (resume w) as [main' w']. by apply IH.
  - pose proof (proj1 (Forall_lookup _ _) Hpool k _ Hk) as Hkeeps.
    cbn [Keeps] in Hkeeps. destruct (Hkeeps w Hw) as [Hw' Ht'].
    destruct (member w) as [t' w']. apply IH; [done | done |].
    by apply Forall_insert.
  - cbn [Keeps] in Hmain. destruct (Hmain w Hw) as [Hw' Hm'].
    destruct (resume w) as [main' w']. by apply IH.
Qed.

(** ** The session during the batches *)

Section BatchInvariant.

Variable pe : ProcessEnv.
Variable E : Oracle.
Variable extname : string -> string.
Variable buf : list Byte.byte.
Variable vid : string.
Variable n : Z.
Variable created : ChunkedVideo.
Variable before : list Event.

#[local] Abbreviation Inv := (DuringBatches pe extname buf vid n created before).

Lemma DuringBatches_same w w' :
  db w' = db w -> events w' = events w -> Inv w -> Inv w'.
Proof. intros Hdb Hev [Hs He]. split; by rewrite ?Hdb, ?Hev. Qed.

Lemma DuringBatches_emit e w :
  transferOk pe extname buf vid n created e -> Inv w -> Inv (emit e w).
Proof.
  intros He [Hs (sent & Hev & Hsent)]. split; [done |].
  exists (sent ++ [e]). cbn. rewrite Hev, app_assoc. split; [done |].
  apply Forall_app. split; [done | by constructor].
Qed.

Lemma Stable_findOne id : Stable Inv (findOne E id).
Proof.
  intros w Hw. unfold findOne. destruct (db_fault E (dbCalls w));
    by apply (DuringBatches_same w).
Qed.

Lemma Stable_Date_now : Stable Inv (Date_now E).
Proof. intros w Hw. by apply (DuringBatches_same w). Qed.

Lemma Stable_Math_random : Stable Inv (Math_random E).
Proof. intros w Hw. by apply (DuringBatches_same w). Qed.

Lemma Stable_sleep ms : Stable Inv (sleep ms).
Proof. intros w Hw. by apply DuringBatches_emit. Qed.

Lemma Stable_save cv :
  (videoId cv = vid -> sessionOk pe buf vid n created cv) -> Stable Inv (save E cv).
Proof.
  intros Hcv w Hw. unfold save. destruct (db_fault E (dbCalls w)).
  - by apply (DuringBatches_same w).
  - destruct Hw as [Hs He]. split; [| done].
    intros cv'. cbn. rewrite lookup_insert. case_decide as Hk.
    + intros [= <-]. by apply Hcv.
    + apply Hs.
Qed.

Lemma Stable_deleteOne id : Stable Inv (deleteOne E id).
Proof.
  intros w Hw. unfold deleteOne. destruct (db_fault E (dbCalls w)).
  - by apply (DuringBatches_same w).
  - destruct Hw as [Hs He]. split; [| done].
    intros cv'. cbn. rewrite lookup_delete. case_decide; [done | apply Hs].
Qed.

Lemma Stable_storageRemove bkt paths t msg : Stable Inv (storageRemove E bkt paths t msg).
Proof.
  intros w Hw. unfold storageRemove.
  assert (Hw' : Inv (nextRemove (emit (EvRemove bkt paths t) w))).
  { apply (DuringBatches_same (emit (EvRemove bkt paths t) w)); [done | done |].
    by apply DuringBatches_emit. }
  by destruct (remove_reply E (removeCalls w)).
Qed.

Lemma Stable_attemptUpload cv fn body :
  transferOk pe extname buf vid n created (uploadEvent pe cv fn body) ->
  Stable Inv (attemptUpload pe E cv fn body).
Proof.
  intros Hev w Hw. unfold attemptUpload, bind, storageUpload.
  assert (Hw' : Inv (nextUpload (emit (uploadEvent pe cv fn body) w))).
  { apply (DuringBatches_same (emit (uploadEvent pe cv fn body) w)); [done | done |].
    by apply DuringBatches_emit. }
  unfold uploadEvent in Hw'.
  destruct (upload_reply E (uploadCalls w)) as [[p |] [e |] | m |]; cbn;
    repeat case_match; done.
Qed.

Lemma KeepsS_at {A} (I : World -> Prop) (Q : Outcome A -> Prop) (s : Segment A) w :
  KeepsS I Q s -> I w -> I (snd (s w)) /\ Keeps I Q (fst (s w)).
Proof. intros Hs Hw. by apply Hs. Qed.

Lemma retrySegment_keeps fuel cv i fn body after :
  transferOk pe extname buf vid n created (uploadEvent pe cv fn body) ->
  (forall st, KeepsS Inv (fun _ => True) (after st)) ->
  forall st, KeepsS Inv (fun _ => True) (retrySegment pe E fuel cv i fn body st after).
Proof.
  intros Hev Hafter.
  induction fuel as [| fuel IH]; intros [[attempts success] path]; cbn [retrySegment];
    [by apply KeepsS_settle |].
  destruct ((attempts <? MAX_RETRIES) && negb success); [| apply Hafter].
  apply KeepsS_await; [by apply Stable_attemptUpload |].
  intros [p | uploadError |]; [apply IH | | by apply KeepsS_settle].
  destruct (attempts + 1 <? MAX_RETRIES).
  - apply KeepsS_sync; [apply Stable_Math_random | by eexists |].
    intros rnd. apply KeepsS_await; [apply Stable_sleep |]. intros _. apply IH.
  - apply KeepsS_sync; [apply Stable_Date_now | by eexists |].
    intros timestamp. by apply KeepsS_settle.
Qed.

(** A member of the batch [b .. e-1] for an index of the session keeps
    the session in order and sends the slice of its index only. *)
Lemma uploadChunkT_keeps b e i :
  b <= i < e -> 0 <= i < n ->
  Keeps Inv (memberOutcome b e)
    (uploadChunkT pe E extname vid i (chunkBufferOf pe buf i)).
Proof.
  intros Hbe Hi. unfold uploadChunkT.
  apply (Keeps_mapSettled _ (fun _ => True)).
  { intros [r | m |] _; cbn; [done | by eexists _, _ | done]. }
  unfold awaiting. cbn [Keeps]. intros w Hw.
  pose proof (Stable_findOne vid w Hw) as Hw'.
  unfold findOne in *. destruct (db_fault E (dbCalls w)); [by split |].
  cbn [snd] in Hw'.
  destruct (db w !! vid) as [cv |] eqn:Hcv; [| by split].
  destruct Hw as [Hsession _]. specialize (Hsession cv Hcv).
  destruct Hsession as (Hvid & Htotal & Hurl & Hnodup & Hrecs & Hbkt & Hfld & Hname).
  destruct (find (fun chunk => chunkIndex chunk =? i) (uploadedChunks cv)) eqn:Hfind;
    [by split |].
  apply KeepsS_at; [| done].
  apply KeepsS_sync; [apply Stable_Date_now | by eexists |].
  intros timestamp. apply retrySegment_keeps.
  { unfold transferOk, uploadEvent. exists i, timestamp. split; [done |].
    unfold chunkFilenameOf. by rewrite Hbkt, Hfld, Hname. }
  intros [[attempts success] path].
  apply KeepsS_sync; [apply Stable_Date_now | by eexists |].
  intros now. unfold checkCompletion.
  apply KeepsS_await; [| intros [[] | m |]; by apply KeepsS_settle].
  apply Stable_save. intros _.
  repeat split; try done.
  - cbn. rewrite map_app. apply List.NoDup_app; [done | constructor; [intros [] | constructor] |].
    intros x Hx [<- | []].
    apply in_map_iff in Hx as (rec & Hidx & Hrec).
    pose proof (find_none _ _ Hfind rec Hrec) as Hne. cbn in Hne.
    apply Z.eqb_neq in Hne. done.
  - cbn. apply Forall_app. split; [done |]. constructor; [| constructor].
    by split.
Qed.

(** The cleanup keeps it too. *)
Lemma cleanupChunksT_keeps force :
  Keeps Inv (fun o => o = Ok tt \/ o = OutOfFuel) (cleanupChunksT E vid force).
Proof.
  unfold cleanupChunksT.
  apply (Keeps_mapSettled _ (fun _ => True)).
  { intros [[] | m |] _; auto. }
  apply Keeps_awaiting; [apply Stable_findOne |].
  intros [[cv |] | m |]; try by apply KeepsS_settle.
  destruct (negb force && isComplete cv); [by apply KeepsS_settle |].
  assert (Hrest : KeepsS Inv (fun _ : Outcome unit => True)
                    (if force then await (deleteOne E vid) settle else settle (Ok tt))).
  { destruct force; [| by apply KeepsS_settle].
    apply KeepsS_await; [apply Stable_deleteOne |]. intros o. by apply KeepsS_settle. }
  destruct (lengthZ (map chunkPath (uploadedChunks cv)) >? 0); [| done].
  apply KeepsS_await; [apply Stable_storageRemove | done].
Qed.

End BatchInvariant.

(** ** The batches of a run *)

Section BatchLoopFacts.

Variable pe : ProcessEnv.
Variable E : Oracle.
Variable extname : string -> string.
Variable buf : list Byte.byte.
Variable vid : string.
Variable n : Z.
Variable created : ChunkedVideo.
Variable before : list Event.

#[local] Abbreviation Inv := (DuringBatches pe extname buf vid n created before).

(** The members of a batch that starts at [b]: when the width is
    negative there is none, otherwise [b] is not negative and their
    indices are indices of the session. *)
Lemma batchMembers_keeps b maxc :
  0 <= b \/ maxc < 0 ->
  Forall (Keeps Inv (memberOutcome b (Z.min (b + maxc) n)))
    (batchMembers pe E extname (Z.to_nat (Z.min (b + maxc) n - b)) vid buf b).
Proof.
  intros Hb. unfold batchMembers. apply Forall_forall. intros t Ht.
  apply in_map_iff in Ht as (k & <- & Hk). apply in_seq in Hk.
  apply uploadChunkT_keeps; lia.
Qed.

Lemma batchLoop_keeps fuel : forall schedule maxc b acc w,
  0 <= b \/ maxc < 0 -> Inv w ->
  Inv (world_then (batchLoop pe E extname fuel schedule vid buf n maxc b acc w)).
Proof.
  induction fuel as [| fuel IH]; intros schedule maxc b acc w Hb Hw; [done |].
  cbn [batchLoop]. destruct (b <? n); [| done].
  pose proof (promiseAll_keeps Inv _ schedule _ w Hw (batchMembers_keeps b maxc Hb))
    as (Hw1 & Hpool & _).
  cbv zeta in Hw1, Hpool.
  set (batch := promiseAll schedule _ w) in *.
  destruct (joined batch) as [results | batchErr |]; [| | done].
  - apply IH; [lia |].
    destruct (Z.min (b + maxc) n <? n); [by apply Stable_sleep | done].
  - pose proof (alongside_keeps Inv _ _ (schedule_left batch) _ _ _ Hw1
                  (cleanupChunksT_keeps pe E extname buf vid n created before true) Hpool)
      as (Hw2 & _ & _).
    cbv zeta in Hw2.
    by destruct (joined (alongside _ _ _ _)).
Qed.

End BatchLoopFacts.

(** ** Sorted sessions *)

Lemma sorted_span (l : list ChunkRecord) : forall lo hi,
  sortedByIndex l -> NoDup (map chunkIndex l) ->
  Forall (fun c => lo <= chunkIndex c < hi) l -> l <> [] ->
  lengthZ l <= hi - lo.
Proof.
  unfold lengthZ.
  induction l as [| c r IH]; intros lo hi Hs Hn Hall Hne; [done |].
  destruct Hs as [Hle Hs]. apply NoDup_cons_iff in Hn as [Hnotin Hn].
  apply Forall_cons_iff in Hall as [Hc Hall].
  destruct r as [| d r]; [cbn; lia |].
  specialize (IH (chunkIndex c + 1) hi Hs Hn).
  cbn [length] in *. enough (Z.of_nat (S (length r)) <= hi - (chunkIndex c + 1)) by lia.
  apply IH; [| done].
  apply Forall_forall. intros x Hx.
  pose proof (proj1 (Forall_forall _ _) Hle x Hx) as H1.
  pose proof (proj1 (Forall_forall _ _) Hall x Hx) as H2.
  cbv beta in *. assert (chunkIndex x <> chunkIndex c); [| lia].
  intros Heq. apply Hnotin. rewrite <- Heq. exact (in_map chunkIndex _ _ Hx).
Qed.

Lemma sorted_indexRange (l : list ChunkRecord) : forall a,
  sortedByIndex l -> NoDup (map chunkIndex l) ->
  Forall (fun c => a <= chunkIndex c < a + lengthZ l) l ->
  map chunkIndex l = indexRange a (a + lengthZ l).
Proof.
  unfold lengthZ.
  induction l as [| c r IH]; intros a Hs Hn Hall.
  { cbn. by rewrite indexRange_empty by lia. }
  pose proof Hs as [Hle Hs']. pose proof Hn as Hn0.
  apply NoDup_cons_iff in Hn as [Hnotin Hn].
  pose proof Hall as Hall0. apply Forall_cons_iff in Hall as [Hc Hall].
  assert (Hlater : Forall (fun x => chunkIndex c + 1 <= chunkIndex x < a + Z.of_nat (length (c :: r))) r).
  { apply Forall_forall. intros x Hx.
    pose proof (proj1 (Forall_forall _ _) Hle x Hx) as H1.
    pose proof (proj1 (Forall_forall _ _) Hall x Hx) as H2.
    cbv beta in *. assert (chunkIndex x <> chunkIndex c); [| lia].
    intros Heq. apply Hnotin. rewrite <- Heq. exact (in_map chunkIndex _ _ Hx). }
  assert (Hca : chunkIndex c = a).
  { destruct r as [| d r]; [cbn in Hc; lia |].
    pose proof (sorted_span (d :: r) _ _ Hs' Hn Hlater ltac:(done)) as Hspan.
    unfold lengthZ in Hspan. cbn [length] in Hspan, Hc.
    rewrite !Nat2Z.inj_succ in Hspan, Hc. clear - Hspan Hc. lia. }
  rewrite <- (indexRange_split a (a + 1) (a + Z.of_nat (length (c :: r))))
    by (cbn [length]; lia).
  replace (indexRange a (a + 1)) with [a].
  2: { unfold indexRange. replace (a + 1 - a) with 1 by lia.
       change (Z.to_nat 1) with 1%nat. cbn [seq map]. f_equal. lia. }
  cbn [map app]. f_equal; [done |].
  replace (a + Z.of_nat (length (c :: r))) with (a + 1 + Z.of_nat (length r))
    by (cbn [length]; lia).
  apply IH; [done | done |].
  apply Forall_forall. intros x Hx.
  pose proof (proj1 (Forall_forall _ _) Hlater x Hx) as H1. cbv beta in *. cbn [length] in H1. lia.
Qed.

(** A session in order that holds as many records as it has chunks
    holds, once sorted, the chunks [0 .. n-1]. *)
Lemma sessionOk_full pe buf vid n created cv :
  sessionOk pe buf vid n created cv -> lengthZ (uploadedChunks cv) = n ->
  let sorted := sortByIndex (uploadedChunks cv) in
  map chunkIndex sorted = indices n /\
  map rec_chunkSize sorted = map (fun i => lengthZ (chunkBufferOf pe buf i)) (indices n).
Proof.
  intros (_ & _ & _ & Hnodup & Hrecs & _) Hlen sorted.
  pose proof (sortByIndex_perm (uploadedChunks cv)) as Hperm. fold sorted in Hperm.
  assert (Hlen' : lengthZ sorted = n).
  { unfold lengthZ in *. by rewrite (Permutation_length Hperm). }
  assert (Hrecs' : Forall (chunkRecordOk pe buf n) sorted).
  { apply Forall_forall. intros x Hx. apply (proj1 (Forall_forall _ _) Hrecs).
    by apply (Permutation_in _ Hperm). }
  assert (Hidx : map chunkIndex sorted = indices n).
  { rewrite indices_indexRange, <- Hlen'.
    apply (sorted_indexRange sorted 0); [apply sortByIndex_sorted | |].
    - apply (Permutation_NoDup (l := map chunkIndex (uploadedChunks cv))); [| done].
      apply Permutation_map. by symmetry.
    - apply Forall_forall. intros x Hx.
      destruct (proj1 (Forall_forall _ _) Hrecs' x Hx) as [H _]. lia. }
  split; [done |].
  rewrite <- Hidx, map_map. apply map_ext_in. intros x Hx.
  by destruct (proj1 (Forall_forall _ _) Hrecs' x Hx) as [_ H].
Qed.

(** ** Requests of a given kind *)

Lemma Adds_same {A} (P : Event -> Prop) (c : M A) :
  (forall w, events (snd (c w)) = events w) -> Adds P c.
Proof. intros H w. exists []. by rewrite H, app_nil_r. Qed.

Lemma Adds_ret {A} (P : Event -> Prop) (a : A) : Adds P (ret a).
Proof. by apply Adds_same. Qed.

Lemma Adds_throw {A} (P : Event -> Prop) m : Adds P (@throw A m).
Proof. by apply Adds_same. Qed.

Lemma Adds_bind {A B} (P : Event -> Prop) (c : M A) (k : A -> M B) :
  Adds P c -> (forall a, Adds P (k a)) -> Adds P (bind c k).
Proof.
  intros Hc Hk w. unfold bind. destruct (Hc w) as (l & Hl & HP).
  destruct (c w) as [[a | m |] w1]; simpl in *; [| by exists l ..].
  destruct (Hk a w1) as (l' & Hl' & HP'). exists (l ++ l').
  split; [by rewrite Hl', Hl, app_assoc | by apply Forall_app].
Qed.

Lemma Adds_tryCatch {A} (P : Event -> Prop) (c : M A) (h : Message -> M A) :
  Adds P c -> (forall m, Adds P (h m)) -> Adds P (tryCatch c h).
Proof.
  intros Hc Hh w. unfold tryCatch. destruct (Hc w) as (l & Hl & HP).
  destruct (c w) as [[a | m |] w1]; simpl in *; [by exists l | | by exists l].
  destruct (Hh m w1) as (l' & Hl' & HP'). exists (l ++ l').
  split; [by rewrite Hl', Hl, app_assoc | by apply Forall_app].
Qed.

Section AddsFacts.

Variable pe : ProcessEnv.
Variable E : Oracle.
Variable extname : string -> string.
Variable getPublicUrl : string -> string -> string.
Variable P : Event -> Prop.

Lemma Adds_Date_now : Adds P (Date_now E).
Proof. by apply Adds_same. Qed.

Lemma Adds_generateVideoId : Adds P (generateVideoId E).
Proof. by apply Adds_same. Qed.

Lemma Adds_findOne id : Adds P (findOne E id).
Proof. apply Adds_same. intros w. unfold findOne. by destruct (db_fault E (dbCalls w)). Qed.

Lemma Adds_save cv : Adds P (save E cv).
Proof. apply Adds_same. intros w. unfold save. by destruct (db_fault E (dbCalls w)). Qed.

Lemma Adds_extractVideoMetadata : Adds P (extractVideoMetadata E).
Proof.
  apply Adds_same. intros w. unfold extractVideoMetadata.
  by destruct (metadata_duration E (metadataCalls w)).
Qed.

Lemma Adds_storageUpload b p body ct up t tm :
  P (EvUpload b p body ct up t) -> Adds P (storageUpload E b p body ct up t tm).
Proof.
  intros HP w. exists [EvUpload b p body ct up t]. unfold storageUpload.
  split; [by destruct (upload_reply E (uploadCalls w)) | by constructor].
Qed.

End AddsFacts.

Create HintDb adds.

#[local] Hint Resolve Adds_ret Adds_throw Adds_Date_now Adds_generateVideoId
  Adds_findOne Adds_save Adds_extractVideoMetadata : adds.

Ltac adds :=
  repeat first
    [ progress auto with adds
    | apply Adds_bind; [| intros ? ]
    | apply Adds_tryCatch; [| intros ? ]
    | match goal with
      | |- Adds _ (match ?x with _ => _ end) => destruct x
      | |- Adds _ (let '(_, _) := ?x in _) => destruct x
      end ].

Section AddsFunctions.

Variable pe : ProcessEnv.
Variable E : Oracle.
Variable extname : string -> string.
Variable getPublicUrl : string -> string -> string.
Variable P : Event -> Prop.

Lemma Adds_initializeChunkedUpload file fld :
  Adds P (initializeChunkedUpload pe E file fld).
Proof. unfold initializeChunkedUpload. adds. Qed.

(** The completion sends the manifest only. *)
Lemma Adds_completeChunkedUpload vid :
  (forall b p m ct up t, P (EvUpload b p (ManifestJson m) ct up t)) ->
  Adds P (completeChunkedUpload pe E extname getPublicUrl vid).
Proof.
  intros HP. unfold completeChunkedUpload. adds. by apply Adds_storageUpload.
Qed.

End AddsFunctions.

(** ** Runs of the scheduler *)

Section RunFacts.

Variable pe : ProcessEnv.
Variable E : Oracle.
Variable extname : string -> string.
Variable getPublicUrl : string -> string -> string.

Lemma tryCatch_rethrow {A} (c : M A) (f : Message -> Message) w :
  tryCatch c (fun error => throw (f error)) w =
    (match fst (c w) with Throw m => Throw (f m) | o => o end, snd (c w)).
Proof. unfold tryCatch, throw. by destruct (c w) as [[a | m |] w1]. Qed.

(** What the initialisation leaves: the new session under the
    identifier it drew, and no request. *)
Lemma initialize_Ok_world file fld w r w' :
  initializeChunkedUpload pe E file fld w = (Ok r, w') ->
  let vid := randomBytesHex E (idDraws w) in
  db w' !! vid = Some (sessionFor pe file fld vid) /\ events w' = events w.
Proof.
  unfold initializeChunkedUpload, tryCatch, bind, generateVideoId, save, throw, ret.
  intros H. repeat (case_match; simplify_eq/=; try done).
  split; [apply lookup_insert_eq | done].
Qed.

Lemma initialize_Ok_during file fld w r w' :
  initializeChunkedUpload pe E file fld w = (Ok r, w') ->
  DuringBatches pe extname (bufferOf file) (randomBytesHex E (idDraws w))
    (Js.ceilDiv (size file) (CHUNK_SIZE pe))
    (sessionFor pe file fld (randomBytesHex E (idDraws w))) (events w) w'.
Proof.
  intros H. apply initialize_Ok_world in H as [Hdb Hev]. split.
  - intros cv Hcv. rewrite Hdb in Hcv. injection Hcv as <-.
    repeat split; try done; constructor.
  - exists []. by rewrite app_nil_r.
Qed.

(** The world in which the batch loop of a run ends. *)
Lemma batchLoop_during file fld w r w0 schedule fuel :
  initializeChunkedUpload pe E file fld w = (Ok r, w0) ->
  let vid := randomBytesHex E (idDraws w) in
  let n := Js.ceilDiv (size file) (CHUNK_SIZE pe) in
  DuringBatches pe extname (bufferOf file) vid n (sessionFor pe file fld vid) (events w)
    (world_then (batchLoop pe E extname fuel schedule vid (bufferOf file) n
                   (MAX_CONCURRENT_CHUNKS pe) 0 [] w0)).
Proof.
  intros Hinit vid n. apply batchLoop_keeps; [lia |].
  by apply (initialize_Ok_during file fld w r).
Qed.

(** Every request of a run: the transfers of bytes carry the slice of
    an index of the file to a chunk path of that index. *)
Lemma uploadVideoInChunks_sends schedule fuel file fld w :
  let vid := randomBytesHex E (idDraws w) in
  let n := Js.ceilDiv (size file) (CHUNK_SIZE pe) in
  exists sent,
    events (snd (uploadVideoInChunks pe E extname getPublicUrl schedule fuel file fld w))
      = events w ++ sent /\
    Forall (transferOk pe extname (bufferOf file) vid n (sessionFor pe file fld vid)) sent.
Proof.
  intros vid n. unfold uploadVideoInChunks. rewrite tryCatch_rethrow. cbn [snd].
  unfold bind at 1.
  destruct (Adds_initializeChunkedUpload pe E
              (transferOk pe extname (bufferOf file) vid n (sessionFor pe file fld vid))
              file fld w)
    as (l0 & Hl0 & HP0).
  destruct (initializeChunkedUpload pe E file fld w) as [[r0 | m |] w0] eqn:Hinit;
    [| by exists l0 ..].
  pose proof (batchLoop_during file fld w r0 w0 schedule fuel Hinit) as Hloop.
  cbv zeta in Hloop. fold vid n in Hloop.
  apply initialize_Ok_inv in Hinit. subst r0.
  cbn [ir_videoId ir_totalChunks ir_maxConcurrentChunks]. fold vid n.
  unfold bind at 1.
  set (batches := batchLoop pe E extname fuel schedule vid (bufferOf file) n _ 0 [] w0) in *.
  destruct Hloop as [_ (sent & Hsent & HPsent)].
  destruct (joined batches) as [rs | m |]; [| by exists sent ..].
  match goal with
  | |- context [bind (findOne E vid) ?k (world_then batches)] =>
      assert (Htail : Adds (transferOk pe extname (bufferOf file) vid n
                              (sessionFor pe file fld vid))
                        (bind (findOne E vid) k))
  end.
  { pose proof (Adds_completeChunkedUpload pe E extname getPublicUrl
                  (transferOk pe extname (bufferOf file) vid n
                     (sessionFor pe file fld vid)) vid ltac:(done)).
    adds. }
  destruct (Htail (world_then batches)) as (l & Hl & HPl).
  exists (sent ++ l). split; [by rewrite Hl, Hsent, app_assoc | by apply Forall_app].
Qed.

(** What a run returns, when it returns: the first completion of the
    session, with the chunks [0 .. n-1] in order, each with the length
    of its slice. *)
Lemma uploadVideoInChunks_Ok_inv schedule fuel file fld w r w' :
  uploadVideoInChunks pe E extname getPublicUrl schedule fuel file fld w = (Ok r, w') ->
  let n := Js.ceilDiv (size file) (CHUNK_SIZE pe) in
  exists info cv,
    r = Completed info /\
    ci_videoId info = randomBytesHex E (idDraws w) /\
    map cu_index (ci_chunks info) = indices n /\
    map cu_size (ci_chunks info)
      = map (fun i => lengthZ (chunkBufferOf pe (bufferOf file) i)) (indices n) /\
    ci_duration info <> None /\
    db w' !! ci_videoId info = Some cv /\
    isComplete cv = true /\
    finalVideoUrl cv = Some (ci_manifestUrl info) /\
    map chunkIndex (uploadedChunks cv) = indices n.
Proof.
  intros Hrun n.
  unfold uploadVideoInChunks, tryCatch in Hrun. unfold bind at 1 in Hrun.
  destruct (initializeChunkedUpload pe E file fld w) as [[r0 | m |] w0] eqn:Hinit;
    [| discriminate | discriminate].
  pose proof (batchLoop_during file fld w r0 w0 schedule fuel Hinit) as Hloop.
  cbv zeta in Hloop. fold n in Hloop.
  apply initialize_Ok_inv in Hinit. subst r0.
  cbn [ir_videoId ir_totalChunks ir_maxConcurrentChunks] in Hrun.
  fold n in Hrun.
  set (vid := randomBytesHex E (idDraws w)) in *.
  unfold bind at 1 in Hrun.
  set (batches := batchLoop pe E extname fuel schedule vid (bufferOf file) n _ 0 [] w0) in *.
  destruct (joined batches) as [rs | m |]; [| discriminate | discriminate].
  set (w1 := world_then batches) in *.
  destruct Hloop as [Hsession _].
  unfold bind at 1 in Hrun. unfold findOne at 1 in Hrun.
  destruct (db_fault E (dbCalls w1)); [discriminate |].
  destruct (db w1 !! vid) as [cv |] eqn:Hcv; [| discriminate].
  specialize (Hsession cv eq_refl).
  destruct (lengthZ (uploadedChunks cv) =? n) eqn:Hlen; [| discriminate].
  apply Z.eqb_eq in Hlen.
  destruct (sessionOk_full pe (bufferOf file) vid n _ cv Hsession Hlen) as [Hidx Hsizes].
  destruct Hsession as (Hvid & Hn & Hurl & _ & _).
  cbn [negb] in Hrun.
  unfold checkCompletion, calculateProgress in Hrun.
  cbn [uploadedChunks totalChunks with_progress with_isComplete] in Hrun.
  rewrite Hn, Hlen, Z.eqb_refl in Hrun. cbn [negb] in Hrun.
  unfold bind at 1 in Hrun. unfold save at 1 in Hrun.
  cbn [dbCalls nextDb] in Hrun.
  destruct (db_fault E (S (dbCalls w1))); [discriminate |].
  unfold bind at 1 in Hrun. unfold extractVideoMetadata in Hrun.
  destruct (metadata_duration E _) as [d |]; [| unfold ret at 1 in Hrun].
  all: unfold bind at 1 in Hrun.
  all: match type of Hrun with
       | context [completeChunkedUpload ?a ?b ?c ?d ?v ?w3] =>
           destruct (completeChunkedUpload a b c d v w3)
             as [[fr | m |] w4] eqn:Hdone; [| discriminate | discriminate]
       end.
  all: eapply completeChunkedUpload_Ok_inv in Hdone;
    [| cbn [db nextDb nextMetadata set_db videoId with_isComplete with_progress];
       rewrite Hvid; apply lookup_insert_eq
     | reflexivity
     | unfold finalVideoUrlSet; cbn; by rewrite Hurl].
  all: destruct Hdone as (info & -> & Hid & _ & Hmurl & Hchunks & _ & Hdb4).
  all: injection Hrun as <- <-.
  all: cbn [uploadedChunks with_isComplete with_progress] in Hchunks, Hdb4.
  all: eexists _, _; (split; [reflexivity |]).
  all: cbn [ci_videoId ci_chunks ci_duration ci_manifestUrl].
  all: split; [done |]; split;
    [rewrite Hchunks, map_map; cbn [chunkUrlOf cu_index]; exact Hidx |].
  all: split; [rewrite Hchunks, map_map; cbn [chunkUrlOf cu_size]; exact Hsizes |].
  all: split; [done |]; split;
    [rewrite Hdb4, Hid; cbn [videoId with_isComplete with_progress]; rewrite Hvid;
     apply lookup_insert_eq |].
  all: cbn; repeat split; try done.
  all: by rewrite Hmurl.
Qed.

End RunFacts.

(** ** A batch that fails *)

Lemma Keeps_any {A} (t : Thread A) : Keeps (fun _ => True) (fun _ => True) t.
Proof.
  revert t. fix IH 1. intros [o | resume]; cbn [Keeps]; [done |].
  intros w _. split; [done | apply IH].
Qed.

Lemma Lands_mapSettled {A B} (P : World -> Prop) (f : Outcome A -> Outcome B)
    (t : Thread A) :
  Lands P t -> Lands P (mapSettled f t).
Proof.
  revert t. fix IH 1. intros [o | resume]; cbn [Lands mapSettled]; [done |].
  intros H w. specialize (H w). destruct (resume w) as [t' w']. cbn [fst snd] in *.
  destruct H as [HP Ht]. split; [by destruct t' | by apply IH].
Qed.

(** The main thread, awaited while the others go on, lands where it
    lands by itself. *)
Lemma alongside_lands {A B} (P : World -> Prop) schedule :
  forall (resume : World -> Thread B * World) (pool : list (Thread A)) w,
    Lands P (Awaiting resume) ->
    joined (alongside schedule (Awaiting resume) pool w) <> OutOfFuel ->
    P (world_then (alongside schedule (Awaiting resume) pool w)).
Proof.
  induction schedule as [| k schedule IH]; intros resume pool w Hmain Hend;
    cbn [alongside] in *; [done |].
  assert (Hgo : forall w',
            joined (let (main', w'') := resume w' in alongside schedule main' pool w'')
              <> OutOfFuel ->
            P (world_then (let (main', w'') := resume w' in
                           alongside schedule main' pool w''))).
  { intros w' Hend'. cbn [Lands] in Hmain. specialize (Hmain w').
    destruct (resume w') as [[o | resume'] w'']; cbn [fst snd] in Hmain.
    - destruct schedule; by destruct Hmain.
    - apply IH; [by destruct Hmain | done]. }
  destruct (pool !! k) as [[o | member] |]; [by apply Hgo | | by apply Hgo].
  destruct (member w) as [t' w']. by apply IH.
Qed.

Lemma forallb_lookup {A} (f : A -> bool) (l : list A) : forall k x,
  forallb f l = true -> l !! k = Some x -> f x = true.
Proof.
  induction l as [| y l IH]; intros [| k] x Hall Hk; try done;
    cbn in Hall, Hk; apply andb_prop in Hall as [Hy Hl].
  - by injection Hk as <-.
  - by apply (IH k).
Qed.

Lemma alongside_alone {A B} (pool : list (Thread A)) schedule :
  forallb isSettled pool = true ->
  forall (main : Thread B) w,
    let r := alongside schedule main pool w in
    joined r <> OutOfFuel ->
    joined r = fst (finish main w) /\ world_then r = snd (finish main w) /\
    members r = pool.
Proof.
  intros Hpool.
  induction schedule as [| k schedule IH]; intros [o | resume] w r Hend; subst r;
    cbn [alongside finish] in *; try done.
  destruct (pool !! k) as [[o | member] |] eqn:Hk.
  - destruct (resume w) as [main' w']. by apply IH.
  - by pose proof (forallb_lookup _ _ _ _ Hpool Hk).
  - destruct (resume w) as [main' w']. by apply IH.
Qed.

Section FailingBatch.

Variable pe : ProcessEnv.
Variable E : Oracle.
Variable extname : string -> string.
Variable getPublicUrl : string -> string -> string.

(** A batch rejects with the error of [uploadChunk] for one of its
    indices. *)
Lemma batch_rejects_with_member schedule k vid buf b w cause :
  joined (promiseAll schedule (batchMembers pe E extname k vid buf b) w) = Throw cause ->
  exists i err,
    b <= i < b + Z.of_nat k /\
    cause = [PStr "AWS failed to upload chunk "; PNum i; PStr ": "] ++ err.
Proof.
  intros Hfail.
  pose proof (promiseAll_keeps (fun _ => True) (memberOutcome b (b + Z.of_nat k))
                schedule (batchMembers pe E extname k vid buf b) w I) as H.
  destruct H as (_ & _ & H); [| by apply (H cause)].
  unfold batchMembers. apply Forall_forall. intros t Ht.
  apply in_map_iff in Ht as (j & <- & Hj). apply in_seq in Hj.
  unfold uploadChunkT. apply (Keeps_mapSettled _ (fun _ => True)); [| apply Keeps_any].
  intros [r | m |] _; cbn; [done | | done].
  eexists _, _. split; [| reflexivity]. lia.
Qed.

(** The forced cleanup settles with a value. *)
Lemma cleanup_settles_Ok {A} schedule vid (pool : list (Thread A)) w :
  let r := alongside schedule (cleanupChunksT E vid true) pool w in
  joined r <> OutOfFuel -> joined r = Ok tt.
Proof.
  intros r Hend.
  pose proof (alongside_keeps (fun _ => True) (fun _ : Outcome A => True)
                (fun o => o = Ok tt \/ o = OutOfFuel) schedule
                (cleanupChunksT E vid true) pool w I) as H.
  destruct H as (_ & _ & [H | [H | H]]); try done.
  - unfold cleanupChunksT. apply (Keeps_mapSettled _ (fun _ => True)); [| apply Keeps_any].
    intros [[] | m |] _; auto.
  - apply Forall_forall. intros t _. apply Keeps_any.
Qed.

(** When no persistence call fails, the forced cleanup settles in a
    world without the session record. *)
Lemma cleanupChunksT_lands vid :
  (forall k, db_fault E k = None) ->
  Lands (fun w => db w !! vid = None) (cleanupChunksT E vid true).
Proof.
  intros db_ok. unfold cleanupChunksT. apply Lands_mapSettled.
  unfold awaiting. cbn [Lands]. intros w. unfold findOne. rewrite db_ok.
  destruct (db w !! vid) as [cv |] eqn:Hcv; [| by split].
  cbn [negb andb].
  assert (Hdel : Lands (fun w => db w !! vid = None)
                   (awaiting (deleteOne E vid) (@settle unit))).
  { unfold awaiting. cbn [Lands]. intros w'. unfold deleteOne. rewrite db_ok.
    cbn. split; [apply lookup_delete_eq | done]. }
  destruct (lengthZ (map chunkPath (uploadedChunks cv)) >? 0); cbn [await fst snd];
    [| by split].
  split; [done |]. unfold awaiting at 1. cbn [Lands]. intros w'.
  destruct (storageRemove E _ _ _ _ w') as [o w'']. cbn [await fst snd]. by split.
Qed.

(** The batch loop after [k] batches that pass and one that fails. *)
Lemma batchLoop_fails_after k vid buf tchunks maxc s0 b0 w0 s b w' :
  BatchProgress pe E extname vid buf tchunks maxc k s0 b0 w0 s b w' ->
  b < tchunks ->
  forall cause fuel acc,
    let failing :=
      promiseAll s (batchMembers pe E extname (Z.to_nat (Z.min (b + maxc) tchunks - b))
                      vid buf b) w' in
    let cleanup :=
      alongside (schedule_left failing) (cleanupChunksT E vid true) (members failing)
        (world_then failing) in
    joined failing = Throw cause ->
    joined cleanup <> OutOfFuel ->
    (k < fuel)%nat ->
    batchLoop pe E extname fuel s0 vid buf tchunks maxc b0 acc w0 =
      mkJoined (Throw (batchError b cause)) (members cleanup) (world_then cleanup)
        (schedule_left cleanup).
Proof.
  induction 1 as [s b w | k s b w results s' b' w' Hlt Hpass Hrest IH];
    intros Hb cause fuel acc failing cleanup Hfail Hclean Hfuel.
  - destruct fuel as [| fuel]; [lia |]. cbn [batchLoop].
    destruct (Z.ltb_spec b tchunks); [| lia].
    fold failing. rewrite Hfail. fold cleanup.
    by destruct (joined cleanup).
  - destruct fuel as [| fuel]; [lia |]. cbn [batchLoop].
    destruct (Z.ltb_spec b tchunks); [| lia].
    rewrite Hpass. unfold afterBatch, sleep in *. cbn [snd].
    apply IH; [done | done | done | lia].
Qed.

Lemma uploadVideoInChunks_failing_batch schedule fuel k file fld w init w0 s b w' cause :
  initializeChunkedUpload pe E file fld w = (Ok init, w0) ->
  BatchProgress pe E extname (ir_videoId init) (bufferOf file) (ir_totalChunks init)
    (ir_maxConcurrentChunks init) k schedule 0 w0 s b w' ->
  b < ir_totalChunks init ->
  let failing :=
    promiseAll s
      (batchMembers pe E extname
         (Z.to_nat (Z.min (b + ir_maxConcurrentChunks init) (ir_totalChunks init) - b))
         (ir_videoId init) (bufferOf file) b) w' in
  let cleanup :=
    alongside (schedule_left failing) (cleanupChunksT E (ir_videoId init) true)
      (members failing) (world_then failing) in
  joined failing = Throw cause ->
  joined cleanup <> OutOfFuel ->
  (k < fuel)%nat ->
  uploadVideoInChunks pe E extname getPublicUrl schedule fuel file fld w =
    (Throw ([PStr "AWS chunked video upload failed: ";
             PStr "AWS failed to upload batch starting at chunk "; PNum (b + 1);
             PStr ": "] ++ cause), world_then cleanup).
Proof.
  intros Hinit Hprog Hb failing cleanup Hfail Hclean Hfuel.
  unfold uploadVideoInChunks, tryCatch at 1. unfold bind at 1. rewrite Hinit.
  unfold bind at 1.
  rewrite (batchLoop_fails_after k _ _ _ _ _ _ _ _ _ _ Hprog Hb cause fuel [] Hfail
             Hclean Hfuel).
  reflexivity.
Qed.

End FailingBatch.

(** ** Batches of no member, and of one *)

Lemma promiseAll_nil {A} schedule w :
  promiseAll schedule (@nil (Thread A)) w = mkJoined (Ok []) [] w schedule.
Proof. by destruct schedule. Qed.

Lemma settlesWithin_mapSettled {A B} (f : Outcome A -> Outcome B) m :
  forall (t : Thread A) w, settlesWithin m t w -> settlesWithin m (mapSettled f t) w.
Proof.
  induction m as [| m IH]; intros [o | resume] w H; cbn [settlesWithin mapSettled] in *;
    try done.
  destruct (resume w) as [t' w']. by apply IH.
Qed.

(** A member alone in its batch, picked at every instant, settles as
    it does when nothing else runs. *)
Lemma promiseAll_alone {A} m : forall (t : Thread A) w k r,
  settlesWithin m t w -> fst (finish t w) = Ok r ->
  exists k', (k <= k')%nat /\
    promiseAll (repeat 0%nat (m + k)) [t] w =
      mkJoined (Ok [r]) [Settled (Ok r)] (snd (finish t w)) (repeat 0%nat k').
Proof.
  induction m as [| m IH]; intros [o | resume] w k r Hm Hr; cbn [settlesWithin] in Hm;
    try done.
  - cbn [finish fst snd] in *. subst o. exists (0 + k)%nat. split; [lia |].
    by destruct (repeat 0%nat (0 + k)).
  - cbn [finish fst snd] in *. subst o. exists (S m + k)%nat. split; [lia |].
    by destruct (repeat 0%nat (S m + k)).
  - cbn [finish] in *. cbn [Nat.add repeat promiseAll settledValues].
    change ([Awaiting resume] !! 0%nat) with (Some (Awaiting resume)).
    cbv iota beta.
    destruct (resume w) as [t' w'] eqn:Hstep. cbn [fst snd] in Hm.
    change (<[0%nat := t']> [Awaiting resume]) with [t'].
    destruct (IH t' w' k r Hm Hr) as (k' & Hk' & Hrest).
    exists k'. split; [done |].
    destruct t' as [[a | msg |] | resume']; cbn [finish fst] in Hr;
      try discriminate Hr; exact Hrest.
Qed.

Section SerialRun.

Variable pe : ProcessEnv.
Variable E : Oracle.
Variable extname : string -> string.
Variable getPublicUrl : string -> string -> string.

Lemma batchLoop_negative_width vid buf tchunks maxc fuel : forall schedule b acc w,
  maxc < 0 -> b <= 0 -> 0 < tchunks ->
  batchLoop pe E extname fuel schedule vid buf tchunks maxc b acc w =
    mkJoined OutOfFuel []
      (mkWorld (db w) (events w ++ repeat (EvSleep 1000) fuel) (clockReads w)
         (randomDraws w) (idDraws w) (dbCalls w) (uploadCalls w) (removeCalls w)
         (metadataCalls w))
      schedule.
Proof.
  induction fuel as [| fuel IH]; intros schedule b acc w Hmax Hb Ht.
  - cbn. rewrite app_nil_r. by destruct w.
  - cbn [batchLoop].
    destruct (Z.ltb_spec b tchunks) as [_ | Hge]; [| lia].
    replace (Z.to_nat (Z.min (b + maxc) tchunks - b)) with 0%nat by lia.
    destruct (Z.ltb_spec (Z.min (b + maxc) tchunks) tchunks) as [_ | Hge]; [| lia].
    cbn [batchMembers seq map]. rewrite promiseAll_nil.
    cbn [joined schedule_left world_then]. unfold sleep. cbn [snd].
    rewrite IH by lia. cbn [db events emit clockReads randomDraws idDraws dbCalls
                            uploadCalls removeCalls metadataCalls].
    by rewrite <- app_assoc.
Qed.

Lemma sync_Date_now {A} (k : Z -> Segment A) w :
  sync (Date_now E) k w = k (clock E (clockReads w)) (nextClock w).
Proof. reflexivity. Qed.

Hypothesis db_ok : forall n, db_fault E n = None.
Hypothesis transfers_ok : forall n, replyFails (upload_reply E n) = false.

(** The upload of the next chunk of the session settles after its
    lookup, its transfer and its save. *)
Lemma uploadChunkT_settles vid n b buf w :
  0 <= b -> SessionAt vid n b w ->
  settlesWithin 3 (uploadChunkT pe E extname vid b buf) w.
Proof.
  intros Hb (cv & Hcv & Hvid & Hn & Hurl & Hidx).
  assert (Hfind : find (fun chunk => chunkIndex chunk =? b) (uploadedChunks cv) = None).
  { destruct (find _ (uploadedChunks cv)) as [rec |] eqn:Hfind; [| done].
    apply find_some in Hfind as [Hrec Heq]. apply Z.eqb_eq in Heq.
    assert (Hin : In b (indexRange 0 b))
      by (rewrite <- Hidx, <- Heq; by apply in_map).
    apply In_indexRange in Hin. lia. }
  unfold uploadChunkT. apply settlesWithin_mapSettled.
  unfold awaiting at 1. cbn [settlesWithin]. unfold findOne. rewrite db_ok, Hcv, Hfind.
  rewrite sync_Date_now. cbv beta zeta.
  change (Z.to_nat MAX_RETRIES) with 5%nat. cbn [retrySegment].
  change ((0 <? MAX_RETRIES) && negb false) with true. cbv iota.
  unfold await at 1. cbn [fst snd]. unfold awaiting at 1. cbn [settlesWithin].
  match goal with
  | |- context [attemptUpload pe E cv ?fn buf ?w1] =>
      pose proof (transfers_ok (uploadCalls w1)) as Hreply;
      destruct (upload_reply E (uploadCalls w1)) as [[p |] [e |] | |] eqn:Hr;
        try discriminate Hreply;
      apply negb_false_iff in Hreply;
      rewrite (attemptUpload_succeeds pe E cv fn buf w1 p Hr Hreply)
  end.
  cbn [retrySegment].
  change ((0 + 1 <? MAX_RETRIES) && negb true) with false. cbv iota.
  rewrite sync_Date_now. cbv beta zeta. unfold checkCompletion.
  unfold await at 1. cbn [fst snd]. unfold awaiting at 1. cbn [settlesWithin].
  by destruct (save E _ _) as [[[] | m |] w3].
Qed.

(** Batches of one chunk each, the member picked at every instant: the
    loop stores chunk after chunk and returns. *)
Lemma batchLoop_one_by_one vid n buf tchunks fuel : forall k b acc w,
  0 <= b -> (Z.to_nat (tchunks - b) < fuel)%nat -> (3 * Z.to_nat (tchunks - b) <= k)%nat ->
  SessionAt vid n (Z.min b tchunks) w ->
  let r := batchLoop pe E extname fuel (repeat 0%nat k) vid buf tchunks 1 b acc w in
  exists rs, joined r = Ok rs /\ SessionAt vid n tchunks (world_then r).
Proof.
  induction fuel as [| fuel IH]; intros k b acc w Hb Hfuel Hk Hs r; [lia |].
  subst r. cbn [batchLoop].
  destruct (Z.ltb_spec b tchunks) as [Hlt | Hge].
  2: { exists acc. split; [done |]. by rewrite Z.min_r in Hs by lia. }
  rewrite Z.min_l in Hs by lia.
  replace (Z.to_nat (Z.min (b + 1) tchunks - b)) with 1%nat by lia.
  cbn [batchMembers seq map]. replace (b + Z.of_nat 0) with b by lia.
  destruct (uploadChunk_returns pe E extname db_ok transfers_ok vid n b
              (chunkBufferOf pe buf b) w Hb Hs) as (res & w1 & Hone).
  pose proof (uploadChunk_advances pe E extname vid n b _ w res w1 Hb Hs Hone) as Hs1.
  pose proof (finish_uploadChunkT pe E extname vid b (chunkBufferOf pe buf b) w) as Hfin.
  rewrite Hone in Hfin.
  destruct (promiseAll_alone 3 (uploadChunkT pe E extname vid b (chunkBufferOf pe buf b))
              w (k - 3) res (uploadChunkT_settles vid n b _ w Hb Hs)
              ltac:(by rewrite Hfin)) as (k' & Hk' & Hbatch).
  replace (3 + (k - 3))%nat with k in Hbatch by lia.
  rewrite Hbatch, Hfin. cbn [joined schedule_left world_then snd].
  apply IH; [lia | lia | lia |].
  replace (Z.min (b + 1) tchunks) with (b + 1) by lia.
  apply (SessionAt_db _ _ _ w1); [| done].
  unfold sleep. by destruct (_ <? _).
Qed.

End SerialRun.

(** ** Chunk boundaries and the scheduler *)




(** ** A batch that fails *)




(** ** Runs that return *)



(** X16. When the batches hold one chunk each, no persistence call
    fails and every transfer is answered with a path,
    [uploadVideoInChunks] returns a first-completion result for every
    video file with a buffer, a size that is not negative and a
    positive chunk size, as soon as the fuel exceeds the number of
    chunks and the schedule answers the one member of each batch three
    times (its lookup, its transfer, its save); a file of size [0] is
    completed with no chunk. *)
Theorem uploadVideoInChunks_returns_when_calm (pe : ProcessEnv) (E : Oracle)
    (extname : string -> string) (getPublicUrl : string -> string -> string)
    (picks fuel : nat) (file : File) (fld : string) (w : World) (buf : list Byte.byte) :
  (forall n, db_fault E n = None) ->
  (forall n, replyFails (upload_reply E n) = false) ->
  buffer file = Some buf -> isVideo file = true ->
  0 <= size file -> 0 < CHUNK_SIZE pe -> MAX_CONCURRENT_CHUNKS pe = 1 ->
  (Z.to_nat (Js.ceilDiv (size file) (CHUNK_SIZE pe)) < fuel)%nat ->
  (3 * Z.to_nat (Js.ceilDiv (size file) (CHUNK_SIZE pe)) <= picks)%nat ->
  exists info w',
    uploadVideoInChunks pe E extname getPublicUrl (repeat 0%nat picks) fuel file fld w
      = (Ok (Completed info), w').
Proof.
  intros db_ok transfers_ok Hbuf Hvideo Hsize Hcs Hmax Hfuel Hpicks.
  set (n := Js.ceilDiv (size file) (CHUNK_SIZE pe)) in *.
  assert (Hn0 : 0 <= n).
  { pose proof (ceilDiv_bounds (size file) (CHUNK_SIZE pe) Hcs). fold n in H. nia. }
  pose proof (initialize_ok pe E file fld w buf Hbuf Hvideo (db_ok _)) as Hinit.
  cbv zeta in Hinit. fold n in Hinit.
  set (vid := randomBytesHex E (idDraws w)) in *.
  pose proof (initialize_Ok_session pe E file fld w _ _ Hinit) as Hs0.
  fold n vid in Hs0.
  match type of Hinit with _ = (_, ?x) => set (w0 := x) in * end.
  destruct (batchLoop_one_by_one pe E extname db_ok transfers_ok vid n (bufferOf file)
              n fuel picks 0 [] w0 ltac:(lia) ltac:(by rewrite Z.sub_0_r)
              ltac:(by rewrite Z.sub_0_r) ltac:(by rewrite Z.min_l))
    as (rs & Hloop & Hfin).
  set (batches := batchLoop pe E extname fuel (repeat 0%nat picks) vid (bufferOf file)
                    n 1 0 [] w0) in *.
  set (w1 := world_then batches) in *.
  destruct Hfin as (cv & Hcv & Hvid & Hn & Hurl & Hidx).
  assert (Hlen : lengthZ (uploadedChunks cv) = n).
  { unfold lengthZ. rewrite <- (length_map chunkIndex), Hidx.
    unfold indexRange. rewrite length_map, length_seq. lia. }
  unfold uploadVideoInChunks, tryCatch at 1. unfold bind at 1. rewrite Hinit.
  cbn [ir_videoId ir_totalChunks ir_maxConcurrentChunks]. rewrite Hmax.
  unfold bind at 1. fold batches. rewrite Hloop. fold w1.
  unfold bind at 1. unfold findOne at 1. rewrite db_ok, Hcv, Hlen, Z.eqb_refl.
  cbn [negb].
  unfold checkCompletion, calculateProgress.
  cbn [uploadedChunks totalChunks with_progress with_isComplete].
  rewrite Hn, Hlen, Z.eqb_refl. cbn [negb].
  unfold bind at 1. unfold save at 1. rewrite db_ok.
  unfold bind at 1.
  match goal with
  | |- context [tryCatch (extractVideoMetadata E) ?h ?w2] =>
      destruct (tryCatch (extractVideoMetadata E) h w2) as [[d | m |] w3] eqn:Hmeta;
      [ | exfalso | exfalso ];
      unfold tryCatch, extractVideoMetadata, ret in Hmeta;
      destruct (metadata_duration E _); try discriminate Hmeta;
      assert (Hdb3 : db w3 = db w2) by (injection Hmeta as _ <-; done)
  end.
  all: cbn [db nextDb set_db videoId with_isComplete with_progress] in Hdb3.
  all: unfold bind at 1.
  all: edestruct (completeChunkedUpload_first pe E extname getPublicUrl vid w3)
         as (info & manifest & w4 & Hdone & _);
    [apply db_ok | rewrite Hdb3, Hvid; apply lookup_insert_eq | reflexivity
    | unfold finalVideoUrlSet; cbn; by rewrite Hurl | apply db_ok |].
  all: rewrite Hdone; by eexists _, _.
Qed.

Lemma uploadVideoInChunks_returns_when_calm_witness :
  exists info w',
    uploadVideoInChunks (Build_ProcessEnv (Some 10) (Some 1) None None) Fixture.calm
      Fixture.extname Fixture.getPublicUrl (repeat 0%nat 9) 4 Fixture.file25 "videos"
      Fixture.empty = (Ok (Completed info), w').
Proof.
  apply (uploadVideoInChunks_returns_when_calm
           (Build_ProcessEnv (Some 10) (Some 1) None None) Fixture.calm Fixture.extname
           Fixture.getPublicUrl 9 4 Fixture.file25 "videos" Fixture.empty
           (repeat Byte.x00 25)).
  - intros n. reflexivity.
  - intros n. reflexivity.
  - reflexivity.
  - reflexivity.
  - simpl. lia.
  - reflexivity.
  - reflexivity.
  - vm_compute. lia.
  - vm_compute. lia.
Defined.

(** X17. A negative [MAX_CONCURRENT_CHUNKS] makes the scheduler loop
    without end on every file of at least one chunk: the loop index
    moves away from [totalChunks], each round uploads nothing and
    waits one second, so for every amount of fuel the run is cut short
    after that many waits, with no transfer sent. *)
Theorem uploadVideoInChunks_negative_width_diverges (pe : ProcessEnv) (E : Oracle)
    (extname : string -> string) (getPublicUrl : string -> string -> string)
    (schedule : list nat) (fuel : nat) (file : File) (fld : string) (w : World)
    (buf : list Byte.byte) :
  MAX_CONCURRENT_CHUNKS pe < 0 ->
  buffer file = Some buf -> isVideo file = true ->
  db_fault E (dbCalls w) = None ->
  0 < Js.ceilDiv (size file) (CHUNK_SIZE pe) ->
  let out := uploadVideoInChunks pe E extname getPublicUrl schedule fuel file fld w in
  fst out = OutOfFuel /\
  events (snd out) = events w ++ repeat (EvSleep 1000) fuel.
Proof.
  intros Hmax Hbuf Hvideo Hf Hn out. subst out.
  pose proof (initialize_ok pe E file fld w buf Hbuf Hvideo Hf) as Hinit.
  cbv zeta in Hinit.
  assert (Hrun : exists w',
            uploadVideoInChunks pe E extname getPublicUrl schedule fuel file fld w
              = (OutOfFuel, w')
            /\ events w' = events w ++ repeat (EvSleep 1000) fuel).
  { unfold uploadVideoInChunks, tryCatch at 1. unfold bind at 1. rewrite Hinit.
    cbn [ir_videoId ir_totalChunks ir_maxConcurrentChunks].
    unfold bind at 1.
    rewrite batchLoop_negative_width by (done || lia).
    eexists. split; reflexivity. }
  destruct Hrun as (w' & -> & Hev). done.
Qed.

Lemma uploadVideoInChunks_negative_width_diverges_witness :
  fst (uploadVideoInChunks Fixture.pe_negative Fixture.calm Fixture.extname
         Fixture.getPublicUrl Fixture.serial 7 Fixture.file25 "videos" Fixture.empty)
    = OutOfFuel.
Proof.
  apply (uploadVideoInChunks_negative_width_diverges Fixture.pe_negative Fixture.calm
           Fixture.extname Fixture.getPublicUrl Fixture.serial 7 Fixture.file25 "videos"
           Fixture.empty (repeat Byte.x00 25)); reflexivity.
Defined.

(** X18. A file without a buffer, or that is not recognised as a
    video, is refused before anything happens: [uploadVideoInChunks]
    throws the message of the initialisation under both prefixes, and
    draws no identifier, makes no persistence call and sends no
    request. *)
Theorem uploadVideoInChunks_rejects_early (pe : ProcessEnv) (E : Oracle)
    (extname : string -> string) (getPublicUrl : string -> string -> string)
    (schedule : list nat) (fuel : nat) (file : File) (fld : string) (w : World) :
  buffer file = None \/ isVideo file = false ->
  uploadVideoInChunks pe E extname getPublicUrl schedule fuel file fld w =
    (Throw [PStr "AWS chunked video upload failed: ";
            PStr "Failed to initialize AWS-optimized chunked upload: ";
            PStr (match buffer file with
                  | None => "Invalid file buffer"
                  | Some _ => "File must be a video"
                  end)], w).
Proof.
  intros H. unfold uploadVideoInChunks, tryCatch at 1. unfold bind at 1.
  destruct (buffer file) as [b |] eqn:Hb.
  - destruct H as [H | H]; [discriminate |].
    by rewrite (initialize_not_video pe E file fld w b Hb H).
  - by rewrite (initialize_no_buffer pe E file fld w Hb).
Qed.

Lemma uploadVideoInChunks_rejects_early_witness :
  snd (uploadVideoInChunks Fixture.pe Fixture.calm Fixture.extname Fixture.getPublicUrl
         Fixture.serial 4 (mkFile (Some []) "image/png" "me.png" 10) "videos"
         Fixture.empty)
  = Fixture.empty.
Proof.
  rewrite (uploadVideoInChunks_rejects_early Fixture.pe Fixture.calm Fixture.extname
             Fixture.getPublicUrl Fixture.serial 4
             (mkFile (Some []) "image/png" "me.png" 10) "videos" Fixture.empty);
    [reflexivity | right; reflexivity].
Defined.
